(** * Introspector.Parser.parse: a shallow embedding and its properties

    The module [parse.py] answers editor queries (visible variables, the
    occurrences of the variable under the cursor, documentation, folding
    ranges, imported modules) over the syntax tree that Python 2's [ast.parse]
    builds for a source text.  The development follows the module top-down:
    the Python values it handles (text, syntax-tree objects, exceptions),
    the position arithmetic, the three node visitors, the path finder and the
    public methods of [Parser]; the theorems come last. *)

From Stdlib Require Import ZArith String Ascii List Lia Permutation Sorted.
From stdpp Require Import base option list sorting gmap strings pretty.

Local Open Scope string_scope.
Local Open Scope list_scope.
Local Open Scope Z_scope.

(* ===================================================================== *)
(** ** Exceptions *)
(* ===================================================================== *)

(** The exceptions the module can let escape. *)
Inductive exn : Type :=
| AttributeError | KeyError | IndexError | TypeError | ValueError
| UnboundLocalError | SyntaxError | UnicodeDecodeError | ImportError | IOError.

(** A Python call either returns a value or raises. *)
Inductive result (A : Type) : Type :=
| Ok (a : A)
| Raise (e : exn).
Arguments Ok {A} a.
Arguments Raise {A} e.

#[global] Instance result_ret : MRet result := fun A a => Ok a.
#[global] Instance result_bind : MBind result := fun A B f m =>
  match m with Ok a => f a | Raise e => Raise e end.
#[global] Instance result_fmap : FMap result := fun A B f m =>
  match m with Ok a => Ok (f a) | Raise e => Raise e end.

(** [for x in l: body] over a threaded state, stopping at the first raise. *)
Definition for_each {A S : Type} (l : list A) (body : A -> S -> result S)
  : S -> result S :=
  (fix loop (l : list A) (s : S) : result S :=
     match l with
     | [] => Ok s
     | x :: l' => match body x s with
                  | Ok s' => loop l' s'
                  | Raise e => Raise e
                  end
     end) l.

(** [float('inf')] where the module uses it as an upper bound of integers. *)
Inductive bound : Type :=
| Fin (z : Z)
| Inf.

Definition le_bound (z : Z) (b : bound) : bool :=
  match b with Fin y => z <=? y | Inf => true end.
Definition lt_bound (z : Z) (b : bound) : bool :=
  match b with Fin y => z <? y | Inf => true end.

(* ===================================================================== *)
(** ** Text *)
(* ===================================================================== *)

(** The stored source is a [unicode] object: a sequence of code units. *)
Definition text : Type := list Z.

Definition u (s : string) : text :=
  map (fun a => Z.of_N (N_of_ascii a)) (list_ascii_of_string s).

Definition len {A : Type} (l : list A) : Z := Z.of_nat (length l).

(** [l[:n]] and [l[n:]] with Python's reading of a negative bound. *)
Definition slice_to {A : Type} (l : list A) (n : Z) : list A :=
  if n <? 0 then firstn (Z.to_nat (len l + n)) l else firstn (Z.to_nat n) l.
Definition slice_from {A : Type} (l : list A) (n : Z) : list A :=
  if n <? 0 then skipn (Z.to_nat (len l + n)) l else skipn (Z.to_nat n) l.

(** [unicode.splitlines] breaks a line at each of these code units, and
    takes a carriage return followed by a line feed as one break. *)
Definition is_linebreak (c : Z) : bool :=
  existsb (Z.eqb c) [10; 11; 12; 13; 28; 29; 30; 133; 8232; 8233].

(** [unicode.isspace], character by character. *)
Definition is_space (c : Z) : bool :=
  ((9 <=? c) && (c <=? 13)) || ((28 <=? c) && (c <=? 32))
  || existsb (Z.eqb c) [133; 160; 5760; 6158; 8232; 8233; 8239; 8287; 12288]
  || ((8192 <=? c) && (c <=? 8202)).

(** [cur] holds, reversed, the characters of the line being read. *)
Fixpoint splitlines_from (keepends : bool) (s : text) (cur : text)
  : list text :=
  match s with
  | [] => match cur with [] => [] | _ => [rev cur] end
  | c :: s' =>
      if is_linebreak c then
        match c, s' with
        | 13, 10 :: s'' =>
            rev (if keepends then 10 :: 13 :: cur else cur)
              :: splitlines_from keepends s'' []
        | _, _ =>
            rev (if keepends then c :: cur else cur)
              :: splitlines_from keepends s' []
        end
      else splitlines_from keepends s' (c :: cur)
  end.

Definition splitlines (keepends : bool) (s : text) : list text :=
  splitlines_from keepends s [].

(** [line.isspace()]: at least one character, all of them white space. *)
Definition isspace (line : text) : bool :=
  match line with [] => false | _ => forallb is_space line end.

(** [string.letters + string.digits + '_'] in the C locale. *)
Definition in_chars (c : Z) : bool :=
  ((97 <=? c) && (c <=? 122)) || ((65 <=? c) && (c <=? 90))
  || ((48 <=? c) && (c <=? 57)) || (c =? 95).

(** [t.strip()] *)
Fixpoint lstrip (t : text) : text :=
  match t with
  | c :: t' => if is_space c then lstrip t' else t
  | [] => []
  end.
Definition strip (t : text) : text := rev (lstrip (rev (lstrip t))).

(** [t.startswith(prefix)] and [t.endswith(suffix)] *)
Fixpoint startswith (t prefix : text) : bool :=
  match prefix, t with
  | [], _ => true
  | p :: prefix', c :: t' => (c =? p) && startswith t' prefix'
  | _ :: _, [] => false
  end.
Definition endswith (t suffix : text) : bool :=
  startswith (rev t) (rev suffix).

(** [l[i]], with Python's reading of a negative index. *)
Definition getitem {A : Type} (l : list A) (i : Z) : option A :=
  if i <? 0 then
    if Z.of_nat (length l) + i <? 0 then None
    else nth_error l (Z.to_nat (Z.of_nat (length l) + i))
  else nth_error l (Z.to_nat i).

(** An ASCII word of the text as the [str] it compares equal to. *)
Definition str_of (t : text) : string :=
  string_of_list_ascii (map (fun c => ascii_of_N (Z.to_N c)) t).

(* ===================================================================== *)
(** ** Position arithmetic *)
(* ===================================================================== *)

(** The loop of [Parser._calculate_lineno] over [enumerate(lines)]: [i] is
    the counter of the line at hand, [lineno] the value the loop variable
    holds from the iteration before. *)
Fixpoint lineno_loop (lines : list text) (i idx lineno index : Z) : Z :=
  match lines with
  | [] => lineno
  | line :: rest =>
      let idx := idx + len line in
      if idx >=? index then i else lineno_loop rest (i + 1) idx i index
  end.

Definition sum_len (lines : list text) : Z :=
  fold_right (fun line acc => len line + acc) 0 lines.

Definition _calculate_index (source : text) (lineno col_offset : Z) : Z :=
  let lines := splitlines true source in
  sum_len (slice_to lines (lineno - 1)) + col_offset.

(* ===================================================================== *)
(** ** Syntax-tree objects *)
(* ===================================================================== *)

Module ast.

(** A field of a node that holds no node: an identifier or string, a
    number, a flag or [None]. *)
Inductive atom : Type :=
| AStr (s : string)
| AInt (z : Z)
| ABool (b : bool)
| ANone.

(** The value of one field of [_fields]. *)
Inductive field (N : Type) : Type :=
| FNode (n : N)
| FList (ns : list N)
| FAtom (a : atom).
Arguments FNode {N} n.
Arguments FList {N} ns.
Arguments FAtom {N} a.

(** An [ast.AST] instance: the name of its class, its fields in the order of
    [_fields], and the attributes [lineno] and [col_offset], which statement,
    expression and exception-handler nodes carry and the others lack. *)
#[warnings="-register-all"]
Inductive node : Type :=
| Node (cls : string) (fields : list (string * field node))
       (attributes : option (Z * Z)).

Definition cls (n : node) : string := let 'Node c _ _ := n in c.
Definition fields (n : node) : list (string * field node) :=
  let 'Node _ fs _ := n in fs.
Definition attributes (n : node) : option (Z * Z) := let 'Node _ _ a := n in a.

Definition isinstance (n : node) (classes : list string) : bool :=
  existsb (String.eqb (cls n)) classes.

Definition lineno (n : node) : result Z :=
  match attributes n with Some (l, _) => Ok l | None => Raise AttributeError end.
Definition col_offset (n : node) : result Z :=
  match attributes n with Some (_, c) => Ok c | None => Raise AttributeError end.

Fixpoint assoc {A : Type} (name : string) (l : list (string * A)) : option A :=
  match l with
  | [] => None
  | (k, v) :: l' => if String.eqb k name then Some v else assoc name l'
  end.

(** [node.name] for a field that holds a string. *)
Definition getattr_str (n : node) (name : string) : result string :=
  match assoc name (fields n) with
  | Some (FAtom (AStr s)) => Ok s
  | _ => Raise AttributeError
  end.

(** [node.name] for a field that holds a list of nodes. *)
Definition getattr_list (n : node) (name : string) : result (list node) :=
  match assoc name (fields n) with
  | Some (FList ns) => Ok ns
  | _ => Raise AttributeError
  end.

(** [node.name] for a field that holds one node. *)
Definition getattr_node (n : node) (name : string) : result node :=
  match assoc name (fields n) with
  | Some (FNode m) => Ok m
  | _ => Raise AttributeError
  end.

Definition field_nodes {N : Type} (f : field N) : list N :=
  match f with FNode n => [n] | FList ns => ns | FAtom _ => [] end.

(** [ast.iter_child_nodes]. *)
Definition iter_child_nodes (n : node) : list node :=
  flat_map (fun nf => field_nodes (snd nf)) (fields n).

(** [for child in ast.iter_child_nodes(node): body], written over the fields
    so that [body] may call the function being defined on [child]. *)
Definition for_each_child {S : Type} (fs : list (string * field node))
    (body : node -> S -> result S) : S -> result S :=
  (fix loop (fs : list (string * field node)) (s : S) : result S :=
     match fs with
     | [] => Ok s
     | (_, f) :: fs' =>
         match match f with
               | FNode n => body n s
               | FList ns => for_each ns body s
               | FAtom _ => Ok s
               end with
         | Ok s' => loop fs' s'
         | Raise e => Raise e
         end
     end) fs.

(** [for child in node.name: body] for the list field [name]. *)
Definition for_each_in {S : Type} (name : string)
    (fs : list (string * field node)) (body : node -> S -> result S)
  : S -> result S :=
  (fix loop (fs : list (string * field node)) (s : S) : result S :=
     match fs with
     | [] => Raise AttributeError
     | (k, f) :: fs' =>
         if String.eqb k name then
           match f with
           | FList ns => for_each ns body s
           | _ => Raise TypeError
           end
         else loop fs' s
     end) fs.

(** The nodes of a tree, parents before children, left to right. *)
Fixpoint preorder (n : node) : list node :=
  n :: match n with
       | Node _ fs _ =>
           flat_map (fun nf => match snd nf with
                               | FNode m => preorder m
                               | FList ns => flat_map preorder ns
                               | FAtom _ => []
                               end) fs
       end.

Definition count (n : node) : nat := length (preorder n).

(** [ast.walk]: the nodes in the order a queue hands them out. *)
Fixpoint walk_queue (fuel : nat) (todo : list node) : list node :=
  match fuel, todo with
  | S fuel', n :: todo' => n :: walk_queue fuel' (todo' ++ iter_child_nodes n)
  | _, _ => []
  end.

Definition walk (n : node) : list node := walk_queue (count n) [n].

End ast.
Import ast.

(** [ast.get_docstring(node)], given [inspect.cleandoc], which it applies to
    the docstring; [None] when the body does not start with a string. *)
Definition get_docstring (cleandoc : string -> string) (node : node)
  : result (option string) :=
  if negb (isinstance node ["FunctionDef"; "ClassDef"; "Module"])
  then Raise TypeError
  else
    body ← getattr_list node "body";
    match body with
    | first :: _ =>
        if isinstance first ["Expr"] then
          value ← getattr_node first "value";
          if isinstance value ["Str"] then
            s ← getattr_str value "s"; Ok (Some (cleandoc s))
          else Ok None
        else Ok None
    | [] => Ok None
    end.


(** [_VariableNode]: the fields [lineno] and [col_offset]. *)
Definition _VariableNode : Type := (Z * Z)%type.

(* ===================================================================== *)
(** ** [_AssignParser]: the bindings of one scope *)
(* ===================================================================== *)

Module _AssignParser.

(** [variables] is a [defaultdict(list)]; [lineno] is the cutoff line. *)
Record t : Type := mk {
  variables : gmap string (list _VariableNode);
  lineno : bound
}.

Definition __init__ (lineno : bound) : t := mk ∅ lineno.

Definition _add_node (self : t) (node : node) (name : string) : result t :=
  l ← ast.lineno node;
  c ← col_offset node;
  Ok (mk (<[name := default [] (variables self !! name) ++ [(l, c)]]>
            (variables self))
         (lineno self)).

Definition generic_visit (self_visit : node -> t -> result t)
    (node : node) (self : t) : result t :=
  for_each_child (fields node) self_visit self.

Definition visit_Module (self_visit : node -> t -> result t)
    (node : node) (self : t) : result t :=
  for_each_in "body" (fields node)
    (fun subnode self =>
       if isinstance subnode ["FunctionDef"; "ClassDef"] then
         name ← getattr_str subnode "name"; _add_node self subnode name
       else self_visit subnode self)
    self.

Definition _visit_assign_target (node : node) (self : t) : result t :=
  match getattr_str node "id" with
  | Ok name => _add_node self node name
  | Raise _ =>
      if isinstance node ["Tuple"] then
        elts ← getattr_list node "elts";
        for_each elts
          (fun elt self => id ← getattr_str elt "id"; _add_node self elt id)
          self
      else Ok self
  end.

Definition visit_Assign (self_visit : node -> t -> result t)
    (node : node) (self : t) : result t :=
  targets ← getattr_list node "targets";
  self ← for_each targets _visit_assign_target self;
  generic_visit self_visit node self.

Definition visit_For (self_visit : node -> t -> result t)
    (node : node) (self : t) : result t :=
  target ← getattr_node node "target";
  self ← _visit_assign_target target self;
  generic_visit self_visit node self.

Definition _visit_comprehension (node : node) (self : t) : result t :=
  generators ← getattr_list node "generators";
  for_each generators
    (fun comprehension self =>
       target ← getattr_node comprehension "target";
       match getattr_str target "id" with
       | Ok name => _add_node self target name
       | Raise _ =>
           elts ← getattr_list target "elts";
           for_each elts
             (fun elt self =>
                id ← getattr_str elt "id"; _add_node self elt id)
             self
       end)
    self.

Definition _visit_def (self_visit : node -> t -> result t)
    (node : node) (self : t) : result t :=
  self ← for_each_in "body" (fields node)
    (fun subnode self =>
       if isinstance subnode ["FunctionDef"; "ClassDef"] then
         l ← ast.lineno subnode;
         if le_bound l (lineno self) then
           name ← getattr_str subnode "name"; _add_node self subnode name
         else self_visit subnode self
       else self_visit subnode self)
    self;
  name ← getattr_str node "name";
  _add_node self node name.

Definition visit_FunctionDef (self_visit : node -> t -> result t)
    (node : node) (self : t) : result t :=
  self ← _visit_def self_visit node self;
  l ← ast.lineno node;
  if lt_bound l (lineno self) then
    arguments ← getattr_node node "args";
    args ← getattr_list arguments "args";
    for_each args
      (fun arg self => id ← getattr_str arg "id"; _add_node self arg id)
      self
  else Ok self.

(** [name.asname] is a string or [None]; the empty string is falsy too. *)
Definition _visit_import (node : node) (self : t) : result t :=
  names ← getattr_list node "names";
  for_each names
    (fun name self =>
       match assoc "asname" (fields name) with
       | None => Raise AttributeError
       | Some (FAtom (AStr asname)) =>
           if String.eqb asname "" then
             n ← getattr_str name "name"; _add_node self node n
           else _add_node self node asname
       | Some _ => n ← getattr_str name "name"; _add_node self node n
       end)
    self.

(** [NodeVisitor.visit] behind the line guard of the overriding [visit]:
    the method [visit_<class>] if the class has one, else
    [generic_visit]. *)
Definition dispatch (self_visit : node -> t -> result t)
    (node : node) (self : t) : result t :=
  if isinstance node ["Module"] then visit_Module self_visit node self
  else if isinstance node ["Assign"] then visit_Assign self_visit node self
  else if isinstance node ["For"] then visit_For self_visit node self
  else if isinstance node ["ListComp"; "SetComp"; "DictComp"; "GeneratorExp"]
    then _visit_comprehension node self
  else if isinstance node ["FunctionDef"]
    then visit_FunctionDef self_visit node self
  else if isinstance node ["ClassDef"] then _visit_def self_visit node self
  else if isinstance node ["Import"; "ImportFrom"]
    then _visit_import node self
  else generic_visit self_visit node self.

Definition guard (node : node) (self : t) : bool :=
  match attributes node with
  | Some (l, _) => le_bound l (lineno self)
  | None => true
  end.

Fixpoint visit (node : node) (self : t) {struct node} : result t :=
  if guard node self then dispatch visit node self else Ok self.

End _AssignParser.

(* ===================================================================== *)
(** ** [_NameParser]: the occurrences of one name *)
(* ===================================================================== *)

(** [set.add] on a set kept as a duplicate-free list. *)
Definition set_add {A : Type} `{EqDecision A} (x : A) (s : list A) : list A :=
  if decide (x ∈ s) then s else s ++ [x].

Module _NameParser.

(** [names] is a set, kept here in the order of insertion; the order in
    which Python iterates over it is not specified, and nothing below depends
    on it.  The visitor assigns to [col_offset] of the definitions it meets,
    so a visit hands back the node as it is left. *)
Record t : Type := mk {
  name : string;
  names : list _VariableNode
}.

Definition __init__ (name : string) : t := mk name [].

Definition _add_node (self : t) (node : node) (name' : string) : result t :=
  if String.eqb name' (name self) then
    l ← lineno node;
    c ← col_offset node;
    Ok (mk (name self) (set_add (l, c) (names self)))
  else Ok self.

(** The children visited in turn, each replaced by what its visit left. *)
Definition visit_children (self_visit : node -> t -> result (t * node))
  : list (string * field node) -> t ->
    result (t * list (string * field node)) :=
  fix loop (fs : list (string * field node)) (self : t) :=
    match fs with
    | [] => Ok (self, [])
    | (k, f) :: fs' =>
        match
          match f with
          | FNode n =>
              match self_visit n self with
              | Ok (self, n') => Ok (self, FNode n')
              | Raise e => Raise e
              end
          | FList ns =>
              (fix each (ns : list node) (self : t) :=
                 match ns with
                 | [] => Ok (self, FList [])
                 | n :: ns' =>
                     match self_visit n self with
                     | Ok (self, n') =>
                         match each ns' self with
                         | Ok (self, f') => Ok (self, FList (n' :: field_nodes f'))
                         | Raise e => Raise e
                         end
                     | Raise e => Raise e
                     end
                 end) ns self
          | FAtom a => Ok (self, FAtom a)
          end
        with
        | Ok (self, f') =>
            match loop fs' self with
            | Ok (self, fs'') => Ok (self, (k, f') :: fs'')
            | Raise e => Raise e
            end
        | Raise e => Raise e
        end
    end.

Definition generic_visit (self_visit : node -> t -> result (t * node))
    (node : node) (self : t) : result (t * ast.node) :=
  '(self, fs) ← visit_children self_visit (fields node) self;
  Ok (self, Node (cls node) fs (attributes node)).

Definition visit_Name (node : node) (self : t) : result (t * ast.node) :=
  id ← getattr_str node "id";
  self ← _add_node self node id;
  Ok (self, node).

(** [node.col_offset += n]. *)
Definition bump (node : node) (n : Z) : result ast.node :=
  match attributes node with
  | Some (l, c) => Ok (Node (cls node) (fields node) (Some (l, c + n)))
  | None => Raise AttributeError
  end.

(** The assignment to [col_offset] leaves the fields alone, so the
    children visited by [generic_visit] are those of the node as it came. *)
Definition _visit_def (self_visit : node -> t -> result (t * node))
    (node : node) (self : t) : result (t * ast.node) :=
  node' ← (if isinstance node ["FunctionDef"] then bump node (len (u "def "))
           else if isinstance node ["ClassDef"]
             then bump node (len (u "class "))
           else Ok node);
  name ← getattr_str node' "name";
  self ← _add_node self node' name;
  '(self, fs) ← visit_children self_visit (fields node) self;
  Ok (self, Node (cls node') fs (attributes node')).

Fixpoint visit (node : node) (self : t) {struct node} : result (t * ast.node) :=
  if isinstance node ["Name"] then visit_Name node self
  else if isinstance node ["FunctionDef"; "ClassDef"]
    then _visit_def visit node self
  else generic_visit visit node self.

End _NameParser.

(* ===================================================================== *)
(** ** [_DefinitionParser]: the definitions of a module *)
(* ===================================================================== *)

(** The namedtuple [_Definition]. *)
Record _Definition : Type := mk_Definition {
  title : text;
  range : Z * Z;
  docstring : string;
  type : string
}.

Module _DefinitionParser.

Record t : Type := mk {
  definitions : list _Definition;
  _source : text
}.

Definition __init__ (source : text) : t := mk [] source.

(** [for child in ast.walk(node)] of [_node_end], from [node.lineno]. *)
Definition _node_end (node : node) : result Z :=
  end_lineno ← lineno node;
  Ok (fold_left
        (fun end_lineno child =>
           match attributes child with
           | Some (lineno, _) =>
               if lineno >? end_lineno then lineno else end_lineno
           | None => end_lineno
           end)
        (walk node) end_lineno).

(** The loop of [_visit_def] that looks for the line of the keyword. *)
Fixpoint find_title (lines : list text) (prefix : text) (lineno : Z) : Z :=
  match lines with
  | [] => lineno
  | line :: rest =>
      if startswith (strip line) prefix then lineno
      else find_title rest prefix (lineno + 1)
  end.

Section Docstrings.

Variable cleandoc : string -> string.

Definition _visit_def (self : t) (node : node) (def_type : string)
  : result _Definition :=
  prefix ← (if isinstance node ["FunctionDef"] then Ok (u "def ")
            else if isinstance node ["ClassDef"] then Ok (u "class ")
            else Raise ValueError);
  node_lineno ← lineno node;
  let lineno :=
    find_title (slice_from (splitlines false (_source self)) (node_lineno - 1))
               prefix node_lineno in
  match getitem (splitlines false (_source self)) (lineno - 1) with
  | None => Raise IndexError
  | Some line =>
      let title := strip line in
      let title := slice_from title (len prefix) in
      let title :=
        if endswith title (u ":") then slice_to title (-1)
        else title ++ u " ..." in
      end_lineno ← _node_end node;
      doc ← get_docstring cleandoc node;
      Ok (mk_Definition title (lineno, end_lineno - lineno + 1)
                        (default "" doc) def_type)
  end.

Definition append (self : t) (d : _Definition) : t :=
  mk (definitions self ++ [d]) (_source self).

Definition generic_visit (self_visit : node -> t -> result t)
    (node : node) (self : t) : result t :=
  for_each_child (fields node) self_visit self.

Definition visit_FunctionDef (self_visit : node -> t -> result t)
    (node : node) (self : t) : result t :=
  d ← _visit_def self node "function";
  generic_visit self_visit node (append self d).

Definition visit_ClassDef (self_visit : node -> t -> result t)
    (node : node) (self : t) : result t :=
  d ← _visit_def self node "class";
  for_each_child (fields node)
    (fun subnode self =>
       self ← (if isinstance subnode ["FunctionDef"] then
                 d ← _visit_def self subnode "method"; Ok (append self d)
               else Ok self);
       generic_visit self_visit subnode self)
    (append self d).

Fixpoint visit (node : node) (self : t) {struct node} : result t :=
  if isinstance node ["FunctionDef"] then visit_FunctionDef visit node self
  else if isinstance node ["ClassDef"] then visit_ClassDef visit node self
  else generic_visit visit node self.

End Docstrings.

End _DefinitionParser.

(* ===================================================================== *)
(** ** Paths through the tree *)
(* ===================================================================== *)

(** A reference to a node of the stored tree: the child indices that lead to
    it from the root, and the node found there. *)
Definition ref : Type := (list nat * node)%type.

(** [body i child] for the children in the order of [ast.iter_child_nodes],
    [i] counting them. *)
Definition flat_map_children {B : Type} (body : nat -> node -> list B)
  : list (string * field node) -> nat -> list B :=
  fix loop (fs : list (string * field node)) (i : nat) : list B :=
    match fs with
    | [] => []
    | (_, f) :: fs' =>
        match f with
        | FNode n => body i n ++ loop fs' (S i)
        | FList ns =>
            (fix each (ns : list node) (i : nat) : list B :=
               match ns with
               | [] => loop fs' i
               | n :: ns' => body i n ++ each ns' (S i)
               end) ns i
        | FAtom _ => loop fs' i
        end
    end.

Fixpoint _iter_paths (tree : node) (here : list nat) (cur : list ref)
  : list (list ref) :=
  match iter_child_nodes tree with
  | [] => [cur]
  | _ =>
      flat_map_children
        (fun i child =>
           _iter_paths child (here ++ [i]) (cur ++ [(here ++ [i], child)]))
        (fields tree) 0
  end.

Definition on_line (lineno : Z) (r : ref) : bool :=
  match attributes (snd r) with
  | Some (node_lineno, _) => node_lineno =? lineno
  | None => false
  end.

Definition _get_path (tree : node) (lineno : Z) : list ref :=
  match find (existsb (on_line lineno)) (_iter_paths tree [] []) with
  | Some path => ([], tree) :: path
  | None => []
  end.

(** The child numbered [i] replaced by [f] of it. *)
Definition update_child (f : node -> node)
  : list (string * field node) -> nat -> list (string * field node) :=
  fix loop (fs : list (string * field node)) (i : nat) :=
    match fs with
    | [] => []
    | (k, FNode n) :: fs' =>
        match i with
        | O => (k, FNode (f n)) :: fs'
        | S i' => (k, FNode n) :: loop fs' i'
        end
    | (k, FList ns) :: fs' =>
        if (i <? length ns)%nat
        then (k, FList (alter f i ns)) :: fs'
        else (k, FList ns) :: loop fs' (i - length ns)%nat
    | (k, FAtom a) :: fs' => (k, FAtom a) :: loop fs' i
    end.

(** The stored tree once the node referred to by [a] has become [new]. *)
Fixpoint replace_at (a : list nat) (new : node) (tree : node) : node :=
  match a with
  | [] => new
  | i :: a' =>
      Node (cls tree) (update_child (replace_at a' new) (fields tree) i)
           (attributes tree)
  end.

(** [while lines and (lines[-1] == "" or lines[-1].isspace()): lines.pop()] *)
Fixpoint pop_blank (lines : list text) : list text :=
  match lines with
  | [] => []
  | line :: rest =>
      match pop_blank rest with
      | [] => match line with
              | [] => []
              | _ => if isspace line then [] else [line]
              end
      | rest' => line :: rest'
      end
  end.

Definition xrange (a b : Z) : list Z :=
  map (fun i => a + Z.of_nat i) (seq 0 (Z.to_nat (b - a))).

Definition max_list (l : list Z) : Z :=
  match l with
  | [] => 0
  | x :: l' => fold_left Z.max l' x
  end.

Definition sorted (l : list Z) : list Z := merge_sort Z.le l.

(* ===================================================================== *)
(** ** [Parser] *)
(* ===================================================================== *)

(** A Python 2 [str]: a sequence of bytes. *)
Definition bytes : Type := list Z.

Module Parser.

(** A constructed parser: [__init__] ends with an assignment to [source],
    so both fields are set from then on. *)
Record t : Type := mk {
  _tree : node;
  _source : text
}.

Section Host.

(** What the interpreter and the host supply: [ast.parse], the UTF-8 codec
    behind [unicode(_, 'UTF-8')], and the vocabulary
    [dir(__builtin__) + keyword.kwlist]. *)
Variable ast_parse : bytes -> result node.
Variable unicode_utf8 : bytes -> result text.
Variable builtins : list string.

(** [inspect.cleandoc]; and what the module loaders answer for a module name:
    [_parse_module], and the attribute names [dir] lists for the module
    that [imp.load_dynamic] or [imp.load_package] loads. *)
Variable cleandoc : string -> string.
Variable _parse_module : string -> result node.
Variable load_dynamic : string -> result (list string).
Variable load_package : string -> result (list string).

(** The setter of the property [source]: the outcome of the assignment
    and the parser it leaves. *)
Definition source_setter (self : t) (new_source : bytes)
  : result unit * t :=
  match ast_parse new_source with
  | Raise e => (Raise e, self)
  | Ok tree =>
      let self := mk tree (_source self) in
      match unicode_utf8 new_source with
      | Raise e => (Raise e, self)
      | Ok source => (Ok tt, mk (_tree self) source)
      end
  end.

Definition __init__ (source : bytes) : result t :=
  tree ← ast_parse source;
  source ← unicode_utf8 source;
  Ok (mk tree source).

Definition source (self : t) : text := _source self.
Definition tree (self : t) : node := _tree self.

Definition _calculate_lineno (self : t) (index : Z) : Z :=
  match splitlines true (_source self) with
  | [] => 1
  | lines => lineno_loop lines 0 0 0 index + 1
  end.

(** Called with [0 <= index < len(self._source)], so every subscript is
    in range. *)
Definition _word_at_index (self : t) (index : Z) : text :=
  let at_ idx := nth (Z.to_nat idx) (_source self) 0 in
  let anchor :=
    default 0 ((fun idx => idx + 1) <$>
                 find (fun idx => negb (in_chars (at_ idx)))
                      (rev (xrange 0 (index + 1)))) in
  let bound :=
    default (len (_source self))
            (find (fun idx => negb (in_chars (at_ idx)))
                  (xrange index (len (_source self)))) in
  slice_from (slice_to (_source self) bound) anchor.

(** The line of [index], moved back over blank lines: [new_lineno]. *)
Definition scope_line (self : t) (index : Z) : Z :=
  let lineno := _calculate_lineno self index in
  let lines := slice_to (splitlines false (_source self)) lineno in
  let lines := pop_blank lines in
  len lines.

(** The bindings gathered along the path to the scope line of [index]. *)
Definition collect (self : t) (index : Z) : result _AssignParser.t :=
  let new_lineno := scope_line self index in
  let parser := _AssignParser.mk ∅ (Fin new_lineno) in
  let path := _get_path (_tree self) new_lineno in
  for_each path (fun node parser => _AssignParser.visit (snd node) parser)
           parser.

Definition index_of (self : t) (node : _VariableNode) : Z :=
  _calculate_index (_source self) (fst node) (snd node).

Definition variables (self : t) (index : Z) : result (gmap string Z) :=
  parser ← collect self index;
  let variables : gmap string (list Z) :=
    (fun nodes => remove_dups (map (index_of self) nodes))
      <$> _AssignParser.variables parser in
  let variables :=
    fold_left
      (fun (variables : gmap string (list Z)) builtin =>
         match variables !! builtin with
         | Some _ => variables
         | None => <[builtin := []]> variables
         end)
      builtins variables in
  Ok ((fun indices => match indices with
                      | [] => -1
                      | _ => max_list indices
                      end) <$> variables).

(** The scopes of the path, innermost first, collected one at a time
    until one binds [variable]. *)
Fixpoint find_scope (variable : string) (scope_nodes : list ref)
    (scope_parser : _AssignParser.t)
  : result (option (ref * _AssignParser.t)) :=
  match scope_nodes with
  | [] => Ok None
  | scope_node :: rest =>
      match _AssignParser.visit (snd scope_node) scope_parser with
      | Raise e => Raise e
      | Ok scope_parser =>
          match _AssignParser.variables scope_parser !! variable with
          | Some _ => Ok (Some (scope_node, scope_parser))
          | None =>
              find_scope variable rest
                (_AssignParser.mk ∅ (_AssignParser.lineno scope_parser))
          end
      end
  end.

(** What [variable_indices] knows once it has found the scope: the word
    under the cursor, the scope, and the sorted offsets at which the
    scope binds the word. *)
Record resolved : Type := mk_resolved {
  variable : text;
  scope_node : ref;
  binding_indices : list Z
}.

Definition resolve (self : t) (index : Z) : result (option resolved) :=
  if (index <? 0) || (index >=? len (_source self)) then Ok None
  else
    let variable := _word_at_index self index in
    match variable with
    | [] => Ok None
    | _ =>
        let lineno := _calculate_lineno self index in
        let path := _get_path (_tree self) lineno in
        let scope_nodes :=
          filter (fun node : ref =>
                    Is_true (isinstance (snd node)
                               ["Module"; "FunctionDef"; "ClassDef"]))
                 (rev path) in
        found ← find_scope (str_of variable) scope_nodes
                  (_AssignParser.__init__ Inf);
        match found with
        | None => Ok None
        | Some (scope_node, scope_parser) =>
            let nodes :=
              default [] (_AssignParser.variables scope_parser
                            !! str_of variable) in
            Ok (Some (mk_resolved variable scope_node
                        (sorted (map (index_of self) nodes))))
        end
    end.

Definition prev_index (variable_indices : list Z) (index : Z) : Z :=
  default 0 (find (fun idx => idx <=? index) (rev variable_indices)).

Definition next_index (variable_indices : list Z) (index : Z) : bound :=
  match find (fun idx => idx >? index) variable_indices with
  | Some idx => Fin idx
  | None => Inf
  end.

(** The pairs returned, and the parser as the call leaves it: the name
    visitor has been run over the scope node of the stored tree. *)
Definition variable_indices (self : t) (index : Z)
  : result (list (Z * Z) * t) :=
  found ← resolve self index;
  match found with
  | None => Ok ([], self)
  | Some r =>
      let prev_index := prev_index (binding_indices r) index in
      let next_index := next_index (binding_indices r) index in
      let name_parser := _NameParser.__init__ (str_of (variable r)) in
      '(name_parser, scope_node') ←
        _NameParser.visit (snd (scope_node r)) name_parser;
      let self' :=
        mk (replace_at (fst (scope_node r)) scope_node' (_tree self))
           (_source self) in
      let name_indices :=
        map (index_of self) (_NameParser.names name_parser) in
      Ok (map (fun idx => (idx, len (variable r)))
              (filter (fun idx => Is_true ((prev_index <=? idx)
                                           && lt_bound idx next_index))
                      name_indices),
          self')
  end.

Definition newline : string := "
".

(** ["{0} {1}\n{2}".format(node.lineno, name, docstring or "")] *)
Definition def_string (node : node) (name : string) : result string :=
  l ← lineno node;
  doc ← get_docstring cleandoc node;
  Ok (pretty l ++ " " ++ name ++ newline ++ default "" doc)%string.

Definition enumerate {A : Type} (l : list A) : list (Z * A) :=
  imap (fun i x => (Z.of_nat i, x)) l.

(** [{node.name: node for node in self._tree.body if isinstance(node, c)}] *)
Definition definitions_named (self : t) (c : string)
  : result (gmap string node) :=
  body ← getattr_list (_tree self) "body";
  for_each body
    (fun node (d : gmap string ast.node) =>
       if isinstance node [c] then
         name ← getattr_str node "name"; Ok (<[name := node]> d)
       else Ok d)
    ∅.

Definition sort_names (names : list string) : list string :=
  merge_sort (fun a b => Is_true (String.leb a b)) names.

(** The two dictionaries start out holding nodes and end up holding
    strings.  The first loop of [documentation], over the functions: *)
Definition format_functions (function_nodes : gmap string node)
  : result (gmap string string) :=
  for_each (enumerate (map_to_list function_nodes))
    (fun '(i, (name, node)) (functions : gmap string string) =>
       s ← def_string node name;
       if i <=? len (map_to_list function_nodes) - 1
       then Ok (<[name := (s ++ newline ++ newline)%string]> functions)
       else Ok (<[name := s]> functions))
    ∅.

(** The second loop, over the classes, which appends to
    [functions[name]]. *)
Definition format_classes (class_nodes : gmap string node)
    (functions : gmap string string)
  : result (gmap string string * gmap string string) :=
  for_each (enumerate (map_to_list class_nodes))
    (fun '(i, (name, node))
         '((classes, functions) : gmap string string * gmap string string) =>
       s ← def_string node name;
       let classes := <[name := s]> classes in
       if i <=? len (map_to_list class_nodes) - 1 then
         match functions !! name with
         | Some f =>
             Ok (classes,
                 <[name := (f ++ newline ++ newline)%string]> functions)
         | None => Raise KeyError
         end
       else Ok (classes, functions))
    (∅, functions).

Definition join_sorted (d : gmap string string) (documentation : string)
  : string :=
  fold_left (fun doc name => (doc ++ default "" (d !! name))%string)
            (sort_names (map fst (map_to_list d))) documentation.

Definition documentation (self : t) : result string :=
  function_nodes ← definitions_named self "FunctionDef";
  functions ← format_functions function_nodes;
  class_nodes ← definitions_named self "ClassDef";
  '(classes, functions) ← format_classes class_nodes functions;
  let documentation := ("Functions" ++ newline ++ newline)%string in
  let documentation := join_sorted functions documentation in
  let documentation :=
    (documentation ++ "Classes" ++ newline ++ newline)%string in
  Ok (join_sorted classes documentation).

(** The namedtuple [NavigationItem]: name and type. *)
Definition NavigationItem : Type := (text * string)%type.

Definition navigation (self : t) : result (gmap (Z * Z) NavigationItem) :=
  visitor ← _DefinitionParser.visit cleandoc (_tree self)
              (_DefinitionParser.__init__ (_source self));
  Ok (fold_left
        (fun (d : gmap (Z * Z) NavigationItem) item =>
           <[range item := (title item, type item)]> d)
        (_DefinitionParser.definitions visitor) ∅).

(** The inner loop of [nestable_lines]: the largest [lineno] among the
    nodes of [ast.walk(subnode)], starting from 0. *)
Definition last_line (subnode : node) : Z :=
  fold_left
    (fun end_ subsubnode =>
       match attributes subsubnode with
       | Some (lineno, _) => if lineno >? end_ then lineno else end_
       | None => end_
       end)
    (walk subnode) 0.

Definition nestable : list string :=
  ["FunctionDef"; "ClassDef"; "If"; "For"; "TryExcept"; "TryFinally"].

Definition nestable_lines (self : t) : result (list (Z * Z)) :=
  body ← getattr_list (_tree self) "body";
  let nodes := map walk body in
  for_each nodes
    (fun node nests =>
       for_each node
         (fun subnode nests =>
            if isinstance subnode nestable then
              let end_ := last_line subnode in
              l ← lineno subnode;
              Ok (nests ++ [(l, end_)])
            else Ok nests)
         nests)
    [].

(** The locals of [modules] that outlive an iteration: the dictionary
    being built and [module_info], unbound until first assigned. *)
Definition modules_state : Type :=
  (gmap string (list string) * option (list string))%type.

(** One [try] statement of [modules] for an import node.  [imported_name]
    is set for [ImportFrom].  The [else] clause calls [self._functions()],
    which [Parser] does not define; the [finally] clause runs whatever
    happened before it, and an exception pending when it ends is raised
    again. *)
Definition resolve_import (module_name : option string)
    (imported_name : option string) (st : modules_state)
  : result modules_state :=
  let '(modules, module_info) := st in
  let '(pending, module_info) :=
    match module_name with
    | None => (Some AttributeError, module_info)
    | Some module_name =>
        match _parse_module module_name with
        | Ok module_tree => (Some AttributeError, module_info)
        | Raise TypeError =>
            match load_dynamic module_name with
            | Ok info => (None, Some info)
            | Raise e => (Some e, module_info)
            end
        | Raise IOError =>
            match load_package module_name with
            | Ok info => (None, Some info)
            | Raise e => (Some e, module_info)
            end
        | Raise e => (Some e, module_info)
        end
    end in
  modules ←
    match imported_name with
    | Some imported_name =>
        match module_info with
        | None => Raise UnboundLocalError
        | Some info =>
            if decide (imported_name ∈ info) then Raise TypeError
            else Ok modules
        end
    | None =>
        match module_info, module_name with
        | None, _ => Raise UnboundLocalError
        | Some info, Some module_name => Ok (<[module_name := info]> modules)
        | Some info, None => Raise TypeError
        end
    end;
  match pending with
  | Some e => Raise e
  | None => Ok (modules, module_info)
  end.

(** [subnode.names[0].name] *)
Definition first_name (subnode : node) : result string :=
  names ← getattr_list subnode "names";
  match names with
  | first :: _ => getattr_str first "name"
  | [] => Raise IndexError
  end.

Definition modules_visit (subnode : node) (st : modules_state)
  : result modules_state :=
  if isinstance subnode ["Import"] then
    module_name ← first_name subnode;
    resolve_import (Some module_name) None st
  else if isinstance subnode ["ImportFrom"] then
    match assoc "module" (fields subnode) with
    | None => Raise AttributeError
    | Some module =>
        imported_name ← first_name subnode;
        resolve_import
          (match module with FAtom (AStr m) => Some m | _ => None end)
          (Some imported_name) st
    end
  else Ok st.

Definition modules (self : t) : result (gmap string (list string)) :=
  body ← getattr_list (_tree self) "body";
  st ← for_each body
         (fun node st => for_each (walk node) modules_visit st)
         (∅, None);
  Ok (fst st).

End Host.

End Parser.

(* ===================================================================== *)
(** ** Trees as [ast.parse] builds them *)
(* ===================================================================== *)

(** One function per node class of Python 2.7 used below, with the fields in
    the order of [_fields]. *)
Module py.

Definition opt (o : option node) : field node :=
  match o with Some n => FNode n | None => FAtom ANone end.
Definition ident (o : option string) : field node :=
  match o with Some s => FAtom (AStr s) | None => FAtom ANone end.

Definition Module (body : list node) : node :=
  Node "Module" [("body", FList body)] None.
Definition arguments (args : list node) (vararg kwarg : option string)
    (defaults : list node) : node :=
  Node "arguments" [("args", FList args); ("vararg", ident vararg);
                    ("kwarg", ident kwarg); ("defaults", FList defaults)]
       None.
Definition FunctionDef (l c : Z) (name : string) (args : node)
    (body decorator_list : list node) : node :=
  Node "FunctionDef" [("name", FAtom (AStr name)); ("args", FNode args);
                      ("body", FList body);
                      ("decorator_list", FList decorator_list)]
       (Some (l, c)).
Definition ClassDef (l c : Z) (name : string)
    (bases body decorator_list : list node) : node :=
  Node "ClassDef" [("name", FAtom (AStr name)); ("bases", FList bases);
                   ("body", FList body);
                   ("decorator_list", FList decorator_list)]
       (Some (l, c)).
Definition ctx (name : string) : node := Node name [] None.
Definition Name (l c : Z) (id : string) (context : string) : node :=
  Node "Name" [("id", FAtom (AStr id)); ("ctx", FNode (ctx context))]
       (Some (l, c)).
Definition Num (l c : Z) (n : Z) : node :=
  Node "Num" [("n", FAtom (AInt n))] (Some (l, c)).
Definition Str (l c : Z) (s : string) : node :=
  Node "Str" [("s", FAtom (AStr s))] (Some (l, c)).
Definition Assign (l c : Z) (targets : list node) (value : node) : node :=
  Node "Assign" [("targets", FList targets); ("value", FNode value)]
       (Some (l, c)).
Definition Print (l c : Z) (dest : option node) (values : list node)
    (nl : bool) : node :=
  Node "Print" [("dest", opt dest); ("values", FList values);
                ("nl", FAtom (ABool nl))]
       (Some (l, c)).
Definition Expr (l c : Z) (value : node) : node :=
  Node "Expr" [("value", FNode value)] (Some (l, c)).
Definition Pass (l c : Z) : node := Node "Pass" [] (Some (l, c)).
Definition Return (l c : Z) (value : option node) : node :=
  Node "Return" [("value", opt value)] (Some (l, c)).
Definition If (l c : Z) (test : node) (body orelse : list node) : node :=
  Node "If" [("test", FNode test); ("body", FList body);
             ("orelse", FList orelse)]
       (Some (l, c)).
Definition While (l c : Z) (test : node) (body orelse : list node) : node :=
  Node "While" [("test", FNode test); ("body", FList body);
                ("orelse", FList orelse)]
       (Some (l, c)).
Definition For (l c : Z) (target iter : node) (body orelse : list node)
  : node :=
  Node "For" [("target", FNode target); ("iter", FNode iter);
              ("body", FList body); ("orelse", FList orelse)]
       (Some (l, c)).

End py.

(** The tree of [simple_source] of the module's unit tests, and the text. *)
Definition simple_source : text := u "outer = 1
print outer
def func():
    invar = 1
    print invar
    invar = 2
outer = 2
print outer
print invar".

Definition simple_tree : node :=
  py.Module
    [ py.Assign 1 0 [py.Name 1 0 "outer" "Store"] (py.Num 1 8 1);
      py.Print 2 0 None [py.Name 2 6 "outer" "Load"] true;
      py.FunctionDef 3 0 "func" (py.arguments [] None None [])
        [ py.Assign 4 4 [py.Name 4 4 "invar" "Store"] (py.Num 4 12 1);
          py.Print 5 4 None [py.Name 5 10 "invar" "Load"] true;
          py.Assign 6 4 [py.Name 6 4 "invar" "Store"] (py.Num 6 12 2) ]
        [];
      py.Assign 7 0 [py.Name 7 0 "outer" "Store"] (py.Num 7 8 2);
      py.Print 8 0 None [py.Name 8 6 "outer" "Load"] true;
      py.Print 9 0 None [py.Name 9 6 "invar" "Load"] true ].

Definition simple_parser : Parser.t := Parser.mk simple_tree simple_source.

(** The parser of the empty source. *)
Definition empty_parser : Parser.t := Parser.mk (py.Module []) [].

(** A text of two lines, and a module that holds one class. *)
Definition two_lines : text := u "a
b".

Definition two_lines_parser : Parser.t :=
  Parser.mk (py.Module [py.Expr 1 0 (py.Name 1 0 "a" "Load");
                        py.Expr 2 0 (py.Name 2 0 "b" "Load")])
            two_lines.

Definition class_tree : node :=
  py.Module [py.ClassDef 1 0 "A" [] [py.Pass 2 4] []].

Definition class_source : text := u "class A:
    pass
".

(** [if c:] / [    def f(a):] / [        pass] / [x = 1] *)
Definition conditional_def_tree : node :=
  py.Module
    [ py.If 1 0 (py.Name 1 3 "c" "Load")
        [ py.FunctionDef 2 4 "f"
            (py.arguments [py.Name 2 10 "a" "Param"] None None [])
            [py.Pass 3 8] [] ]
        [];
      py.Assign 4 0 [py.Name 4 0 "x" "Store"] (py.Num 4 4 1) ].

Definition conditional_def_parser : Parser.t :=
  Parser.mk conditional_def_tree (u "if c:
    def f(a):
        pass
x = 1
").

(** [def f(a):] / [    return a] *)
Definition param_function : node :=
  py.FunctionDef 1 0 "f" (py.arguments [py.Name 1 6 "a" "Param"] None None [])
    [py.Return 2 4 (Some (py.Name 2 11 "a" "Load"))] [].

Definition param_parser : Parser.t :=
  Parser.mk (py.Module [param_function]) (u "def f(a):
    return a
").

(** [class C:] / [    def m(self):] / [        pass] *)
Definition method_class : node :=
  py.ClassDef 1 0 "C" []
    [ py.FunctionDef 2 4 "m"
        (py.arguments [py.Name 2 10 "self" "Param"] None None [])
        [py.Pass 3 8] [] ]
    [].

(** [def], a tab, [f():] / [    pass]: no line starts with [def] and a
    space. *)
Definition tab_parser : Parser.t :=
  Parser.mk
    (py.Module [py.FunctionDef 1 0 "f" (py.arguments [] None None [])
                  [py.Pass 2 4] []])
    (u "def" ++ [9] ++ u "f():
    pass
").

(** [while x:] / [    pass] *)
Definition while_parser : Parser.t :=
  Parser.mk (py.Module [py.While 1 0 (py.Name 1 6 "x" "Load") [py.Pass 2 4] []])
            (u "while x:
    pass
").



Definition extension_dir : string -> result (list string) :=
  fun _ => Ok ["f"].






(** [if c:] / [    def f(a):] / [        y = a] / [x = 1] *)
Definition conditional_local_parser : Parser.t :=
  Parser.mk
    (py.Module
       [ py.If 1 0 (py.Name 1 3 "c" "Load")
           [ py.FunctionDef 2 4 "f"
               (py.arguments [py.Name 2 10 "a" "Param"] None None [])
               [py.Assign 3 8 [py.Name 3 8 "y" "Store"]
                  (py.Name 3 12 "a" "Load")] [] ]
           [];
         py.Assign 4 0 [py.Name 4 0 "x" "Store"] (py.Num 4 4 1) ])
    (u "if c:
    def f(a):
        y = a
x = 1
").

(** A function whose only parameter is the starred [rest], and which
    returns it. *)
Definition variadic_parser : Parser.t :=
  Parser.mk
    (py.Module
       [ py.FunctionDef 1 0 "f" (py.arguments [] (Some "rest") None [])
           [py.Return 2 4 (Some (py.Name 2 11 "rest" "Load"))] [] ])
    (u "def f(*rest):
    return rest
").

(** The UTF-8 codec of a wide build, as far as telling well-formed input
    from ill-formed input goes. *)
Definition continuation (b : Z) : bool := (128 <=? b) && (b <=? 191).

Fixpoint utf8_decode (s : bytes) : result text :=
  match s with
  | [] => Ok []
  | b0 :: s1 =>
      if b0 <? 128 then cons b0 <$> utf8_decode s1
      else if (194 <=? b0) && (b0 <=? 223) then
        match s1 with
        | b1 :: s2 =>
            if continuation b1
            then cons ((b0 - 192) * 64 + (b1 - 128)) <$> utf8_decode s2
            else Raise UnicodeDecodeError
        | _ => Raise UnicodeDecodeError
        end
      else if (224 <=? b0) && (b0 <=? 239) then
        match s1 with
        | b1 :: b2 :: s3 =>
            if continuation b1 && continuation b2
               && (negb (b0 =? 224) || (160 <=? b1))
            then cons (((b0 - 224) * 64 + (b1 - 128)) * 64 + (b2 - 128))
                   <$> utf8_decode s3
            else Raise UnicodeDecodeError
        | _ => Raise UnicodeDecodeError
        end
      else if (240 <=? b0) && (b0 <=? 244) then
        match s1 with
        | b1 :: b2 :: b3 :: s4 =>
            if continuation b1 && continuation b2 && continuation b3
               && (negb (b0 =? 240) || (144 <=? b1))
               && (negb (b0 =? 244) || (b1 <=? 143))
            then cons ((((b0 - 240) * 64 + (b1 - 128)) * 64 + (b2 - 128)) * 64
                       + (b3 - 128))
                   <$> utf8_decode s4
            else Raise UnicodeDecodeError
        | _ => Raise UnicodeDecodeError
        end
      else Raise UnicodeDecodeError
  end.

(** A parser that knows one source, and the tree [ast.parse] builds for it. *)
Definition parse_only (source : bytes) (tree : node) : bytes -> result node :=
  fun s => if decide (s = source) then Ok tree else Raise SyntaxError.

(** The seven bytes of [x = '\xff'], which Python 2 compiles, and which are
    not UTF-8; and the tree of that source. *)
Definition latin1_source : bytes := [120; 32; 61; 32; 39; 255; 39].

Definition latin1_tree : node :=
  py.Module
    [ py.Assign 1 0 [py.Name 1 0 "x" "Store"]
        (py.Str 1 4 (String "255"%char EmptyString)) ].

(* ===================================================================== *)
(** ** Vocabulary of the statements *)
(* ===================================================================== *)

(** [P] holds of every child of a node with the fields [fs]. *)
Definition children_all (P : node -> Prop) (fs : list (string * field node))
  : Prop :=
  Forall (fun nf => Forall P (field_nodes (snd nf))) fs.

(** The bindings a collector holds for [name]. *)
Definition bindings (self : _AssignParser.t) (name : string)
  : list _VariableNode :=
  default [] (_AssignParser.variables self !! name).

(** The body of the loop of [visit_Module], for one statement of the
    module. *)
Definition module_step (subnode : node) (self : _AssignParser.t)
  : result _AssignParser.t :=
  if isinstance subnode ["FunctionDef"; "ClassDef"] then
    name ← getattr_str subnode "name";
    _AssignParser._add_node self subnode name
  else _AssignParser.visit subnode self.

(** The body of the loop of [_visit_def], for one statement of the
    definition. *)
Definition def_step (subnode : node) (self : _AssignParser.t)
  : result _AssignParser.t :=
  if isinstance subnode ["FunctionDef"; "ClassDef"] then
    l ← lineno subnode;
    if le_bound l (_AssignParser.lineno self) then
      name ← getattr_str subnode "name";
      _AssignParser._add_node self subnode name
    else _AssignParser.visit subnode self
  else _AssignParser.visit subnode self.

(** [self'] has the cutoff of [self] and every binding of [self]. *)
Definition extends (self self' : _AssignParser.t) : Prop :=
  _AssignParser.lineno self' = _AssignParser.lineno self
  /\ forall name x, x ∈ bindings self name -> x ∈ bindings self' name.

(** Between [before] and [after], exactly the binding [x] of [name] has been
    added. *)
Definition binds_once (before after : _AssignParser.t) (name : string)
    (x : _VariableNode) : Prop :=
  forall name',
    bindings after name'
    = if decide (name = name') then bindings before name ++ [x]
      else bindings before name'.

(** The line of a node, 0 for a node that has none. *)
Definition line_of (n : node) : Z :=
  match attributes n with Some (l, _) => l | None => 0 end.

(** [z] is the largest line among the nodes of the subtree of [n], or 0 when
    no line there is positive. *)
Definition largest_line (n : node) (z : Z) : Prop :=
  (forall m l c, m ∈ preorder n -> attributes m = Some (l, c) -> l <= z)
  /\ (z = 0 \/ exists m c, m ∈ preorder n /\ attributes m = Some (z, c)).



(** A line that [variables] steps back over: empty, or white space only. *)
Definition blank (line : text) : bool :=
  match line with [] => true | _ => isspace line end.

(** The nodes below a node: those of the subtrees of its children. *)
Definition descendants (n : node) : list node :=
  flat_map preorder (iter_child_nodes n).

(** [body i x] for the elements of a list, [i] counting them. *)
Fixpoint concat_indexed {A B : Type} (body : nat -> A -> list B) (l : list A)
    (i : nat) : list B :=
  match l with
  | [] => []
  | x :: l' => body i x ++ concat_indexed body l' (S i)
  end.

(** The tree a visit of [_NameParser] leaves: every definition it reaches
    has [col_offset] moved past its keyword; [Name] nodes are left whole. *)
Fixpoint shift_definitions (n : node) : node :=
  match n with
  | Node c fs a =>
      if String.eqb c "Name" then n
      else
        Node c
          (map (fun nf =>
                  (fst nf,
                   match snd nf with
                   | FNode m => FNode (shift_definitions m)
                   | FList ns => FList (map shift_definitions ns)
                   | FAtom x => FAtom x
                   end)) fs)
          (match a with
           | Some (l, col) =>
               if String.eqb c "FunctionDef" then Some (l, col + 4)
               else if String.eqb c "ClassDef" then Some (l, col + 6)
               else a
           | None => a
           end)
  end.

(** What an assignment or a [for] statement is to bind for one of its
    targets: a target with an [id] at its own position, and every element of
    a tuple target at the position of the element. *)
Definition target_bound (target : node) (self : _AssignParser.t) : Prop :=
  (forall name l c,
     getattr_str target "id" = Ok name ->
     attributes target = Some (l, c) ->
     (l, c) ∈ bindings self name)
  /\ (forall elts elt name l c,
        (forall name, getattr_str target "id" <> Ok name) ->
        isinstance target ["Tuple"] = true ->
        getattr_list target "elts" = Ok elts ->
        elt ∈ elts ->
        getattr_str elt "id" = Ok name ->
        attributes elt = Some (l, c) ->
        (l, c) ∈ bindings self name).

(** The scopes [variable_indices] searches, innermost first: the modules,
    functions and classes of the path, from its end. *)
Definition scope_nodes (path : list ref) : list ref :=
  filter (fun node : ref =>
            Is_true (isinstance (snd node)
                       ["Module"; "FunctionDef"; "ClassDef"]))
         (rev path).

(** [p] is the position of an occurrence of [name] in the subtree of [n]:
    that of a [Name] node with this [id], or that of a function or class
    definition with this name, moved past the keyword. *)
Definition occurs (name : string) (n : node) (p : _VariableNode) : Prop :=
  exists m l c,
    m ∈ preorder n
    /\ attributes m = Some (l, c)
    /\ ((cls m = "Name" /\ getattr_str m "id" = Ok name /\ p = (l, c))
        \/ (cls m = "FunctionDef" /\ getattr_str m "name" = Ok name
            /\ p = (l, c + 4))
        \/ (cls m = "ClassDef" /\ getattr_str m "name" = Ok name
            /\ p = (l, c + 6))).

(* ===================================================================== *)
(** * Properties *)
(* ===================================================================== *)

(** ** The unit tests of the module, on the embedding *)

Example test_variable_indices_outer :
  fst <$> Parser.variable_indices simple_parser 0 = Ok [(0, 5); (16, 5)].
Proof. vm_compute. reflexivity. Qed.

Example test_variable_indices_invar :
  fst <$> Parser.variable_indices simple_parser 38 = Ok [(38, 5); (58, 5)]
  /\ fst <$> Parser.variable_indices simple_parser 58 = Ok [(38, 5); (58, 5)]
  /\ fst <$> Parser.variable_indices simple_parser 68 = Ok [(68, 5)].
Proof. vm_compute. auto. Qed.

Example test_variable_indices_rebound :
  fst <$> Parser.variable_indices simple_parser 78 = Ok [(78, 5); (94, 5)].
Proof. vm_compute. reflexivity. Qed.

Example test_variable_indices_undefined :
  fst <$> Parser.variable_indices simple_parser 106 = Ok [].
Proof. vm_compute. reflexivity. Qed.

(** ** Position arithmetic *)

Lemma len_nonneg {A : Type} (l : list A) : 0 <= len l.
Proof. unfold len. lia. Qed.

Lemma sum_len_nonneg (lines : list text) : 0 <= sum_len lines.
Proof.
  induction lines as [|line lines IH]; simpl; [lia|].
  pose proof (len_nonneg line). lia.
Qed.

(** The loop stops at line [k] (counted from 0) for an offset inside it,
    provided the offset is not the first of a later line. *)
Lemma lineno_loop_inside (k : nat) :
  forall (lines : list text) (i idx last column : Z) (line : text),
    lines !! k = Some line ->
    0 <= column < len line ->
    ((0 < k)%nat -> 1 <= column) ->
    lineno_loop lines i idx last (idx + sum_len (firstn k lines) + column)
    = i + Z.of_nat k.
Proof.
  induction k as [|k IH]; intros lines i idx last column line Hk Hc Hpos.
  - destruct lines as [|l rest]; [discriminate|].
    injection Hk as ->. simpl.
    destruct (Z.geb_spec (idx + len line) (idx + 0 + column)); lia.
  - destruct lines as [|l rest]; [discriminate|].
    simpl in Hk. cbn [firstn sum_len fold_right lineno_loop].
    fold (sum_len (firstn k rest)).
    pose proof (sum_len_nonneg (firstn k rest)).
    pose proof (len_nonneg l).
    specialize (Hpos ltac:(lia)).
    destruct (Z.geb_spec (idx + len l)
                (idx + (len l + sum_len (firstn k rest)) + column)); [lia|].
    replace (idx + (len l + sum_len (firstn k rest)) + column)
      with ((idx + len l) + sum_len (firstn k rest) + column) by lia.
    rewrite (IH rest (i + 1) (idx + len l) i column line Hk Hc).
    + lia.
    + intros _. exact Hpos.
Qed.

(** C9, as stated, fails: in the text of the two lines [a] and [b], the
    position line 2, column 0 is the offset 2, and [_calculate_lineno] puts
    offset 2 on line 1. *)
Lemma calculate_lineno_line_start :
  _calculate_index two_lines 2 0 = 2
  /\ Parser._calculate_lineno two_lines_parser
       (_calculate_index two_lines 2 0) = 1.
Proof. split; reflexivity. Qed.

(** C9, amended: for a position on line [line] whose column is inside the
    line, and which is not the first column of a line after the first,
    [_calculate_lineno (_calculate_index source line column) = line]. *)
Theorem calculate_lineno_of_index (self : Parser.t) (line column : Z)
    (content : text) :
  1 <= line ->
  splitlines true (Parser._source self) !! Z.to_nat (line - 1) = Some content ->
  0 <= column < len content ->
  1 <= column \/ line = 1 ->
  Parser._calculate_lineno self
    (_calculate_index (Parser._source self) line column) = line.
Proof.
  intros Hline Hcontent Hcolumn Hfirst.
  unfold Parser._calculate_lineno, _calculate_index, slice_to.
  destruct (Z.ltb_spec (line - 1) 0) as [?|_]; [lia|].
  pose proof (lineno_loop_inside (Z.to_nat (line - 1))
                (splitlines true (Parser._source self)) 0 0 0 column
                content Hcontent Hcolumn) as Hloop.
  rewrite Z.add_0_l in Hloop.
  destruct (splitlines true (Parser._source self)) as [|l rest];
    [discriminate|].
  rewrite Hloop; lia.
Qed.

Lemma calculate_lineno_of_index_witness :
  1 <= 4
  /\ splitlines true (Parser._source simple_parser) !! Z.to_nat (4 - 1)
     = Some (u "    invar = 1
")
  /\ Parser._calculate_lineno simple_parser
       (_calculate_index (Parser._source simple_parser) 4 4) = 4.
Proof.
  split; [lia|]. split; [vm_compute; reflexivity|].
  apply (calculate_lineno_of_index simple_parser 4 4 (u "    invar = 1
")).
  - lia.
  - vm_compute; reflexivity.
  - change (0 <= 4 < 14). lia.
  - left. lia.
Defined.

(** ** The stored tree and text *)

(** C1 fails on the code: [_NameParser._visit_def] assigns to [col_offset]
    of the definitions of the stored tree.  On the source of the unit tests,
    [variable_indices(26)] (the name in [def func():]) answers [(26, 4)] the
    first time and [(30, 4)] the second, and the stored tree has changed in
    between. *)
Theorem variable_indices_changes_tree :
  exists p1 p2 : Parser.t,
    Parser.variable_indices simple_parser 26 = Ok ([(26, 4)], p1)
    /\ Parser.variable_indices p1 26 = Ok ([(30, 4)], p2)
    /\ Parser._tree p1 <> Parser._tree simple_parser
    /\ Parser._source p1 = Parser._source simple_parser.
Proof.
  destruct (Parser.variable_indices simple_parser 26) as [[l1 p1]|e] eqn:H1;
    vm_compute in H1; [|discriminate].
  injection H1 as <- <-.
  eexists. eexists. split; [reflexivity|].
  split; [vm_compute; reflexivity|].
  split; [discriminate|reflexivity].
Qed.

(** C2 fails on the code: the loop of [documentation] over the classes
    appends to [functions[name]], so a module that holds a class and no
    function of that name makes [documentation()] raise [KeyError]. *)
Theorem documentation_of_class_raises (cleandoc : string -> string) :
  Parser.documentation cleandoc (Parser.mk class_tree class_source)
  = Raise KeyError.
Proof. vm_compute. reflexivity. Qed.

(** [navigation()] is not total either: when no line from the line of the
    definition on starts with the keyword and a space, the title is looked
    up past the last line. *)
Lemma navigation_without_title_raises (cleandoc : string -> string) :
  Parser.navigation cleandoc tab_parser = Raise IndexError.
Proof. vm_compute. reflexivity. Qed.

Example navigation_of_simple_source (cleandoc : string -> string) :
  Parser.navigation cleandoc simple_parser
  = Ok {[ (3, 4) := (u "func()", "function") ]}.
Proof. vm_compute. reflexivity. Qed.

(** A failed parse leaves the parser as it was. *)
Lemma source_setter_parse_failure (ast_parse : bytes -> result node)
    (unicode_utf8 : bytes -> result text) (self : Parser.t)
    (new_source : bytes) (e : exn) :
  ast_parse new_source = Raise e ->
  Parser.source_setter ast_parse unicode_utf8 self new_source = (Raise e, self).
Proof. intros H. unfold Parser.source_setter. rewrite H. reflexivity. Qed.

(** When both the parse and the decoding succeed, tree and text are replaced
    together. *)
Lemma source_setter_success (ast_parse : bytes -> result node)
    (unicode_utf8 : bytes -> result text) (self : Parser.t)
    (new_source : bytes) (tree : node) (source : text) :
  ast_parse new_source = Ok tree ->
  unicode_utf8 new_source = Ok source ->
  Parser.source_setter ast_parse unicode_utf8 self new_source
  = (Ok tt, Parser.mk tree source).
Proof.
  intros H1 H2. unfold Parser.source_setter. rewrite H1, H2. reflexivity.
Qed.

(** C3 fails on the code: the setter stores the new tree before it decodes
    the text, so a source that parses and that the codec rejects makes the
    assignment raise with the new tree stored next to the old text. *)
Theorem source_setter_decode_failure (ast_parse : bytes -> result node)
    (unicode_utf8 : bytes -> result text) (self : Parser.t)
    (new_source : bytes) (tree : node) (e : exn) :
  ast_parse new_source = Ok tree ->
  unicode_utf8 new_source = Raise e ->
  Parser.source_setter ast_parse unicode_utf8 self new_source
  = (Raise e, Parser.mk tree (Parser._source self)).
Proof.
  intros H1 H2. unfold Parser.source_setter. rewrite H1, H2. reflexivity.
Qed.

Lemma source_setter_decode_failure_witness :
  parse_only latin1_source latin1_tree latin1_source = Ok latin1_tree
  /\ utf8_decode latin1_source = Raise UnicodeDecodeError
  /\ Parser.source_setter (parse_only latin1_source latin1_tree) utf8_decode
       simple_parser latin1_source
     = (Raise UnicodeDecodeError, Parser.mk latin1_tree simple_source).
Proof.
  split; [reflexivity|]. split; [reflexivity|].
  apply (source_setter_decode_failure (parse_only latin1_source latin1_tree)
           utf8_decode simple_parser latin1_source latin1_tree
           UnicodeDecodeError); reflexivity.
Defined.

(** ** Reasoning about nodes and loops *)

Lemma node_induction (P : node -> Prop) :
  (forall c fs a, children_all P fs -> P (Node c fs a)) ->
  forall n, P n.
Proof.
  intros step. fix IH 1. intros [c fs a]. apply step.
  induction fs as [|[k f] fs IHfs]; constructor; [|exact IHfs].
  destruct f as [n|ns|x]; simpl.
  - constructor; [apply IH|constructor].
  - induction ns as [|n ns IHns]; constructor; [apply IH|exact IHns].
  - constructor.
Qed.

Ltac bind_inv H :=
  repeat (unfold mbind, result_bind in H;
          match type of H with
          | match ?m with Ok _ => _ | Raise _ => _ end = Ok _ =>
              let E := fresh "E" in
              destruct m eqn:E; [|discriminate H]
          end).

Section Loops.

Context {S : Type} (R : S -> S -> Prop).
Hypothesis R_refl : forall s, R s s.
Hypothesis R_trans : forall s1 s2 s3, R s1 s2 -> R s2 s3 -> R s1 s3.

Lemma for_each_rel {A : Type} (Q : A -> Prop) (l : list A)
    (body : A -> S -> result S) :
  Forall Q l ->
  (forall x s s', Q x -> body x s = Ok s' -> R s s') ->
  forall s s', for_each l body s = Ok s' -> R s s'.
Proof.
  intros HQ Hbody. induction HQ as [|x l Hx _ IH]; intros s s' H.
  - injection H as <-. apply R_refl.
  - simpl in H. destruct (body x s) as [s1|e] eqn:E; [|discriminate].
    eapply R_trans; [eapply Hbody; eauto|]. apply IH. exact H.
Qed.

Lemma for_each_child_rel (Q : node -> Prop) (fs : list (string * field node))
    (body : node -> S -> result S) :
  children_all Q fs ->
  (forall n s s', Q n -> body n s = Ok s' -> R s s') ->
  forall s s', for_each_child fs body s = Ok s' -> R s s'.
Proof.
  intros HQ Hbody. induction HQ as [|[k f] fs Hf _ IH]; intros s s' H.
  - injection H as <-. apply R_refl.
  - simpl in H, Hf.
    destruct f as [n|ns|a]; simpl in Hf.
    + destruct (body n s) as [s1|e] eqn:E; [|discriminate].
      eapply R_trans; [|apply IH; exact H].
      eapply Hbody; eauto. inversion Hf; assumption.
    + destruct (for_each ns body s) as [s1|e] eqn:E; [|discriminate].
      eapply R_trans; [|apply IH; exact H].
      eapply for_each_rel; eauto.
    + apply IH. exact H.
Qed.

Lemma for_each_in_rel (Q : node -> Prop) (name : string)
    (fs : list (string * field node)) (body : node -> S -> result S) :
  children_all Q fs ->
  (forall n s s', Q n -> body n s = Ok s' -> R s s') ->
  forall s s', for_each_in name fs body s = Ok s' -> R s s'.
Proof.
  intros HQ Hbody. induction HQ as [|[k f] fs Hf _ IH]; intros s s' H.
  - discriminate.
  - simpl in H, Hf. destruct (String.eqb k name).
    + destruct f as [n|ns|a]; try discriminate.
      eapply for_each_rel; eauto.
    + apply IH. exact H.
Qed.

End Loops.

(** [for child in node.name] is the loop over the list [node.name]. *)
Lemma for_each_in_getattr {S : Type} (n : node) (name : string)
    (ns : list node) (body : node -> S -> result S) (s : S) :
  getattr_list n name = Ok ns ->
  for_each_in name (fields n) body s = for_each ns body s.
Proof.
  unfold getattr_list. destruct n as [c fs a]. simpl.
  induction fs as [|[k f] fs IH]; simpl; [discriminate|].
  destruct (String.eqb k name).
  - destruct f; intros H; try discriminate. injection H as ->. reflexivity.
  - exact IH.
Qed.

(** A property of the state that every iteration keeps holds at the end. *)
Lemma for_each_invariant {A S : Type} (Inv : S -> Prop) (l : list A)
    (body : A -> S -> result S) :
  (forall x s s', x ∈ l -> body x s = Ok s' -> Inv s -> Inv s') ->
  forall s s', for_each l body s = Ok s' -> Inv s -> Inv s'.
Proof.
  induction l as [|x l IH]; intros Hbody s s' H Hs.
  - injection H as <-. exact Hs.
  - simpl in H. destruct (body x s) as [s1|] eqn:E; [|discriminate].
    apply (IH (fun y s0 s2 Hy => Hbody y s0 s2 (list_elem_of_further _ _ _ Hy))
              s1 s' H).
    exact (Hbody x s s1 (list_elem_of_here _ _) E Hs).
Qed.

Lemma for_each_cons {A S : Type} (x : A) (l : list A)
    (body : A -> S -> result S) (s : S) :
  for_each (x :: l) body s
  = match body x s with
    | Ok s1 => for_each l body s1
    | Raise e => Raise e
    end.
Proof. reflexivity. Qed.

Lemma for_each_app {A S : Type} (l1 l2 : list A) (body : A -> S -> result S)
    (s : S) :
  for_each (l1 ++ l2) body s
  = match for_each l1 body s with
    | Ok s1 => for_each l2 body s1
    | Raise e => Raise e
    end.
Proof.
  revert s. induction l1 as [|x l1 IH]; intros s; simpl; [reflexivity|].
  destruct (body x s); [apply IH|reflexivity].
Qed.

(** ** The collector only adds bindings *)

Lemma extends_refl (self : _AssignParser.t) : extends self self.
Proof. split; auto. Qed.

Lemma extends_trans (s1 s2 s3 : _AssignParser.t) :
  extends s1 s2 -> extends s2 s3 -> extends s1 s3.
Proof. intros [H1 H2] [H3 H4]. split; [congruence|auto]. Qed.

Lemma add_node_bindings (self self' : _AssignParser.t) (n : node)
    (name : string) :
  _AssignParser._add_node self n name = Ok self' ->
  exists l c, attributes n = Some (l, c)
    /\ _AssignParser.lineno self' = _AssignParser.lineno self
    /\ forall name', bindings self' name'
         = if decide (name = name') then bindings self name ++ [(l, c)]
           else bindings self name'.
Proof.
  unfold _AssignParser._add_node, lineno, col_offset.
  destruct (attributes n) as [[l c]|]; [|discriminate].
  simpl. intros H. injection H as <-. exists l, c.
  split; [reflexivity|]. split; [reflexivity|].
  intros name'. unfold bindings. simpl.
  rewrite lookup_insert. destruct (decide (name = name')); reflexivity.
Qed.

Lemma add_node_extends (self self' : _AssignParser.t) (n : node)
    (name : string) :
  _AssignParser._add_node self n name = Ok self' -> extends self self'.
Proof.
  intros H. destruct (add_node_bindings _ _ _ _ H) as (l & c & _ & Hl & Hb).
  split; [exact Hl|]. intros name' x Hx. rewrite Hb.
  destruct (decide (name = name')) as [->|]; [|exact Hx].
  apply elem_of_app. left. exact Hx.
Qed.

Lemma add_node_bound (self self' : _AssignParser.t) (n : node)
    (name : string) (l c : Z) :
  _AssignParser._add_node self n name = Ok self' ->
  attributes n = Some (l, c) ->
  (l, c) ∈ bindings self' name.
Proof.
  intros H Ha. destruct (add_node_bindings _ _ _ _ H) as (l' & c' & Ha' & _ & Hb).
  rewrite Hb. rewrite decide_True by reflexivity.
  rewrite Ha in Ha'. injection Ha' as <- <-.
  apply elem_of_app. right. apply list_elem_of_singleton. reflexivity.
Qed.

Lemma for_each_extends {A : Type} (l : list A)
    (body : A -> _AssignParser.t -> result _AssignParser.t) :
  (forall x s s', body x s = Ok s' -> extends s s') ->
  forall s s', for_each l body s = Ok s' -> extends s s'.
Proof.
  intros Hbody.
  apply (for_each_rel extends extends_refl extends_trans (fun _ => True)).
  - apply Forall_forall. auto.
  - intros x s s' _. apply Hbody.
Qed.

Lemma add_ids_extends (elts : list node) (s s' : _AssignParser.t) :
  for_each elts
    (fun elt self =>
       id ← getattr_str elt "id"; _AssignParser._add_node self elt id) s
  = Ok s' ->
  extends s s'.
Proof.
  apply for_each_extends. intros x s0 s1 H. bind_inv H.
  eapply add_node_extends; eauto.
Qed.

Lemma visit_assign_target_extends (n : node) (s s' : _AssignParser.t) :
  _AssignParser._visit_assign_target n s = Ok s' -> extends s s'.
Proof.
  unfold _AssignParser._visit_assign_target. intros H.
  destruct (getattr_str n "id").
  - eapply add_node_extends; eauto.
  - destruct (isinstance n ["Tuple"]).
    + bind_inv H. eapply add_ids_extends; eauto.
    + injection H as <-. apply extends_refl.
Qed.

Lemma visit_comprehension_extends (n : node) (s s' : _AssignParser.t) :
  _AssignParser._visit_comprehension n s = Ok s' -> extends s s'.
Proof.
  unfold _AssignParser._visit_comprehension. intros H. bind_inv H.
  revert H. apply for_each_extends. intros x s0 s1 H. bind_inv H.
  destruct (getattr_str a0 "id").
  - eapply add_node_extends; eauto.
  - bind_inv H. eapply add_ids_extends; eauto.
Qed.

Lemma visit_import_extends (n : node) (s s' : _AssignParser.t) :
  _AssignParser._visit_import n s = Ok s' -> extends s s'.
Proof.
  unfold _AssignParser._visit_import. intros H. bind_inv H.
  revert H. apply for_each_extends. intros x s0 s1 H.
  destruct (assoc "asname" (fields x)) as [[?|?|[asname| | |]]|];
    try discriminate;
    try (bind_inv H; eapply add_node_extends; eauto; fail).
  destruct (String.eqb asname "");
    [bind_inv H|]; eapply add_node_extends; eauto.
Qed.

Lemma visit_unfold (n : node) (self : _AssignParser.t) :
  _AssignParser.visit n self
  = if _AssignParser.guard n self
    then _AssignParser.dispatch _AssignParser.visit n self
    else Ok self.
Proof. destruct n; reflexivity. Qed.

Section Handlers.

Variable self_visit : node -> _AssignParser.t -> result _AssignParser.t.
Variable n : node.

Let sound (m : node) : Prop :=
  forall s s', self_visit m s = Ok s' -> extends s s'.

Hypothesis children_sound : children_all sound (fields n).

Lemma generic_visit_extends (s s' : _AssignParser.t) :
  _AssignParser.generic_visit self_visit n s = Ok s' -> extends s s'.
Proof.
  apply (for_each_child_rel extends extends_refl extends_trans sound);
    [exact children_sound|auto].
Qed.

Lemma visit_Module_extends (s s' : _AssignParser.t) :
  _AssignParser.visit_Module self_visit n s = Ok s' -> extends s s'.
Proof.
  apply (for_each_in_rel extends extends_refl extends_trans sound);
    [exact children_sound|].
  intros m s0 s1 Hm H.
  destruct (isinstance m ["FunctionDef"; "ClassDef"]); [|auto].
  bind_inv H. eapply add_node_extends; eauto.
Qed.

Lemma visit_def_extends (s s' : _AssignParser.t) :
  _AssignParser._visit_def self_visit n s = Ok s' -> extends s s'.
Proof.
  unfold _AssignParser._visit_def. intros H. bind_inv H.
  eapply extends_trans; [|eapply add_node_extends; eauto].
  revert E.
  apply (for_each_in_rel extends extends_refl extends_trans sound);
    [exact children_sound|].
  intros m s0 s1 Hm H0.
  destruct (isinstance m ["FunctionDef"; "ClassDef"]); [|auto].
  bind_inv H0. destruct (le_bound a1 (_AssignParser.lineno s0)); [|auto].
  bind_inv H0. eapply add_node_extends; eauto.
Qed.

Lemma visit_FunctionDef_extends (s s' : _AssignParser.t) :
  _AssignParser.visit_FunctionDef self_visit n s = Ok s' -> extends s s'.
Proof.
  unfold _AssignParser.visit_FunctionDef. intros H. bind_inv H.
  eapply extends_trans; [eapply visit_def_extends; eauto|].
  destruct (lt_bound a0 (_AssignParser.lineno a)).
  - bind_inv H. eapply add_ids_extends; eauto.
  - injection H as <-. apply extends_refl.
Qed.

Lemma visit_Assign_extends (s s' : _AssignParser.t) :
  _AssignParser.visit_Assign self_visit n s = Ok s' -> extends s s'.
Proof.
  unfold _AssignParser.visit_Assign. intros H. bind_inv H.
  eapply extends_trans; [|eapply generic_visit_extends; eauto].
  revert E0. apply for_each_extends.
  intros x s0 s1. apply visit_assign_target_extends.
Qed.

Lemma visit_For_extends (s s' : _AssignParser.t) :
  _AssignParser.visit_For self_visit n s = Ok s' -> extends s s'.
Proof.
  unfold _AssignParser.visit_For. intros H. bind_inv H.
  eapply extends_trans; [|eapply generic_visit_extends; eauto].
  eapply visit_assign_target_extends; eauto.
Qed.

Lemma dispatch_extends (s s' : _AssignParser.t) :
  _AssignParser.dispatch self_visit n s = Ok s' -> extends s s'.
Proof.
  unfold _AssignParser.dispatch.
  repeat match goal with
         | |- context [if ?b then _ else _] => destruct b
         end;
    eauto using visit_Module_extends, visit_Assign_extends, visit_For_extends,
      visit_comprehension_extends, visit_FunctionDef_extends,
      visit_def_extends, visit_import_extends, generic_visit_extends.
Qed.

End Handlers.

(** Visiting a node leaves the cutoff alone and keeps every binding. *)
Lemma visit_extends (n : node) :
  forall s s', _AssignParser.visit n s = Ok s' -> extends s s'.
Proof.
  induction n as [c fs a IH] using node_induction. intros s s'.
  rewrite visit_unfold.
  destruct (_AssignParser.guard (Node c fs a) s).
  - apply dispatch_extends. exact IH.
  - intros H. injection H as <-. apply extends_refl.
Qed.

(** ** Definitions met in the body of a scope *)

(** C5, as stated, fails for a class: collecting [class C] with the cutoff on
    its header line does not bind the method [m] of line 2. *)
Lemma class_definition_beyond_cutoff :
  exists parser,
    _AssignParser.visit method_class (_AssignParser.__init__ (Fin 1))
    = Ok parser
    /\ _AssignParser.variables parser !! "m" = None
    /\ _AssignParser.variables parser !! "C" = Some [(1, 0)].
Proof. eexists. split; [vm_compute; reflexivity|]. split; reflexivity. Qed.

Lemma isinstance_cls (n : node) (c : string) :
  cls n = c -> forall classes, isinstance n classes = existsb (String.eqb c) classes.
Proof. intros <- classes. reflexivity. Qed.

(** The step of [visit_Module] and of [_visit_def] extends the collector. *)
Lemma module_step_extends (m : node) (s0 s1 : _AssignParser.t) :
  (if isinstance m ["FunctionDef"; "ClassDef"]
   then name ← getattr_str m "name"; _AssignParser._add_node s0 m name
   else _AssignParser.visit m s0) = Ok s1 ->
  extends s0 s1.
Proof.
  destruct (isinstance m ["FunctionDef"; "ClassDef"]).
  - intros H. bind_inv H. eapply add_node_extends; eauto.
  - apply visit_extends.
Qed.

Lemma def_step_extends (m : node) (s0 s1 : _AssignParser.t) :
  (if isinstance m ["FunctionDef"; "ClassDef"]
   then l ← lineno m;
        if le_bound l (_AssignParser.lineno s0)
        then name ← getattr_str m "name"; _AssignParser._add_node s0 m name
        else _AssignParser.visit m s0
   else _AssignParser.visit m s0) = Ok s1 ->
  extends s0 s1.
Proof.
  destruct (isinstance m ["FunctionDef"; "ClassDef"]).
  - intros H. bind_inv H. destruct (le_bound a (_AssignParser.lineno s0)).
    + bind_inv H. eapply add_node_extends; eauto.
    + eapply visit_extends; eauto.
  - apply visit_extends.
Qed.

(** The loops of [visit_Module] and of [_visit_def] run these steps. *)
Lemma visit_Module_steps (scope : node) (body : list node)
    (self : _AssignParser.t) :
  getattr_list scope "body" = Ok body ->
  _AssignParser.visit_Module _AssignParser.visit scope self
  = for_each body module_step self.
Proof.
  intros Hbody. unfold _AssignParser.visit_Module.
  rewrite (for_each_in_getattr _ _ _ _ _ Hbody). reflexivity.
Qed.

Lemma visit_def_steps (scope : node) (body : list node)
    (self : _AssignParser.t) :
  getattr_list scope "body" = Ok body ->
  _AssignParser._visit_def _AssignParser.visit scope self
  = (self ← for_each body def_step self;
     name ← getattr_str scope "name";
     _AssignParser._add_node self scope name).
Proof.
  intros Hbody. unfold _AssignParser._visit_def.
  rewrite (for_each_in_getattr _ _ _ _ _ Hbody). reflexivity.
Qed.

(** C5, amended: in the loop that collects a module, the step for a function
    or class defined at the top level of the module adds exactly one binding,
    that of the name of the definition at the position of the definition,
    whatever the cutoff, and the binding is there at the end.  In the loop
    that collects a class, the step for a definition at the top level of the
    class does the same when the line of the definition is at most the
    cutoff, and changes nothing when it is not. *)
Theorem definition_names_bound (scope d : node) (b1 b2 : list node)
    (name : string) (l c : Z) (self self' : _AssignParser.t) :
  getattr_list scope "body" = Ok (b1 ++ d :: b2) ->
  isinstance d ["FunctionDef"; "ClassDef"] = true ->
  getattr_str d "name" = Ok name ->
  attributes d = Some (l, c) ->
  _AssignParser.guard scope self = true ->
  _AssignParser.visit scope self = Ok self' ->
  (cls scope = "Module" ->
   exists before after,
     for_each b1 module_step self = Ok before
     /\ module_step d before = Ok after
     /\ binds_once before after name (l, c)
     /\ for_each b2 module_step after = Ok self'
     /\ (l, c) ∈ bindings self' name)
  /\ (cls scope = "ClassDef" ->
      exists before after rest own,
        for_each b1 def_step self = Ok before
        /\ def_step d before = Ok after
        /\ (if le_bound l (_AssignParser.lineno self)
            then binds_once before after name (l, c)
                 /\ (l, c) ∈ bindings self' name
            else after = before)
        /\ for_each b2 def_step after = Ok rest
        /\ getattr_str scope "name" = Ok own
        /\ _AssignParser._add_node rest scope own = Ok self').
Proof.
  intros Hbody Hdef Hname Hattr Hguard Hvisit.
  rewrite visit_unfold, Hguard in Hvisit.
  unfold _AssignParser.dispatch in Hvisit.
  assert (Hstep : forall s1 s2,
             _AssignParser._add_node s1 d name = Ok s2 ->
             binds_once s1 s2 name (l, c)).
  { intros s1 s2 H.
    destruct (add_node_bindings _ _ _ _ H) as (l' & c' & Ha & _ & Hb).
    rewrite Hattr in Ha. injection Ha as <- <-. exact Hb. }
  split; intros Hcls;
    rewrite !(isinstance_cls scope _ Hcls) in Hvisit;
    cbn [existsb String.eqb Ascii.eqb Bool.eqb orb] in Hvisit.
  - rewrite (visit_Module_steps _ _ _ Hbody), for_each_app in Hvisit.
    destruct (for_each b1 module_step self) as [s1|] eqn:E1; [|discriminate].
    rewrite for_each_cons in Hvisit.
    destruct (module_step d s1) as [s2|] eqn:E2; [|discriminate].
    exists s1, s2. split; [reflexivity|]. split; [exact E2|].
    unfold module_step in E2. rewrite Hdef, Hname in E2.
    cbn [mbind result_bind] in E2.
    split; [exact (Hstep _ _ E2)|]. split; [exact Hvisit|].
    assert (Hrest : extends s2 self').
    { revert Hvisit. apply for_each_extends.
      intros; eapply module_step_extends; eauto. }
    destruct Hrest as [_ Hrest]. apply Hrest.
    eapply add_node_bound; eauto.
  - rewrite (visit_def_steps _ _ _ Hbody), for_each_app in Hvisit.
    destruct (for_each b1 def_step self) as [s1|] eqn:E1;
      [|discriminate].
    assert (H1 : extends self s1).
    { revert E1. apply for_each_extends.
      intros; eapply def_step_extends; eauto. }
    rewrite for_each_cons in Hvisit.
    destruct (def_step d s1) as [s2|] eqn:E2; [|discriminate].
    cbn [mbind result_bind] in Hvisit.
    destruct (for_each b2 def_step s2) as [s3|] eqn:E3; [|discriminate].
    destruct (getattr_str scope "name") as [own|] eqn:Eown; [|discriminate].
    cbn [mbind result_bind] in Hvisit.
    exists s1, s2, s3, own.
    split; [reflexivity|]. split; [exact E2|].
    split; [|split; [exact E3|split; [reflexivity|exact Hvisit]]].
    unfold def_step in E2. rewrite Hdef in E2.
    unfold lineno in E2. rewrite Hattr in E2. cbn [mbind result_bind] in E2.
    destruct H1 as [Hcut _]. rewrite Hcut in E2.
    destruct (le_bound l (_AssignParser.lineno self)) eqn:Hle.
    + rewrite Hname in E2. cbn [mbind result_bind] in E2.
      split; [exact (Hstep _ _ E2)|].
      assert (Hrest : extends s2 self').
      { eapply extends_trans; [|eapply add_node_extends; eauto].
        revert E3. apply for_each_extends.
        intros; eapply def_step_extends; eauto. }
      destruct Hrest as [_ Hrest]. apply Hrest.
      eapply add_node_bound; eauto.
    + rewrite visit_unfold in E2. unfold _AssignParser.guard in E2.
      rewrite Hattr, Hcut, Hle in E2. injection E2 as <-. reflexivity.
Qed.

Lemma definition_names_bound_witness :
  exists self',
    _AssignParser.visit class_tree (_AssignParser.__init__ (Fin 0)) = Ok self'
    /\ exists before after,
         for_each [] module_step (_AssignParser.__init__ (Fin 0)) = Ok before
         /\ module_step (py.ClassDef 1 0 "A" [] [py.Pass 2 4] []) before
            = Ok after
         /\ binds_once before after "A" (1, 0)
         /\ for_each [] module_step after = Ok self'
         /\ (1, 0) ∈ bindings self' "A".
Proof.
  eexists. split; [vm_compute; reflexivity|].
  refine (proj1 (definition_names_bound class_tree
                   (py.ClassDef 1 0 "A" [] [py.Pass 2 4] []) [] [] "A" 1 0
                   (_AssignParser.__init__ (Fin 0)) _ _ _ _ _ _ _) _).
  - reflexivity.
  - reflexivity.
  - reflexivity.
  - reflexivity.
  - reflexivity.
  - vm_compute. reflexivity.
  - reflexivity.
Defined.

(** ** Parameters *)

(** The parameter [a] of a function defined under an [if] is bound while
    the module is the scope being collected, and a [variables] query on the
    last line of that module, outside the function, reports it; with a
    statement in the body of the function, the query reports the local [y]
    of the function as well. *)
Lemma conditional_definition_parameters :
  (exists parser,
     _AssignParser.visit conditional_def_tree (_AssignParser.__init__ (Fin 4))
     = Ok parser
     /\ _AssignParser.variables parser !! "a" = Some [(2, 10)])
  /\ (exists m, Parser.variables [] conditional_def_parser 34 = Ok m
               /\ m !! "a" = Some 16)
  /\ (exists m, Parser.variables [] conditional_local_parser 35 = Ok m
               /\ m !! "a" = Some 16 /\ m !! "y" = Some 28).
Proof.
  split; [|split]; eexists; (split; [vm_compute; reflexivity|]);
    try split; reflexivity.
Qed.

(** A starred parameter is a string of [arguments], not a node of
    [args.args]: a query in the body of the function does not get it. *)
Lemma variadic_parameter_unbound :
  Parser._calculate_lineno variadic_parser 20 = 2
  /\ exists m, Parser.variables [] variadic_parser 20 = Ok m
               /\ m !! "rest" = None
               /\ m !! "f" = Some 0.
Proof.
  split; [reflexivity|]. eexists.
  split; [vm_compute; reflexivity|]. split; reflexivity.
Qed.

Lemma lt_le_bound (z : Z) (b : bound) :
  lt_bound z b = true -> le_bound z b = true.
Proof.
  destruct b; simpl; [|reflexivity]. intros H.
  apply Z.leb_le. apply Z.ltb_lt in H. lia.
Qed.

(** The parameter loop of [visit_FunctionDef] binds each parameter. *)
Lemma add_ids_bound (a1 a2 : list node) (arg : node) (id : string)
    (la ca : Z) (s s' : _AssignParser.t) :
  getattr_str arg "id" = Ok id ->
  attributes arg = Some (la, ca) ->
  for_each (a1 ++ arg :: a2)
    (fun arg self =>
       id ← getattr_str arg "id"; _AssignParser._add_node self arg id) s
  = Ok s' ->
  (la, ca) ∈ bindings s' id.
Proof.
  intros Hid Hattr H. rewrite for_each_app in H.
  destruct (for_each a1 _ s) as [s1|]; [|discriminate].
  rewrite for_each_cons, Hid in H. cbn [mbind result_bind] in H.
  destruct (_AssignParser._add_node s1 arg id) as [s2|] eqn:E; [|discriminate].
  apply add_ids_extends in H. destruct H as [_ H]. apply H.
  eapply add_node_bound; eauto.
Qed.

Lemma visit_FunctionDef_parameter (f arguments arg : node) (a1 a2 : list node)
    (id : string) (l c la ca : Z) (self self' : _AssignParser.t) :
  cls f = "FunctionDef" ->
  attributes f = Some (l, c) ->
  getattr_node f "args" = Ok arguments ->
  getattr_list arguments "args" = Ok (a1 ++ arg :: a2) ->
  getattr_str arg "id" = Ok id ->
  attributes arg = Some (la, ca) ->
  lt_bound l (_AssignParser.lineno self) = true ->
  _AssignParser.visit f self = Ok self' ->
  (la, ca) ∈ bindings self' id.
Proof.
  intros Hcls Hattr Hargs Hlist Hid Harg Hlt H.
  rewrite visit_unfold in H. unfold _AssignParser.guard in H.
  rewrite Hattr, (lt_le_bound _ _ Hlt) in H.
  unfold _AssignParser.dispatch in H.
  rewrite !(isinstance_cls f _ Hcls) in H.
  cbn [existsb String.eqb Ascii.eqb Bool.eqb orb] in H.
  unfold _AssignParser.visit_FunctionDef in H.
  destruct (_AssignParser._visit_def _AssignParser.visit f self)
    as [s1|] eqn:E; [|discriminate].
  assert (Hs1 : extends self s1).
  { revert E. apply visit_def_extends.
    apply Forall_forall. intros nf _. apply Forall_forall.
    intros m _. apply visit_extends. }
  unfold lineno in H. rewrite Hattr in H. cbn [mbind result_bind] in H.
  destruct Hs1 as [Hcut _]. rewrite Hcut, Hlt, Hargs in H.
  cbn [mbind result_bind] in H. rewrite Hlist in H.
  cbn [mbind result_bind] in H.
  eapply add_ids_bound; eauto.
Qed.

(** The parameters that are nodes of [args.args] are bound by the visit of
    the function node itself, when its header line is strictly less than the
    cutoff.  With the cutoff on the header line the visit is that of
    [_visit_def] alone; a [variables] query whose path goes through the
    function and whose scope line is after the header gets the parameter. *)
Lemma parameters_bound (f arguments arg : node) (a1 a2 : list node)
    (id : string) (l c la ca : Z) :
  cls f = "FunctionDef" ->
  attributes f = Some (l, c) ->
  getattr_node f "args" = Ok arguments ->
  getattr_list arguments "args" = Ok (a1 ++ arg :: a2) ->
  getattr_str arg "id" = Ok id ->
  attributes arg = Some (la, ca) ->
  (forall self self',
      lt_bound l (_AssignParser.lineno self) = true ->
      _AssignParser.visit f self = Ok self' ->
      (la, ca) ∈ bindings self' id)
  /\ (forall self,
        lt_bound l (_AssignParser.lineno self) = false ->
        _AssignParser.visit f self
        = if le_bound l (_AssignParser.lineno self)
          then _AssignParser._visit_def _AssignParser.visit f self
          else Ok self)
  /\ (forall (p : Parser.t) (index : Z) (parser : _AssignParser.t),
        f ∈ map snd (_get_path (Parser._tree p) (Parser.scope_line p index)) ->
        l < Parser.scope_line p index ->
        Parser.collect p index = Ok parser ->
        (la, ca) ∈ bindings parser id).
Proof.
  intros Hcls Hattr Hargs Hlist Hid Harg.
  split; [|split].
  - intros self self' Hlt H. eapply visit_FunctionDef_parameter; eauto.
  - intros self Hlt. rewrite visit_unfold. unfold _AssignParser.guard.
    rewrite Hattr. destruct (le_bound l (_AssignParser.lineno self));
      [|reflexivity].
    unfold _AssignParser.dispatch. rewrite !(isinstance_cls f _ Hcls).
    cbn [existsb String.eqb Ascii.eqb Bool.eqb orb].
    unfold _AssignParser.visit_FunctionDef.
    destruct (_AssignParser._visit_def _AssignParser.visit f self)
      as [s1|] eqn:E; [|reflexivity].
    assert (Hs1 : extends self s1).
    { revert E. apply visit_def_extends.
      apply Forall_forall. intros nf _. apply Forall_forall.
      intros m _. apply visit_extends. }
    unfold lineno. rewrite Hattr. cbn [mbind result_bind].
    destruct Hs1 as [-> _]. rewrite Hlt. reflexivity.
  - intros p index parser Hin Hline H. unfold Parser.collect in H.
    apply list_elem_of_fmap in Hin. destruct Hin as (r & -> & Hr).
    apply list_elem_of_split in Hr. destruct Hr as (p1 & p2 & Hp).
    rewrite Hp, for_each_app in H.
    match type of H with
    | match ?m with Ok _ => _ | Raise _ => _ end = _ =>
        destruct m as [s1|] eqn:E1; [|discriminate]
    end.
    rewrite for_each_cons in H.
    destruct (_AssignParser.visit (snd r) s1) as [s2|] eqn:E2; [|discriminate].
    assert (H1 : extends (_AssignParser.mk ∅ (Fin (Parser.scope_line p index)))
                         s1).
    { revert E1. apply for_each_extends. intros x s0 s3. apply visit_extends. }
    assert (H2 : extends s2 parser).
    { revert H. apply for_each_extends. intros x s0 s3. apply visit_extends. }
    destruct H2 as [_ H2]. apply H2.
    eapply visit_FunctionDef_parameter; eauto.
    destruct H1 as [-> _]. simpl. apply Z.ltb_lt. exact Hline.
Qed.

Lemma parameters_bound_witness :
  exists parser,
    Parser.collect param_parser 11 = Ok parser
    /\ (1, 6) ∈ bindings parser "a".
Proof.
  eexists. split; [vm_compute; reflexivity|].
  refine (proj2 (proj2 (parameters_bound param_function
            (py.arguments [py.Name 1 6 "a" "Param"] None None [])
            (py.Name 1 6 "a" "Param") [] [] "a" 1 0 1 6 _ _ _ _ _ _))
            param_parser 11 _ _ _ _).
  - reflexivity.
  - reflexivity.
  - reflexivity.
  - reflexivity.
  - reflexivity.
  - reflexivity.
  - vm_compute. apply list_elem_of_further. apply list_elem_of_here.
  - vm_compute. reflexivity.
  - vm_compute. reflexivity.
Defined.

(** [for child in ast.iter_child_nodes(node)] is the loop over the list of
    the children. *)
Lemma for_each_child_iter {S : Type} (fs : list (string * field node))
    (body : node -> S -> result S) :
  forall s,
    for_each_child fs body s
    = for_each (flat_map (fun nf => field_nodes (snd nf)) fs) body s.
Proof.
  induction fs as [|[k f] fs IH]; intros s; [reflexivity|].
  cbn [flat_map snd]. rewrite for_each_app. simpl.
  destruct f as [m|ns|x]; cbn [field_nodes].
  - rewrite for_each_cons. destruct (body m s) as [s1|]; [|reflexivity].
    simpl. apply IH.
  - destruct (for_each ns body s) as [s1|]; [|reflexivity]. apply IH.
  - simpl. apply IH.
Qed.

(** C6, the defect: a function defined under an [if], a [while], a [try] or
    a [with] statement of a module does not keep its parameters to itself.
    While the module is the scope being collected, the visit of the
    statement reaches the function node, and every parameter of a function
    whose header line is before the cutoff is bound in the collection of the
    module. *)
Theorem conditional_definition_leaks (module statement f arguments arg : node)
    (b1 b2 a1 a2 : list node) (id : string) (ls cs l c la ca : Z)
    (self self' : _AssignParser.t) :
  cls module = "Module" ->
  attributes module = None ->
  getattr_list module "body" = Ok (b1 ++ statement :: b2) ->
  cls statement ∈ ["If"; "While"; "TryExcept"; "TryFinally"; "With"] ->
  attributes statement = Some (ls, cs) ->
  le_bound ls (_AssignParser.lineno self) = true ->
  f ∈ iter_child_nodes statement ->
  cls f = "FunctionDef" ->
  attributes f = Some (l, c) ->
  getattr_node f "args" = Ok arguments ->
  getattr_list arguments "args" = Ok (a1 ++ arg :: a2) ->
  getattr_str arg "id" = Ok id ->
  attributes arg = Some (la, ca) ->
  lt_bound l (_AssignParser.lineno self) = true ->
  _AssignParser.visit module self = Ok self' ->
  (la, ca) ∈ bindings self' id.
Proof.
  intros Hmodule Hnone Hbody Hstatement Hsattr Hsle Hf Hcls Hattr Hargs Hlist
    Hid Harg Hlt Hvisit.
  rewrite visit_unfold in Hvisit. unfold _AssignParser.guard in Hvisit.
  rewrite Hnone in Hvisit. unfold _AssignParser.dispatch in Hvisit.
  rewrite !(isinstance_cls module _ Hmodule) in Hvisit.
  cbn [existsb String.eqb Ascii.eqb Bool.eqb orb] in Hvisit.
  rewrite (visit_Module_steps _ _ _ Hbody), for_each_app in Hvisit.
  destruct (for_each b1 module_step self) as [s1|] eqn:E1; [|discriminate].
  rewrite for_each_cons in Hvisit.
  destruct (module_step statement s1) as [s2|] eqn:E2; [|discriminate].
  assert (H1 : extends self s1).
  { revert E1. apply for_each_extends.
    intros; eapply module_step_extends; eauto. }
  assert (H2 : extends s2 self').
  { revert Hvisit. apply for_each_extends.
    intros; eapply module_step_extends; eauto. }
  destruct H2 as [_ H2]. apply H2. clear H2 Hvisit.
  destruct H1 as [Hcut _].
  assert (Hgeneric : _AssignParser.generic_visit _AssignParser.visit
                       statement s1 = Ok s2).
  { unfold module_step in E2. rewrite visit_unfold in E2.
    unfold _AssignParser.guard in E2. rewrite Hsattr, Hcut, Hsle in E2.
    unfold _AssignParser.dispatch in E2.
    repeat (apply elem_of_cons in Hstatement;
            destruct Hstatement as [Hc|Hstatement];
            [rewrite !(isinstance_cls statement _ Hc) in E2; exact E2|]).
    apply elem_of_nil in Hstatement. contradiction. }
  unfold _AssignParser.generic_visit in Hgeneric.
  rewrite for_each_child_iter in Hgeneric.
  fold (iter_child_nodes statement) in Hgeneric.
  apply list_elem_of_split in Hf. destruct Hf as (c1 & c2 & Hchildren).
  rewrite Hchildren, for_each_app in Hgeneric.
  destruct (for_each c1 _AssignParser.visit s1) as [s3|] eqn:E3;
    [|discriminate].
  rewrite for_each_cons in Hgeneric.
  destruct (_AssignParser.visit f s3) as [s4|] eqn:E4; [|discriminate].
  assert (H3 : extends s1 s3).
  { revert E3. apply for_each_extends. intros x s0 s5. apply visit_extends. }
  assert (H4 : extends s4 s2).
  { revert Hgeneric. apply for_each_extends.
    intros x s0 s5. apply visit_extends. }
  destruct H4 as [_ H4]. apply H4.
  apply (visit_FunctionDef_parameter f arguments arg a1 a2 id l c la ca s3 s4
           Hcls Hattr Hargs Hlist Hid Harg); [|exact E4].
  destruct H3 as [Hcut3 _]. rewrite Hcut3, Hcut. exact Hlt.
Qed.

Lemma conditional_definition_leaks_witness :
  exists self',
    _AssignParser.visit conditional_def_tree (_AssignParser.__init__ (Fin 4))
    = Ok self'
    /\ (2, 10) ∈ bindings self' "a".
Proof.
  destruct (_AssignParser.visit conditional_def_tree
              (_AssignParser.__init__ (Fin 4))) as [self'|] eqn:H;
    [|vm_compute in H; discriminate].
  exists self'. split; [reflexivity|].
  refine (conditional_definition_leaks conditional_def_tree
            (py.If 1 0 (py.Name 1 3 "c" "Load")
               [ py.FunctionDef 2 4 "f"
                   (py.arguments [py.Name 2 10 "a" "Param"] None None [])
                   [py.Pass 3 8] [] ]
               [])
            (py.FunctionDef 2 4 "f"
               (py.arguments [py.Name 2 10 "a" "Param"] None None [])
               [py.Pass 3 8] [])
            (py.arguments [py.Name 2 10 "a" "Param"] None None [])
            (py.Name 2 10 "a" "Param")
            [] [py.Assign 4 0 [py.Name 4 0 "x" "Store"] (py.Num 4 4 1)]
            [] [] "a" 1 0 2 4 2 10 (_AssignParser.__init__ (Fin 4)) self'
            _ _ _ _ _ _ _ _ _ _ _ _ _ _ H); try reflexivity.
  - apply list_elem_of_here.
  - vm_compute. apply list_elem_of_further, list_elem_of_here.
Defined.

(** ** The vocabulary in the result of [variables] *)

(** The loop that adds the vocabulary keeps what is there and gives the
    empty list to every other reserved name. *)
Lemma add_builtins_lookup (builtins : list string)
    (variables : gmap string (list Z)) (x : string) :
  fold_left
    (fun (variables : gmap string (list Z)) builtin =>
       match variables !! builtin with
       | Some _ => variables
       | None => <[builtin := []]> variables
       end)
    builtins variables !! x
  = match variables !! x with
    | Some indices => Some indices
    | None => if decide (x ∈ builtins) then Some [] else None
    end.
Proof.
  revert variables. induction builtins as [|b builtins IH]; intros variables.
  - simpl. destruct (variables !! x); reflexivity.
  - cbn [fold_left]. rewrite IH. clear IH.
    assert (Hcons : x ∈ b :: builtins <-> x = b \/ x ∈ builtins)
      by apply elem_of_cons.
    destruct (variables !! b) eqn:Eb.
    + destruct (variables !! x) eqn:Ex; [reflexivity|].
      assert (x <> b) by congruence.
      destruct (decide (x ∈ builtins)), (decide (x ∈ b :: builtins));
        try reflexivity; tauto.
    + rewrite lookup_insert. destruct (decide (b = x)) as [->|Hne].
      * rewrite Eb.
        destruct (decide (x ∈ x :: builtins)); [reflexivity|tauto].
      * destruct (variables !! x); [reflexivity|].
        destruct (decide (x ∈ builtins)), (decide (x ∈ b :: builtins));
          try reflexivity; intuition congruence.
Qed.

(** What [variables] answers for a name, from what the collector holds. *)
Lemma variables_lookup (builtins : list string) (self : Parser.t) (index : Z)
    (m : gmap string Z) :
  Parser.variables builtins self index = Ok m ->
  exists parser,
    Parser.collect self index = Ok parser
    /\ forall x,
         m !! x
         = match _AssignParser.variables parser !! x with
           | Some nodes =>
               Some (match remove_dups (map (Parser.index_of self) nodes) with
                     | [] => -1
                     | indices => max_list indices
                     end)
           | None => if decide (x ∈ builtins) then Some (-1) else None
           end.
Proof.
  unfold Parser.variables. intros H.
  destruct (Parser.collect self index) as [parser|]; [|discriminate].
  exists parser. split; [reflexivity|]. intros x.
  cbn [mbind result_bind] in H. injection H as <-.
  rewrite lookup_fmap, add_builtins_lookup, lookup_fmap.
  destruct (_AssignParser.variables parser !! x); simpl.
  - destruct (remove_dups _); reflexivity.
  - destruct (decide (x ∈ builtins)); reflexivity.
Qed.

(** C7: the result of [variables] holds every reserved or built-in name, with
    the position -1 when the collector has no binding of the name and with
    the largest offset of its bindings otherwise; for the empty source the
    result of [variables(0)] is the vocabulary, each name with -1, and
    nothing else. *)
Theorem variables_builtins (builtins : list string) :
  (forall (self : Parser.t) (index : Z) (m : gmap string Z),
      Parser.variables builtins self index = Ok m ->
      exists parser,
        Parser.collect self index = Ok parser
        /\ forall b, b ∈ builtins ->
             is_Some (m !! b)
             /\ (_AssignParser.variables parser !! b = None ->
                 m !! b = Some (-1))
             /\ (forall node nodes,
                   _AssignParser.variables parser !! b = Some (node :: nodes) ->
                   m !! b
                   = Some (max_list
                             (remove_dups
                                (map (Parser.index_of self) (node :: nodes))))))
  /\ (exists m,
        Parser.variables builtins empty_parser 0 = Ok m
        /\ forall x, m !! x = if decide (x ∈ builtins) then Some (-1) else None).
Proof.
  split.
  - intros self index m H.
    destruct (variables_lookup _ _ _ _ H) as (parser & Hc & Hm).
    exists parser. split; [exact Hc|]. intros b Hb. rewrite Hm.
    destruct (_AssignParser.variables parser !! b) as [bound|].
    + split; [eexists; reflexivity|]. split; [discriminate|].
      intros node nodes [= ->].
      destruct (remove_dups (map (Parser.index_of self) (node :: nodes)))
        eqn:Hd; [|reflexivity].
      apply (f_equal (@length Z)) in Hd.
      assert (Hin : Parser.index_of self node
                    ∈ remove_dups (map (Parser.index_of self) (node :: nodes)))
        by (apply elem_of_remove_dups, list_elem_of_here).
      destruct (remove_dups (map (Parser.index_of self) (node :: nodes)));
        [apply elem_of_nil in Hin; contradiction|discriminate].
    + rewrite decide_True by exact Hb.
      split; [eexists; reflexivity|]. split; [reflexivity|discriminate].
  - destruct (Parser.variables builtins empty_parser 0) as [m|e] eqn:H.
    + exists m. split; [reflexivity|].
      destruct (variables_lookup _ _ _ _ H) as (parser & Hc & Hm).
      vm_compute in Hc. injection Hc as <-. intros x. rewrite Hm.
      reflexivity.
    + unfold Parser.variables in H.
      replace (Parser.collect empty_parser 0)
        with (Ok (_AssignParser.mk ∅ (Fin 0))) in H by (vm_compute; reflexivity).
      discriminate.
Qed.

Lemma variables_builtins_witness :
  exists m,
    Parser.variables ["print"; "len"] simple_parser 40 = Ok m
    /\ m !! "len" = Some (-1).
Proof.
  eexists. split; [vm_compute; reflexivity|].
  destruct (proj1 (variables_builtins ["print"; "len"]) simple_parser 40 _
              ltac:(vm_compute; reflexivity)) as (parser & Hc & Hb).
  vm_compute in Hc. injection Hc as <-.
  refine (proj1 (proj2 (Hb "len" _)) _).
  - apply list_elem_of_further, list_elem_of_here.
  - reflexivity.
Defined.

(** ** The window of [variable_indices] *)





(** ** [ast.walk] reaches every node *)

Lemma preorder_unfold (n : node) :
  preorder n = n :: flat_map preorder (iter_child_nodes n).
Proof.
  destruct n as [c fs a]. unfold iter_child_nodes. cbn [fields].
  change (preorder (Node c fs a))
    with (Node c fs a
            :: flat_map (fun nf => match snd nf with
                                   | FNode m => preorder m
                                   | FList ns => flat_map preorder ns
                                   | FAtom _ => []
                                   end) fs).
  f_equal. induction fs as [|[k f] fs IH]; [reflexivity|].
  cbn [flat_map]. rewrite flat_map_app, IH. f_equal.
  destruct f as [m|ns|x]; cbn [snd field_nodes flat_map].
  - rewrite app_nil_r. reflexivity.
  - reflexivity.
  - reflexivity.
Qed.

Lemma walk_queue_perm (fuel : nat) :
  forall todo,
    (length (flat_map preorder todo) <= fuel)%nat ->
    walk_queue fuel todo ≡ₚ flat_map preorder todo.
Proof.
  induction fuel as [|fuel IH]; intros todo Hfuel.
  - destruct todo as [|n todo]; [reflexivity|].
    cbn [flat_map] in Hfuel. rewrite preorder_unfold in Hfuel.
    simpl in Hfuel. lia.
  - destruct todo as [|n todo]; [reflexivity|].
    cbn [walk_queue flat_map]. rewrite preorder_unfold.
    cbn [flat_map] in Hfuel. rewrite preorder_unfold in Hfuel.
    simpl in Hfuel. rewrite length_app in Hfuel.
    rewrite IH.
    + rewrite flat_map_app. simpl. constructor. apply Permutation_app_comm.
    + rewrite flat_map_app, length_app. lia.
Qed.

Lemma walk_perm (n : node) : walk n ≡ₚ preorder n.
Proof.
  unfold walk. rewrite walk_queue_perm.
  - simpl. rewrite app_nil_r. reflexivity.
  - simpl. rewrite app_nil_r. unfold count. lia.
Qed.

Lemma flat_map_walk_perm (body : list node) :
  flat_map walk body ≡ₚ flat_map preorder body.
Proof.
  induction body as [|n body IH]; [reflexivity|].
  simpl. rewrite walk_perm, IH. reflexivity.
Qed.

(** ** Folding ranges *)

(** C8, as stated, fails for a [while] loop: the module that holds one is
    given no pair. *)
Lemma while_loop_not_nestable :
  isinstance (py.While 1 0 (py.Name 1 6 "x" "Load") [py.Pass 2 4] [])
             ["While"] = true
  /\ Parser.nestable_lines while_parser = Ok [].
Proof. split; reflexivity. Qed.

Lemma last_line_fold (l : list node) :
  forall e,
    let r :=
      fold_left
        (fun end_ subsubnode =>
           match attributes subsubnode with
           | Some (lineno, _) => if lineno >? end_ then lineno else end_
           | None => end_
           end) l e in
    e <= r
    /\ (forall m l0 c, m ∈ l -> attributes m = Some (l0, c) -> l0 <= r)
    /\ (r = e \/ exists m c, m ∈ l /\ attributes m = Some (r, c)).
Proof.
  induction l as [|x l IH]; intros e; cbn [fold_left].
  - split; [lia|]. split; [|left; reflexivity].
    intros m l0 c Hm. apply elem_of_nil in Hm. contradiction.
  - set (e' := match attributes x with
               | Some (lineno, _) => if lineno >? e then lineno else e
               | None => e
               end).
    destruct (IH e') as (Hle & Hub & Hat).
    assert (He : e <= e'
                 /\ (forall l0 c, attributes x = Some (l0, c) -> l0 <= e')
                 /\ (e' = e \/ exists c, attributes x = Some (e', c))).
    { unfold e'. destruct (attributes x) as [[lx cx]|].
      - destruct (Z.gtb_spec lx e).
        + split; [lia|]. split; [intros ? ? [= <- <-]; lia|].
          right. exists cx. reflexivity.
        + split; [lia|]. split; [intros ? ? [= <- <-]; lia|].
          left. reflexivity.
      - split; [lia|]. split; [discriminate|]. left. reflexivity. }
    destruct He as (He1 & He2 & He3).
    split; [lia|]. split.
    + intros m l0 c Hm Ha. apply elem_of_cons in Hm. destruct Hm as [->|Hm].
      * specialize (He2 l0 c Ha). lia.
      * eauto.
    + destruct Hat as [Hr|(m & c & Hm & Ha)].
      * destruct He3 as [->|(c & Ha)]; [left; exact Hr|].
        right. exists x, c. split; [apply list_elem_of_here|].
        rewrite Hr. exact Ha.
      * right. exists m, c. split; [apply list_elem_of_further, Hm|exact Ha].
Qed.

(** [last_line] is the largest line of the subtree. *)
Lemma last_line_largest (n : node) : largest_line n (Parser.last_line n).
Proof.
  destruct (last_line_fold (walk n) 0) as (_ & Hub & Hat).
  split.
  - intros m l c Hm. apply (Hub m l c). rewrite walk_perm. exact Hm.
  - destruct Hat as [Hr|(m & c & Hm & Ha)]; [left; exact Hr|].
    right. exists m, c. split; [|exact Ha]. rewrite <- walk_perm. exact Hm.
Qed.

(** The inner loop of [nestable_lines] appends one pair for each node of the
    listed classes, in order. *)
Lemma nestable_inner (l : list node) :
  (forall n, n ∈ l -> isinstance n Parser.nestable = true ->
             attributes n <> None) ->
  forall nests,
    for_each l
      (fun subnode nests =>
         if isinstance subnode Parser.nestable then
           let end_ := Parser.last_line subnode in
           l ← lineno subnode;
           Ok (nests ++ [(l, end_)])
         else Ok nests)
      nests
    = Ok (nests
            ++ map (fun n => (line_of n, Parser.last_line n))
                 (filter (fun n => Is_true (isinstance n Parser.nestable)) l)).
Proof.
  induction l as [|x l IH]; intros Hwf nests.
  - simpl. rewrite app_nil_r. reflexivity.
  - rewrite for_each_cons, filter_cons.
    assert (Hl : forall n, n ∈ l -> isinstance n Parser.nestable = true ->
                           attributes n <> None)
      by (intros n Hn; apply Hwf, list_elem_of_further, Hn).
    destruct (isinstance x Parser.nestable) eqn:Ex.
    + rewrite decide_True by exact I.
      specialize (Hwf x (list_elem_of_here _ _) Ex).
      unfold lineno, line_of. destruct (attributes x) as [[lx cx]|] eqn:Ea;
        [|contradiction].
      cbn [mbind result_bind]. rewrite (IH Hl).
      cbn [map]. rewrite Ea, <- app_assoc. reflexivity.
    + rewrite decide_False by (intros []). apply (IH Hl).
Qed.

Lemma nestable_outer (body : list node) :
  (forall n, n ∈ flat_map walk body -> isinstance n Parser.nestable = true ->
             attributes n <> None) ->
  forall nests,
    for_each (map walk body)
      (fun node nests =>
         for_each node
           (fun subnode nests =>
              if isinstance subnode Parser.nestable then
                let end_ := Parser.last_line subnode in
                l ← lineno subnode;
                Ok (nests ++ [(l, end_)])
              else Ok nests)
           nests)
      nests
    = Ok (nests
            ++ map (fun n => (line_of n, Parser.last_line n))
                 (filter (fun n => Is_true (isinstance n Parser.nestable))
                         (flat_map walk body))).
Proof.
  induction body as [|x body IH]; intros Hwf nests.
  - simpl. rewrite app_nil_r. reflexivity.
  - cbn [map flat_map]. rewrite for_each_cons, nestable_inner.
    + rewrite IH.
      * rewrite filter_app, map_app, app_assoc. reflexivity.
      * intros n Hn. apply Hwf. cbn [flat_map]. apply elem_of_app. auto.
    + intros n Hn. apply Hwf. cbn [flat_map]. apply elem_of_app. auto.
Qed.

(** C8, amended: for a tree whose statements carry their line,
    [nestable_lines()] returns one pair (line, last line) for every node of
    class FunctionDef, ClassDef, If, For, TryExcept or TryFinally anywhere
    below the module, the last line being the largest line of the node's
    subtree; it returns the empty list when there is no such node.  [while]
    and [with] statements get no pair. *)
Theorem nestable_lines_pairs (self : Parser.t) (body : list node) :
  getattr_list (Parser._tree self) "body" = Ok body ->
  (forall n, n ∈ flat_map preorder body ->
             isinstance n Parser.nestable = true -> attributes n <> None) ->
  exists nodes,
    nodes ≡ₚ filter (fun n => Is_true (isinstance n Parser.nestable))
               (flat_map preorder body)
    /\ Parser.nestable_lines self
       = Ok (map (fun n => (line_of n, Parser.last_line n)) nodes)
    /\ (forall n, n ∈ nodes -> largest_line n (Parser.last_line n))
    /\ (filter (fun n => Is_true (isinstance n Parser.nestable))
               (flat_map preorder body) = [] ->
        Parser.nestable_lines self = Ok []).
Proof.
  intros Hbody Hwf.
  assert (Hwf' : forall n, n ∈ flat_map walk body ->
                           isinstance n Parser.nestable = true ->
                           attributes n <> None).
  { intros n Hn. apply Hwf. rewrite <- flat_map_walk_perm. exact Hn. }
  assert (Hperm :
            filter (fun n => Is_true (isinstance n Parser.nestable))
                   (flat_map walk body)
            ≡ₚ filter (fun n => Is_true (isinstance n Parser.nestable))
                 (flat_map preorder body)).
  { rewrite flat_map_walk_perm. reflexivity. }
  assert (Hrun :
            Parser.nestable_lines self
            = Ok (map (fun n => (line_of n, Parser.last_line n))
                      (filter (fun n => Is_true (isinstance n Parser.nestable))
                              (flat_map walk body)))).
  { unfold Parser.nestable_lines. rewrite Hbody. cbn [mbind result_bind].
    exact (nestable_outer body Hwf' []). }
  eexists. split; [exact Hperm|]. split; [exact Hrun|]. split.
  - intros n _. apply last_line_largest.
  - intros Hnone. rewrite Hrun. rewrite Hnone in Hperm.
    apply Permutation_nil_r in Hperm. rewrite Hperm. reflexivity.
Qed.

Lemma nestable_lines_pairs_witness :
  exists body nodes,
    getattr_list (Parser._tree simple_parser) "body" = Ok body
    /\ nodes ≡ₚ filter (fun n => Is_true (isinstance n Parser.nestable))
                 (flat_map preorder body)
    /\ Parser.nestable_lines simple_parser
       = Ok (map (fun n => (line_of n, Parser.last_line n)) nodes).
Proof.
  destruct (getattr_list (Parser._tree simple_parser) "body") as [body|]
    eqn:Hbody; vm_compute in Hbody; [|discriminate].
  injection Hbody as <-.
  assert (Hwf : forall n,
             n ∈ flat_map preorder
                   (match getattr_list simple_tree "body" with
                    | Ok body => body
                    | Raise _ => []
                    end) ->
             isinstance n Parser.nestable = true -> attributes n <> None).
  { intros n Hn Hi. vm_compute in Hn.
    repeat (apply elem_of_cons in Hn; destruct Hn as [->|Hn];
            [first [discriminate|vm_compute in Hi; discriminate Hi]|]).
    apply elem_of_nil in Hn. contradiction. }
  destruct (nestable_lines_pairs simple_parser _ eq_refl Hwf)
    as (nodes & Hperm & Hrun & _).
  eexists. exists nodes. split; [reflexivity|]. split; [exact Hperm|exact Hrun].
Defined.

(** ** Imports *)




Section Modules.

Variable _parse_module : string -> result node.
Variable load_dynamic load_package : string -> result (list string).

(** A [try] statement of [modules] adds at most the key [module_name], and
    only for an [import] statement. *)
Lemma resolve_import_keys (module_name imported_name : option string)
    (st st' : Parser.modules_state) (name : string) :
  Parser.resolve_import _parse_module load_dynamic load_package
    module_name imported_name st = Ok st' ->
  is_Some (fst st' !! name) ->
  is_Some (fst st !! name) \/ (imported_name = None /\ module_name = Some name).
Proof.
  unfold Parser.resolve_import. destruct st as [modules module_info].
  intros H Hname.
  destruct (match module_name with
            | Some module_name0 =>
                match _parse_module module_name0 with
                | Ok _ => (Some AttributeError, module_info)
                | Raise TypeError =>
                    match load_dynamic module_name0 with
                    | Ok info => (None, Some info)
                    | Raise e => (Some e, module_info)
                    end
                | Raise IOError =>
                    match load_package module_name0 with
                    | Ok info => (None, Some info)
                    | Raise e => (Some e, module_info)
                    end
                | Raise e => (Some e, module_info)
                end
            | None => (Some AttributeError, module_info)
            end) as [pending info'].
  destruct imported_name as [imported|].
  - destruct info' as [info|]; [|discriminate].
    destruct (decide (imported ∈ info)); [discriminate|].
    cbn [mbind result_bind] in H. destruct pending; [discriminate|].
    injection H as <-. left. exact Hname.
  - destruct info' as [info|]; [|discriminate].
    destruct module_name as [mn|]; [|discriminate].
    cbn [mbind result_bind] in H. destruct pending; [discriminate|].
    injection H as <-. cbn [fst] in Hname.
    rewrite lookup_insert in Hname.
    destruct (decide (mn = name)) as [->|]; [right; auto|left; exact Hname].
Qed.

Lemma modules_visit_keys (subnode : node) (st st' : Parser.modules_state)
    (name : string) :
  Parser.modules_visit _parse_module load_dynamic load_package subnode st
  = Ok st' ->
  is_Some (fst st' !! name) ->
  is_Some (fst st !! name)
  \/ (isinstance subnode ["Import"] = true
      /\ Parser.first_name subnode = Ok name).
Proof.
  unfold Parser.modules_visit. intros H Hname.
  destruct (isinstance subnode ["Import"]) eqn:Ei.
  - bind_inv H.
    destruct (resolve_import_keys _ _ _ _ _ H Hname) as [?|[_ [= ->]]]; auto.
  - destruct (isinstance subnode ["ImportFrom"]).
    + destruct (assoc "module" (fields subnode)); [|discriminate].
      bind_inv H.
      destruct (resolve_import_keys _ _ _ _ _ H Hname) as [?|[[=] _]]; auto.
    + injection H as <-. auto.
Qed.




End Modules.



(* ===================================================================== *)
(** * Further properties of the module *)
(* ===================================================================== *)

(** ** Lines and offsets *)

Lemma lineno_loop_range (lines : list text) :
  forall i idx last index,
    lines <> [] ->
    i <= lineno_loop lines i idx last index <= i + len lines - 1.
Proof.
  induction lines as [|line rest IH]; intros i idx last index Hne;
    [contradiction|].
  cbn [lineno_loop].
  replace (len (line :: rest)) with (len rest + 1)
    by (unfold len; cbn [length]; lia).
  pose proof (len_nonneg rest).
  destruct (idx + len line >=? index); [lia|].
  destruct rest as [|line' rest'].
  - cbn [lineno_loop]. lia.
  - specialize (IH (i + 1) (idx + len line) i index ltac:(discriminate)).
    lia.
Qed.

Lemma calculate_lineno_positive (self : Parser.t) (index : Z) :
  1 <= Parser._calculate_lineno self index.
Proof.
  unfold Parser._calculate_lineno.
  destruct (splitlines true (Parser._source self)) as [|line rest] eqn:E.
  - simpl. lia.
  - pose proof (lineno_loop_range (line :: rest) 0 0 0 index ltac:(discriminate)).
    lia.
Qed.

(** [_calculate_lineno] answers a line of the text: at least 1, and at most
    the number of lines (1 for the empty text). *)
Theorem calculate_lineno_range (self : Parser.t) (index : Z) :
  1 <= Parser._calculate_lineno self index
  <= Z.max 1 (len (splitlines true (Parser._source self))).
Proof.
  unfold Parser._calculate_lineno.
  destruct (splitlines true (Parser._source self)) as [|line rest] eqn:E.
  - simpl. lia.
  - pose proof (lineno_loop_range (line :: rest) 0 0 0 index ltac:(discriminate)).
    lia.
Qed.

Lemma lineno_loop_lower (lines : list text) :
  forall i idx last index,
    last <= i -> last <= lineno_loop lines i idx last index.
Proof.
  induction lines as [|line rest IH]; intros i idx last index Hle;
    cbn [lineno_loop]; [lia|].
  destruct (idx + len line >=? index); [lia|].
  specialize (IH (i + 1) (idx + len line) i index ltac:(lia)). lia.
Qed.

Lemma lineno_loop_monotone (lines : list text) :
  forall i idx last index1 index2,
    index1 <= index2 ->
    lineno_loop lines i idx last index1 <= lineno_loop lines i idx last index2.
Proof.
  induction lines as [|line rest IH]; intros i idx last index1 index2 Hle;
    cbn [lineno_loop]; [lia|].
  destruct (Z.geb_spec (idx + len line) index1),
           (Z.geb_spec (idx + len line) index2); try lia.
  - apply lineno_loop_lower. lia.
  - apply IH. exact Hle.
Qed.

(** A later offset is never on an earlier line. *)
Theorem calculate_lineno_monotone (self : Parser.t) (index1 index2 : Z) :
  index1 <= index2 ->
  Parser._calculate_lineno self index1 <= Parser._calculate_lineno self index2.
Proof.
  intros Hle. unfold Parser._calculate_lineno.
  destruct (splitlines true (Parser._source self)); [lia|].
  pose proof (lineno_loop_monotone (t :: l) 0 0 0 index1 index2 Hle). lia.
Qed.

Lemma calculate_lineno_monotone_witness :
  38 <= 58
  /\ Parser._calculate_lineno simple_parser 38
     <= Parser._calculate_lineno simple_parser 58.
Proof.
  split; [lia|]. apply (calculate_lineno_monotone simple_parser 38 58). lia.
Defined.

Ltac zcases z :=
  destruct z as [|z|z]; [| do 4 (try destruct z as [z|z|]) |].

Lemma rev_cons_nonempty {A : Type} (x : A) (l : list A) : rev (x :: l) <> [].
Proof. simpl. destruct (rev l); discriminate. Qed.

(** With [keepends], no line is empty. *)
Lemma splitlines_from_nonempty (n : nat) :
  forall s cur, (length s <= n)%nat ->
    Forall (fun l => l <> []) (splitlines_from true s cur).
Proof.
  induction n as [|n IH]; intros s cur Hn.
  - destruct s; [|simpl in Hn; lia]. simpl.
    destruct cur; constructor; [apply rev_cons_nonempty|constructor].
  - destruct s as [|c s'];
      [simpl; destruct cur; constructor;
       [apply rev_cons_nonempty|constructor]|].
    simpl in Hn. cbn [splitlines_from].
    destruct (is_linebreak c).
    + zcases c;
        try (constructor; [apply rev_cons_nonempty|apply IH; lia]).
      destruct s' as [|d s''];
        [constructor; [apply rev_cons_nonempty|apply IH; simpl; lia]|].
      simpl in Hn.
      zcases d; constructor; try apply rev_cons_nonempty; apply IH;
        simpl; lia.
    + apply IH. lia.
Qed.

(** With [keepends], the lines put end to end are the text. *)
Lemma splitlines_from_concat (n : nat) :
  forall s cur, (length s <= n)%nat ->
    concat (splitlines_from true s cur) = rev cur ++ s.
Proof.
  induction n as [|n IH]; intros s cur Hn.
  - destruct s; [|simpl in Hn; lia]. simpl.
    destruct cur; simpl; rewrite ?app_nil_r; reflexivity.
  - destruct s as [|c s'];
      [simpl; destruct cur; simpl; rewrite ?app_nil_r; reflexivity|].
    simpl in Hn. cbn [splitlines_from].
    destruct (is_linebreak c).
    + zcases c;
        try (cbn [concat]; rewrite IH by lia; simpl;
             rewrite <- ?app_assoc; reflexivity).
      destruct s' as [|d s''];
        [cbn [concat]; rewrite IH by (simpl; lia); simpl;
         rewrite <- ?app_assoc; reflexivity|].
      simpl in Hn.
      zcases d; cbn [concat]; rewrite IH by (simpl; lia); simpl;
        rewrite <- ?app_assoc; reflexivity.
    + rewrite IH by lia. simpl. rewrite <- app_assoc. reflexivity.
Qed.

Lemma sum_len_concat (lines : list text) :
  sum_len lines = len (concat lines).
Proof.
  induction lines as [|line lines IH]; [reflexivity|].
  cbn [sum_len fold_right concat]. fold (sum_len lines).
  unfold len in *. rewrite length_app. lia.
Qed.

Lemma firstn_lookup_concat (k : nat) :
  forall (lines : list text) (content : text),
    lines !! k = Some content ->
    concat lines
    = concat (firstn k lines) ++ content ++ concat (skipn (S k) lines).
Proof.
  induction k as [|k IH]; intros lines content Hk;
    destruct lines as [|l rest]; try discriminate.
  - injection Hk as ->. reflexivity.
  - simpl in Hk. cbn [firstn skipn concat].
    rewrite (IH rest content Hk) at 1. rewrite <- app_assoc. reflexivity.
Qed.

(** [_calculate_index] is the offset, in the text, of the character that
    sits at the column in the line. *)
Theorem calculate_index_character (source : text) (line column : Z)
    (content : text) :
  1 <= line ->
  splitlines true source !! Z.to_nat (line - 1) = Some content ->
  0 <= column < len content ->
  nth_error source (Z.to_nat (_calculate_index source line column))
  = nth_error content (Z.to_nat column).
Proof.
  intros Hline Hcontent Hcolumn.
  unfold _calculate_index, slice_to.
  destruct (Z.ltb_spec (line - 1) 0); [lia|].
  rewrite sum_len_concat.
  assert (Hs : concat (splitlines true source) = source).
  { unfold splitlines. rewrite (splitlines_from_concat (length source));
      [reflexivity|lia]. }
  rewrite <- Hs at 1.
  rewrite (firstn_lookup_concat _ _ _ Hcontent).
  unfold len in *.
  replace (Z.to_nat (Z.of_nat (length (concat (firstn (Z.to_nat (line - 1))
                                                 (splitlines true source))))
                     + column))
    with (length (concat (firstn (Z.to_nat (line - 1))
                            (splitlines true source)))
          + Z.to_nat column)%nat by lia.
  rewrite nth_error_app2 by lia.
  replace (_ + Z.to_nat column - _)%nat with (Z.to_nat column) by lia.
  apply nth_error_app1. lia.
Qed.

Lemma calculate_index_character_witness :
  1 <= 4
  /\ nth_error simple_source (Z.to_nat (_calculate_index simple_source 4 4))
     = nth_error (u "    invar = 1
") (Z.to_nat 4).
Proof.
  split; [lia|].
  apply (calculate_index_character simple_source 4 4).
  - lia.
  - vm_compute. reflexivity.
  - change (0 <= 4 < 14). lia.
Defined.

Lemma lineno_loop_upto (k : nat) :
  forall (lines : list text) (i idx last column : Z) (line : text),
    lines !! k = Some line ->
    0 <= column <= len line ->
    ((0 < k)%nat -> 1 <= column) ->
    lineno_loop lines i idx last (idx + sum_len (firstn k lines) + column)
    = i + Z.of_nat k.
Proof.
  induction k as [|k IH]; intros lines i idx last column line Hk Hc Hpos.
  - destruct lines as [|l rest]; [discriminate|].
    injection Hk as ->. simpl.
    destruct (Z.geb_spec (idx + len line) (idx + 0 + column)); lia.
  - destruct lines as [|l rest]; [discriminate|].
    simpl in Hk. cbn [firstn sum_len fold_right lineno_loop].
    fold (sum_len (firstn k rest)).
    pose proof (sum_len_nonneg (firstn k rest)).
    pose proof (len_nonneg l).
    specialize (Hpos ltac:(lia)).
    destruct (Z.geb_spec (idx + len l)
                (idx + (len l + sum_len (firstn k rest)) + column)); [lia|].
    replace (idx + (len l + sum_len (firstn k rest)) + column)
      with ((idx + len l) + sum_len (firstn k rest) + column) by lia.
    rewrite (IH rest (i + 1) (idx + len l) i column line Hk Hc).
    + lia.
    + intros _. exact Hpos.
Qed.

Lemma sum_len_firstn_succ (k : nat) :
  forall (lines : list text) (content : text),
    lines !! k = Some content ->
    sum_len (firstn (S k) lines) = sum_len (firstn k lines) + len content.
Proof.
  induction k as [|k IH]; intros lines content Hk;
    destruct lines as [|l rest]; try discriminate.
  - injection Hk as ->. simpl. lia.
  - simpl in Hk. cbn [firstn sum_len fold_right].
    fold (sum_len (firstn (S k) rest)). fold (sum_len (firstn k rest)).
    rewrite (IH rest content Hk). lia.
Qed.

(** The offset of column 0 of any line after the first is put on the line
    before it. *)
Theorem calculate_lineno_of_line_start (self : Parser.t) (line : Z) :
  2 <= line <= len (splitlines true (Parser._source self)) ->
  Parser._calculate_lineno self
    (_calculate_index (Parser._source self) line 0) = line - 1.
Proof.
  intros Hline. unfold Parser._calculate_lineno, _calculate_index, slice_to.
  destruct (Z.ltb_spec (line - 1) 0); [lia|].
  set (lines := splitlines true (Parser._source self)) in *.
  destruct (lines !! Z.to_nat (line - 2)) as [content|] eqn:Hc.
  2:{ apply lookup_ge_None in Hc. unfold len in Hline. lia. }
  replace (Z.to_nat (line - 1)) with (S (Z.to_nat (line - 2))) by lia.
  rewrite (sum_len_firstn_succ _ _ _ Hc).
  assert (Hne : content <> []).
  { assert (Hall : Forall (fun l => l <> []) lines).
    { unfold lines, splitlines.
      apply (splitlines_from_nonempty (length (Parser._source self))). lia. }
    rewrite Forall_forall in Hall. apply Hall.
    eapply list_elem_of_lookup_2. exact Hc. }
  assert (1 <= len content)
    by (destruct content; [contradiction|unfold len; simpl; lia]).
  pose proof (lineno_loop_upto (Z.to_nat (line - 2)) lines 0 0 0
                (len content) content Hc ltac:(lia) ltac:(lia)) as Hloop.
  rewrite Z.add_0_l in Hloop. rewrite Z.add_0_r.
  destruct lines as [|l rest]; [discriminate|].
  rewrite Hloop. lia.
Qed.

Lemma calculate_lineno_of_line_start_witness :
  2 <= 4 <= len (splitlines true (Parser._source simple_parser))
  /\ Parser._calculate_lineno simple_parser
       (_calculate_index (Parser._source simple_parser) 4 0) = 4 - 1.
Proof.
  assert (H : 2 <= 4 <= len (splitlines true (Parser._source simple_parser)))
    by (change (2 <= 4 <= 9); lia).
  split; [exact H|]. exact (calculate_lineno_of_line_start simple_parser 4 H).
Defined.

(** ** The scope line *)

(** [pop_blank] removes a blank tail, and what it leaves does not end with a
    blank line. *)
Lemma pop_blank_split (lines : list text) :
  exists tail,
    lines = pop_blank lines ++ tail
    /\ Forall (fun line => blank line = true) tail
    /\ (pop_blank lines = []
        \/ exists init x, pop_blank lines = init ++ [x] /\ blank x = false).
Proof.
  induction lines as [|line rest (tail & Hsplit & Htail & Hlast)].
  - exists []. split; [reflexivity|]. split; [constructor|left; reflexivity].
  - cbn [pop_blank]. destruct (pop_blank rest) as [|r rs] eqn:Hpop.
    + simpl in Hsplit. subst tail.
      destruct line as [|c line'].
      * exists ([] :: rest). split; [reflexivity|].
        split; [constructor; [reflexivity|exact Htail]|left; reflexivity].
      * destruct (isspace (c :: line')) eqn:Hs.
        -- exists ((c :: line') :: rest). split; [reflexivity|].
           split; [constructor; [exact Hs|exact Htail]|left; reflexivity].
        -- exists rest. split; [reflexivity|]. split; [exact Htail|].
           right. exists [], (c :: line'). split; [reflexivity|exact Hs].
    + exists tail. split; [rewrite Hsplit at 1; reflexivity|].
      split; [exact Htail|]. right.
      destruct Hlast as [Hnil|(init & x & Hinit & Hx)]; [discriminate|].
      exists (line :: init), x. rewrite Hinit. split; [reflexivity|exact Hx].
Qed.

(** The scope line of an offset is at most the line of the offset, is 0 or
    the number of a line that is not blank, and every line after it up to the
    line of the offset is blank. *)
Theorem scope_line_not_blank (self : Parser.t) (index : Z) :
  let lines := splitlines false (Parser._source self) in
  let n := Parser.scope_line self index in
  0 <= n <= Parser._calculate_lineno self index
  /\ (1 <= n ->
      exists line, lines !! Z.to_nat (n - 1) = Some line /\ blank line = false)
  /\ (forall L line,
        n < L <= Parser._calculate_lineno self index ->
        lines !! Z.to_nat (L - 1) = Some line ->
        blank line = true).
Proof.
  intros lines n. subst n. unfold Parser.scope_line. fold lines.
  pose proof (calculate_lineno_positive self index) as Hlow.
  set (k := Parser._calculate_lineno self index) in *.
  unfold slice_to. destruct (Z.ltb_spec k 0); [lia|].
  destruct (pop_blank_split (firstn (Z.to_nat k) lines))
    as (tail & Hsplit & Htail & Hlast).
  set (kept := pop_blank (firstn (Z.to_nat k) lines)) in *.
  assert (Hlen : (length kept + length tail <= Z.to_nat k)%nat).
  { rewrite <- length_app, <- Hsplit, length_firstn. lia. }
  assert (Hlines : lines = kept ++ tail ++ skipn (Z.to_nat k) lines).
  { rewrite app_assoc, <- Hsplit. symmetry. apply firstn_skipn. }
  unfold len. split; [lia|]. split.
  - intros Hpos.
    destruct Hlast as [Hnil|(init & x & Hinit & Hx)];
      [rewrite Hnil in Hpos; simpl in Hpos; lia|].
    exists x. split; [|exact Hx].
    rewrite Hlines, Hinit, <- app_assoc.
    replace (Z.to_nat (Z.of_nat (length (init ++ [x])) - 1))
      with (length init) by (rewrite length_app; simpl; lia).
    apply list_lookup_middle. reflexivity.
  - intros L line HL Hline.
    rewrite Hlines in Hline.
    rewrite lookup_app_r in Hline by lia.
    destruct (decide (Z.to_nat (L - 1) - length kept < length tail)%nat)
      as [Hin|Hout].
    + rewrite lookup_app_l in Hline by exact Hin.
      rewrite Forall_forall in Htail. apply Htail.
      eapply list_elem_of_lookup_2. exact Hline.
    + rewrite lookup_app_r in Hline by lia.
      apply lookup_lt_Some in Hline. rewrite length_skipn in Hline.
      assert (length (firstn (Z.to_nat k) lines)
              = (length kept + length tail)%nat)
        by (rewrite Hsplit at 1; apply length_app).
      rewrite length_firstn in *. lia.
Qed.

(** ** The word under the cursor *)

Lemma xrange_nil (a b : Z) : b <= a -> xrange a b = [].
Proof.
  intros H. unfold xrange. replace (Z.to_nat (b - a)) with 0%nat by lia.
  reflexivity.
Qed.

Lemma xrange_cons (a b : Z) : a < b -> xrange a b = a :: xrange (a + 1) b.
Proof.
  intros H. unfold xrange.
  replace (Z.to_nat (b - a)) with (S (Z.to_nat (b - (a + 1)))) by lia.
  cbn [seq map]. f_equal; [lia|].
  rewrite <- seq_shift, map_map. apply map_ext. intros i. lia.
Qed.

Lemma xrange_snoc (a b : Z) : a < b -> xrange a b = xrange a (b - 1) ++ [b - 1].
Proof.
  intros H. unfold xrange.
  replace (Z.to_nat (b - a)) with (Z.to_nat (b - 1 - a) + 1)%nat by lia.
  rewrite seq_app, map_app. cbn [seq map]. f_equal. f_equal. lia.
Qed.

(** The search upwards stops at the first index that satisfies [P]. *)
Lemma find_xrange (P : Z -> bool) (n : nat) :
  forall a b, Z.to_nat (b - a) = n ->
    match find P (xrange a b) with
    | Some k => a <= k < b /\ P k = true
                /\ forall j, a <= j < k -> P j = false
    | None => forall j, a <= j < b -> P j = false
    end.
Proof.
  induction n as [|n IH]; intros a b Hn.
  - rewrite xrange_nil by lia. simpl. intros j Hj. lia.
  - rewrite xrange_cons by lia. cbn [find]. destruct (P a) eqn:Ha.
    + split; [lia|]. split; [exact Ha|]. intros j Hj. lia.
    + specialize (IH (a + 1) b ltac:(lia)).
      destruct (find P (xrange (a + 1) b)) as [k|].
      * destruct IH as (Hk & HP & Hbefore). split; [lia|].
        split; [exact HP|]. intros j Hj.
        destruct (Z.eq_dec j a) as [->|]; [exact Ha|apply Hbefore; lia].
      * intros j Hj.
        destruct (Z.eq_dec j a) as [->|]; [exact Ha|apply IH; lia].
Qed.

(** The search downwards stops at the last index that satisfies [P]. *)
Lemma find_rev_xrange (P : Z -> bool) (n : nat) :
  forall a b, Z.to_nat (b - a) = n ->
    match find P (rev (xrange a b)) with
    | Some k => a <= k < b /\ P k = true
                /\ forall j, k < j < b -> P j = false
    | None => forall j, a <= j < b -> P j = false
    end.
Proof.
  induction n as [|n IH]; intros a b Hn.
  - rewrite xrange_nil by lia. simpl. intros j Hj. lia.
  - rewrite xrange_snoc by lia. rewrite rev_app_distr. cbn [rev app find].
    destruct (P (b - 1)) eqn:Hb.
    + split; [lia|]. split; [exact Hb|]. intros j Hj. lia.
    + specialize (IH a (b - 1) ltac:(lia)).
      destruct (find P (rev (xrange a (b - 1)))) as [k|].
      * destruct IH as (Hk & HP & Hafter). split; [lia|].
        split; [exact HP|]. intros j Hj.
        destruct (Z.eq_dec j (b - 1)) as [->|]; [exact Hb|apply Hafter; lia].
      * intros j Hj.
        destruct (Z.eq_dec j (b - 1)) as [->|]; [exact Hb|apply IH; lia].
Qed.

Lemma negb_in_chars (c : Z) :
  negb (in_chars c) = false <-> in_chars c = true.
Proof. destruct (in_chars c); simpl; split; congruence. Qed.

(** Where the word starts: [anchor] is just after the last character at or
    before [index] that is no word character. *)
Lemma anchor_bounds (source : text) (index : Z) :
  0 <= index ->
  let at_ idx := nth (Z.to_nat idx) source 0 in
  let anchor :=
    default 0 ((fun idx => idx + 1) <$>
                 find (fun idx => negb (in_chars (at_ idx)))
                      (rev (xrange 0 (index + 1)))) in
  0 <= anchor <= index + 1
  /\ (forall j, anchor <= j <= index -> in_chars (at_ j) = true)
  /\ (in_chars (at_ index) = false -> anchor = index + 1)
  /\ (in_chars (at_ index) = true -> anchor <= index).
Proof.
  intros Hindex at_ anchor.
  pose proof (find_rev_xrange (fun idx => negb (in_chars (at_ idx)))
                _ 0 (index + 1) eq_refl) as Hdown.
  subst anchor.
  destruct (find _ (rev (xrange 0 (index + 1)))) as [k|];
    cbn [fmap option_fmap option_map default]; unfold id.
  - destruct Hdown as (Hk & HP & Hafter).
    split; [lia|]. split; [|split].
    + intros j Hj. apply negb_in_chars, Hafter. lia.
    + intros Hc. destruct (Z.eq_dec k index) as [->|Hne]; [reflexivity|].
      specialize (Hafter index ltac:(lia)). apply negb_in_chars in Hafter.
      congruence.
    + intros Hc. destruct (Z.eq_dec k index) as [->|Hne]; [|lia].
      rewrite Hc in HP. discriminate.
  - split; [lia|]. split; [|split].
    + intros j Hj. apply negb_in_chars, Hdown. lia.
    + intros Hc. specialize (Hdown index ltac:(lia)).
      apply negb_in_chars in Hdown. congruence.
    + intros _. lia.
Qed.

(** Where the word ends: [bound] is the first character at or after [index]
    that is no word character, or the end of the text. *)
Lemma bound_bounds (source : text) (index : Z) :
  0 <= index < len source ->
  let at_ idx := nth (Z.to_nat idx) source 0 in
  let bound :=
    default (len source)
            (find (fun idx => negb (in_chars (at_ idx)))
                  (xrange index (len source))) in
  index <= bound <= len source
  /\ (forall j, index <= j < bound -> in_chars (at_ j) = true)
  /\ (in_chars (at_ index) = false -> bound = index)
  /\ (in_chars (at_ index) = true -> index < bound).
Proof.
  intros Hindex at_ bound.
  pose proof (find_xrange (fun idx => negb (in_chars (at_ idx)))
                _ index (len source) eq_refl) as Hup.
  subst bound.
  destruct (find _ (xrange index (len source))) as [k|];
    cbn [default]; unfold id.
  - destruct Hup as (Hk & HP & Hbefore).
    split; [lia|]. split; [|split].
    + intros j Hj. apply negb_in_chars, Hbefore. lia.
    + intros Hc. destruct (Z.eq_dec k index) as [->|Hne]; [reflexivity|].
      specialize (Hbefore index ltac:(lia)). apply negb_in_chars in Hbefore.
      congruence.
    + intros Hc. destruct (Z.eq_dec k index) as [->|Hne]; [|lia].
      rewrite Hc in HP. discriminate.
  - split; [lia|]. split; [|split].
    + intros j Hj. apply negb_in_chars, Hup. lia.
    + intros Hc. specialize (Hup index ltac:(lia)).
      apply negb_in_chars in Hup. congruence.
    + intros _. lia.
Qed.

Lemma word_at_index_empty (self : Parser.t) (index : Z) :
  0 <= index < len (Parser._source self) ->
  in_chars (nth (Z.to_nat index) (Parser._source self) 0) = false ->
  Parser._word_at_index self index = [].
Proof.
  intros Hindex Hc.
  unfold Parser._word_at_index, slice_from, slice_to.
  pose proof (anchor_bounds (Parser._source self) index ltac:(lia)) as Ha.
  pose proof (bound_bounds (Parser._source self) index Hindex) as Hb.
  cbv zeta in *.
  set (anchor := default 0 _) in *.
  set (bound := default (len (Parser._source self)) _) in *.
  destruct Ha as (Ha1 & Ha2 & Ha3 & Ha4).
  destruct Hb as (Hb1 & Hb2 & Hb3 & Hb4).
  destruct (Z.ltb_spec bound 0); [lia|].
  destruct (Z.ltb_spec anchor 0); [lia|].
  apply skipn_all2. rewrite length_firstn.
  rewrite (Ha3 Hc), (Hb3 Hc). unfold len in Hindex. lia.
Qed.

(** For an offset inside the text, [_word_at_index] returns word characters
    only; it returns the empty string when the character at the offset is no
    word character, and a string that holds that character otherwise. *)
Theorem word_at_index_chars (self : Parser.t) (index : Z) :
  0 <= index < len (Parser._source self) ->
  let c := nth (Z.to_nat index) (Parser._source self) 0 in
  (forall x, x ∈ Parser._word_at_index self index -> in_chars x = true)
  /\ (in_chars c = false -> Parser._word_at_index self index = [])
  /\ (in_chars c = true -> c ∈ Parser._word_at_index self index).
Proof.
  intros Hindex c. subst c.
  unfold Parser._word_at_index, slice_from, slice_to.
  pose proof (anchor_bounds (Parser._source self) index ltac:(lia)) as Ha.
  pose proof (bound_bounds (Parser._source self) index Hindex) as Hb.
  cbv zeta in *.
  set (anchor := default 0 _) in *.
  set (bound := default (len (Parser._source self)) _) in *.
  destruct Ha as (Ha1 & Ha2 & Ha3 & Ha4).
  destruct Hb as (Hb1 & Hb2 & Hb3 & Hb4).
  destruct (Z.ltb_spec bound 0); [lia|].
  destruct (Z.ltb_spec anchor 0); [lia|].
  split; [|split].
  - intros x Hx. apply list_elem_of_lookup_1 in Hx. destruct Hx as [i Hi].
    change (skipn (Z.to_nat anchor) (firstn (Z.to_nat bound)
                                            (Parser._source self)) !! i
            = Some x) in Hi.
    rewrite lookup_drop in Hi.
    destruct (decide (Z.to_nat anchor + i < Z.to_nat bound)%nat) as [Hlt|Hge].
    + rewrite lookup_take_lt in Hi by exact Hlt.
      destruct (Z.le_gt_cases (Z.of_nat (Z.to_nat anchor + i)) index).
      * specialize (Ha2 (Z.of_nat (Z.to_nat anchor + i)) ltac:(lia)).
        rewrite Nat2Z.id in Ha2.
        rewrite (nth_lookup_Some _ _ 0 _ Hi) in Ha2. exact Ha2.
      * specialize (Hb2 (Z.of_nat (Z.to_nat anchor + i)) ltac:(lia)).
        rewrite Nat2Z.id in Hb2.
        rewrite (nth_lookup_Some _ _ 0 _ Hi) in Hb2. exact Hb2.
    + rewrite lookup_take_ge in Hi by lia. discriminate.
  - intros Hc. apply skipn_all2. rewrite length_firstn.
    rewrite (Ha3 Hc), (Hb3 Hc). unfold len in Hindex. lia.
  - intros Hc. specialize (Ha4 Hc). specialize (Hb4 Hc).
    apply list_elem_of_lookup. exists (Z.to_nat index - Z.to_nat anchor)%nat.
    change (skipn (Z.to_nat anchor) (firstn (Z.to_nat bound)
                                            (Parser._source self))
              !! (Z.to_nat index - Z.to_nat anchor)%nat
            = Some (nth (Z.to_nat index) (Parser._source self) 0)).
    rewrite lookup_drop.
    replace (Z.to_nat anchor + (Z.to_nat index - Z.to_nat anchor))%nat
      with (Z.to_nat index) by lia.
    rewrite lookup_take_lt by lia.
    destruct (nth_lookup_or_length (Parser._source self) (Z.to_nat index) 0)
      as [Hl|Hl]; [exact Hl|unfold len in Hindex; lia].
Qed.

Lemma word_at_index_chars_witness :
  0 <= 38 < len (Parser._source simple_parser)
  /\ (forall x, x ∈ Parser._word_at_index simple_parser 38 ->
                in_chars x = true).
Proof.
  assert (H : 0 <= 38 < len (Parser._source simple_parser))
    by (change (0 <= 38 < 111); lia).
  split; [exact H|]. exact (proj1 (word_at_index_chars simple_parser 38 H)).
Defined.

(** [variable_indices] returns the empty list, and leaves the parser as it
    is, for an offset outside the text and for an offset whose character is
    no word character. *)
Theorem variable_indices_nothing (self : Parser.t) (index : Z) :
  index < 0 \/ len (Parser._source self) <= index
  \/ in_chars (nth (Z.to_nat index) (Parser._source self) 0) = false ->
  Parser.variable_indices self index = Ok ([], self).
Proof.
  intros H. unfold Parser.variable_indices, Parser.resolve.
  destruct (Z.ltb_spec index 0) as [Hneg|Hpos]; [reflexivity|].
  destruct (Z.geb_spec index (len (Parser._source self))) as [Hge|Hlt];
    [reflexivity|].
  cbn [orb].
  destruct H as [H|[H|H]]; [lia|lia|].
  rewrite (word_at_index_empty self index ltac:(lia) H).
  reflexivity.
Qed.

Lemma variable_indices_nothing_witness :
  (5 < 0 \/ len (Parser._source simple_parser) <= 5
   \/ in_chars (nth (Z.to_nat 5) (Parser._source simple_parser) 0) = false)
  /\ Parser.variable_indices simple_parser 5 = Ok ([], simple_parser).
Proof.
  assert (H : 5 < 0 \/ len (Parser._source simple_parser) <= 5
              \/ in_chars (nth (Z.to_nat 5) (Parser._source simple_parser) 0)
                 = false)
    by (right; right; reflexivity).
  split; [exact H|]. exact (variable_indices_nothing simple_parser 5 H).
Defined.

(** ** The collector, once more *)

(** Visiting a node never removes a binding and never changes the cutoff,
    and a node whose line is after the cutoff is not visited at all. *)
Theorem collector_keeps_bindings (n : node) (s s' : _AssignParser.t) :
  _AssignParser.visit n s = Ok s' ->
  _AssignParser.lineno s' = _AssignParser.lineno s
  /\ (forall name x, x ∈ bindings s name -> x ∈ bindings s' name)
  /\ (forall l c, attributes n = Some (l, c) ->
                  le_bound l (_AssignParser.lineno s) = false -> s' = s).
Proof.
  intros H. destruct (visit_extends n s s' H) as [Hcut Hkeep].
  split; [exact Hcut|]. split; [exact Hkeep|].
  intros l c Ha Hle. rewrite visit_unfold in H.
  unfold _AssignParser.guard in H. rewrite Ha, Hle in H. congruence.
Qed.

Lemma collector_keeps_bindings_witness :
  exists s',
    _AssignParser.visit simple_tree (_AssignParser.__init__ (Fin 4)) = Ok s'
    /\ _AssignParser.lineno s' = Fin 4.
Proof.
  destruct (_AssignParser.visit simple_tree (_AssignParser.__init__ (Fin 4)))
    as [s'|] eqn:H; [|vm_compute in H; discriminate].
  exists s'. split; [reflexivity|].
  exact (proj1 (collector_keeps_bindings simple_tree _ s' H)).
Defined.

(** ** The path to a line *)

Lemma concat_indexed_app {A B : Type} (body : nat -> A -> list B)
    (l1 l2 : list A) :
  forall i,
    concat_indexed body (l1 ++ l2) i
    = concat_indexed body l1 i ++ concat_indexed body l2 (i + length l1).
Proof.
  induction l1 as [|x l1 IH]; intros i; simpl.
  - rewrite Nat.add_0_r. reflexivity.
  - rewrite IH, <- app_assoc.
    replace (S i + length l1)%nat with (i + S (length l1))%nat by lia.
    reflexivity.
Qed.

Lemma concat_indexed_elem {A B : Type} (body : nat -> A -> list B)
    (l : list A) (y : B) :
  forall i,
    y ∈ concat_indexed body l i
    <-> exists j x, l !! j = Some x /\ y ∈ body (i + j)%nat x.
Proof.
  induction l as [|x l IH]; intros i; simpl.
  - split; [intros H; apply elem_of_nil in H; contradiction|].
    intros (j & x & Hj & _). discriminate.
  - rewrite elem_of_app, IH. split.
    + intros [H|(j & x' & Hj & H)].
      * exists 0%nat, x. rewrite Nat.add_0_r. auto.
      * exists (S j), x'. split; [exact Hj|].
        replace (i + S j)%nat with (S i + j)%nat by lia. exact H.
    + intros (j & x' & Hj & H). destruct j as [|j].
      * injection Hj as <-. rewrite Nat.add_0_r in H. auto.
      * right. exists j, x'. split; [exact Hj|].
        replace (S i + j)%nat with (i + S j)%nat by lia. exact H.
Qed.

(** [flat_map_children] numbers the children as [ast.iter_child_nodes]
    lists them. *)
Lemma flat_map_children_indexed {B : Type} (body : nat -> node -> list B)
    (fs : list (string * field node)) :
  forall i,
    flat_map_children body fs i
    = concat_indexed body (flat_map (fun nf => field_nodes (snd nf)) fs) i.
Proof.
  induction fs as [|[k f] fs IH]; intros i; [reflexivity|].
  destruct f as [n|ns|a]; cbn [flat_map_children flat_map snd field_nodes].
  - simpl. rewrite IH. reflexivity.
  - rewrite concat_indexed_app. revert i.
    induction ns as [|n ns IHns]; intros i.
    + simpl. rewrite Nat.add_0_r. apply IH.
    + cbn [concat_indexed length]. rewrite <- app_assoc.
      f_equal. rewrite IHns.
      replace (S i + length ns)%nat with (i + S (length ns))%nat by lia.
      reflexivity.
  - apply IH.
Qed.

Lemma iter_paths_unfold (tree : node) (here : list nat) (cur : list ref) :
  _iter_paths tree here cur
  = match iter_child_nodes tree with
    | [] => [cur]
    | children =>
        concat_indexed
          (fun i child =>
             _iter_paths child (here ++ [i]) (cur ++ [(here ++ [i], child)]))
          children 0
    end.
Proof.
  destruct tree as [c fs a].
  change (_iter_paths (Node c fs a) here cur)
    with (match iter_child_nodes (Node c fs a) with
          | [] => [cur]
          | _ =>
              flat_map_children
                (fun i child =>
                   _iter_paths child (here ++ [i])
                     (cur ++ [(here ++ [i], child)]))
                fs 0
          end).
  rewrite flat_map_children_indexed.
  unfold iter_child_nodes. cbn [fields].
  destruct (flat_map (fun nf => field_nodes (snd nf)) fs); reflexivity.
Qed.

Lemma children_all_elem (P : node -> Prop) (n child : node) :
  children_all P (fields n) -> child ∈ iter_child_nodes n -> P child.
Proof.
  unfold children_all, iter_child_nodes. intros Hall Hc.
  apply list_elem_of_In, in_flat_map in Hc. destruct Hc as (nf & Hnf & Hc).
  rewrite Forall_forall in Hall.
  specialize (Hall nf (proj2 (list_elem_of_In _ _) Hnf)).
  rewrite Forall_forall in Hall. apply Hall, list_elem_of_In, Hc.
Qed.

Lemma descendants_child (n child m : node) :
  child ∈ iter_child_nodes n -> m ∈ preorder child -> m ∈ descendants n.
Proof.
  intros Hc Hm. unfold descendants. apply list_elem_of_In, in_flat_map.
  exists child. split; apply list_elem_of_In; assumption.
Qed.

(** Every path is [cur] followed by nodes below the tree. *)
Lemma iter_paths_below (tree : node) :
  forall here cur path,
    path ∈ _iter_paths tree here cur ->
    exists chain,
      path = cur ++ chain
      /\ forall r, r ∈ chain -> snd r ∈ descendants tree.
Proof.
  induction tree as [c fs a IH] using node_induction.
  intros here cur path Hpath. rewrite iter_paths_unfold in Hpath.
  destruct (iter_child_nodes (Node c fs a)) as [|c0 cs] eqn:Hchildren.
  - apply list_elem_of_singleton in Hpath. subst path. exists [].
    rewrite app_nil_r. split; [reflexivity|].
    intros r Hr. apply elem_of_nil in Hr. contradiction.
  - apply concat_indexed_elem in Hpath.
    destruct Hpath as (j & child & Hj & Hpath).
    assert (Hchild : child ∈ iter_child_nodes (Node c fs a))
      by (rewrite Hchildren; eapply list_elem_of_lookup_2; exact Hj).
    destruct (children_all_elem _ (Node c fs a) child IH Hchild _ _ _ Hpath)
      as (chain & -> & Hchain).
    exists ((here ++ [(0 + j)%nat], child) :: chain).
    rewrite <- app_assoc. split; [reflexivity|].
    intros r Hr. apply elem_of_cons in Hr. destruct Hr as [->|Hr].
    + apply (descendants_child _ child); [exact Hchild|].
      rewrite preorder_unfold. apply list_elem_of_here.
    + apply (descendants_child _ child); [exact Hchild|].
      rewrite preorder_unfold. apply list_elem_of_further.
      apply Hchain, Hr.
Qed.

Lemma iter_paths_nonempty (tree : node) :
  forall here cur, exists path, path ∈ _iter_paths tree here cur.
Proof.
  induction tree as [c fs a IH] using node_induction.
  intros here cur. rewrite iter_paths_unfold.
  destruct (iter_child_nodes (Node c fs a)) as [|c0 cs] eqn:Hchildren.
  - exists cur. apply list_elem_of_here.
  - assert (Hchild : c0 ∈ iter_child_nodes (Node c fs a))
      by (rewrite Hchildren; apply list_elem_of_here).
    destruct (children_all_elem _ (Node c fs a) c0 IH Hchild (here ++ [0%nat])
                (cur ++ [(here ++ [0%nat], c0)])) as [path Hpath].
    exists path. apply concat_indexed_elem. exists 0%nat, c0.
    split; [reflexivity|exact Hpath].
Qed.

(** Every node below the tree is on some path, after [cur]. *)
Lemma iter_paths_cover (tree : node) :
  forall here cur n,
    n ∈ descendants tree ->
    exists path chain,
      path ∈ _iter_paths tree here cur
      /\ path = cur ++ chain
      /\ n ∈ map snd chain.
Proof.
  induction tree as [c fs a IH] using node_induction.
  intros here cur n Hn. rewrite iter_paths_unfold.
  unfold descendants in Hn. apply list_elem_of_In, in_flat_map in Hn.
  destruct Hn as (child & Hchild & Hn).
  apply list_elem_of_In in Hchild. apply list_elem_of_In in Hn.
  destruct (list_elem_of_lookup_1 _ _ Hchild) as [j Hj].
  destruct (iter_child_nodes (Node c fs a)) as [|c0 cs] eqn:Hchildren;
    [discriminate|].
  rewrite <- Hchildren in Hchild.
  rewrite preorder_unfold in Hn. apply elem_of_cons in Hn.
  destruct Hn as [->|Hn].
  - destruct (iter_paths_nonempty child (here ++ [j])
                (cur ++ [(here ++ [j], child)])) as [path Hpath].
    destruct (iter_paths_below _ _ _ _ Hpath) as (chain & Heq & _).
    exists path, ((here ++ [j], child) :: chain).
    split; [|split].
    + apply concat_indexed_elem. exists j, child. split; [exact Hj|exact Hpath].
    + rewrite Heq, <- app_assoc. reflexivity.
    + apply list_elem_of_here.
  - destruct (children_all_elem _ (Node c fs a) child IH Hchild (here ++ [j])
                (cur ++ [(here ++ [j], child)]) n Hn)
      as (path & chain & Hpath & Heq & Hin).
    exists path, ((here ++ [j], child) :: chain).
    split; [|split].
    + apply concat_indexed_elem. exists j, child. split; [exact Hj|exact Hpath].
    + rewrite Heq, <- app_assoc. reflexivity.
    + cbn [map]. apply list_elem_of_further, Hin.
Qed.

(** [_get_path] returns the empty path exactly when no node below the root
    is on the line; otherwise the path starts with the root, goes on with
    nodes below the root only, and holds a node that is on the line. *)
Theorem get_path_line (tree : node) (lineno : Z) :
  (_get_path tree lineno = []
   <-> forall n c, n ∈ descendants tree -> attributes n <> Some (lineno, c))
  /\ (forall r path,
        _get_path tree lineno = r :: path ->
        r = ([], tree)
        /\ (forall x, x ∈ path -> snd x ∈ descendants tree)
        /\ exists x c, x ∈ path /\ attributes (snd x) = Some (lineno, c)).
Proof.
  unfold _get_path.
  assert (Hon : forall r, on_line lineno r = true
                          <-> exists c, attributes (snd r) = Some (lineno, c)).
  { intros r. unfold on_line. destruct (attributes (snd r)) as [[l c]|].
    - rewrite Z.eqb_eq. split.
      + intros ->. exists c. reflexivity.
      + intros (c' & [= -> _]). reflexivity.
    - split; [discriminate|]. intros (c & H). discriminate. }
  destruct (find (existsb (on_line lineno)) (_iter_paths tree [] []))
    as [path|] eqn:Hfind.
  - apply find_some in Hfind. destruct Hfind as [Hpath Hex].
    apply list_elem_of_In in Hpath.
    destruct (iter_paths_below _ _ _ _ Hpath) as (chain & Heq & Hchain).
    simpl in Heq. subst chain.
    apply existsb_exists in Hex. destruct Hex as (x & Hx & Hline).
    apply list_elem_of_In in Hx. apply Hon in Hline. destruct Hline as [c Hc].
    split.
    + split; [discriminate|]. intros Hnone. exfalso.
      exact (Hnone (snd x) c (Hchain x Hx) Hc).
    + intros r path' [= <- <-]. split; [reflexivity|].
      split; [exact Hchain|]. exists x, c. auto.
  - split; [|discriminate]. split; [|reflexivity].
    intros _ n c Hn Hc.
    destruct (iter_paths_cover tree [] [] n Hn) as (path & chain & Hpath & Heq & Hin).
    simpl in Heq. subst chain.
    apply list_elem_of_In in Hpath.
    pose proof (find_none _ _ Hfind path Hpath) as Hno.
    apply list_elem_of_fmap in Hin. destruct Hin as (x & -> & Hx).
    assert (Hyes : existsb (on_line lineno) path = true).
    { apply existsb_exists. exists x. split; [apply list_elem_of_In, Hx|].
      apply Hon. exists c. exact Hc. }
    congruence.
Qed.

Lemma get_path_line_witness :
  exists r path x c,
    _get_path simple_tree 4 = r :: path
    /\ r = ([], simple_tree)
    /\ x ∈ path /\ attributes (snd x) = Some (4, c).
Proof.
  destruct (_get_path simple_tree 4) as [|r path] eqn:H;
    [vm_compute in H; discriminate|].
  destruct (proj2 (get_path_line simple_tree 4) r path H)
    as (Hr & _ & x & c & Hx & Hc).
  exists r, path, x, c. auto.
Defined.

(** ** The scope of a name *)

(** [find_scope] returns the first scope of the list whose own collection,
    started afresh, binds the name, with that collection; it returns nothing
    when no scope of the list binds the name. *)
Lemma find_scope_innermost (variable : string) (cutoff : bound)
    (scopes : list ref) (found : option (ref * _AssignParser.t)) :
  Parser.find_scope variable scopes (_AssignParser.mk ∅ cutoff) = Ok found ->
  match found with
  | Some (scope, parser) =>
      exists inner outer,
        scopes = inner ++ scope :: outer
        /\ _AssignParser.visit (snd scope) (_AssignParser.mk ∅ cutoff)
           = Ok parser
        /\ is_Some (_AssignParser.variables parser !! variable)
        /\ forall s, s ∈ inner ->
             exists p, _AssignParser.visit (snd s) (_AssignParser.mk ∅ cutoff)
                       = Ok p
                       /\ _AssignParser.variables p !! variable = None
  | None =>
      forall s, s ∈ scopes ->
        exists p, _AssignParser.visit (snd s) (_AssignParser.mk ∅ cutoff)
                  = Ok p
                  /\ _AssignParser.variables p !! variable = None
  end.
Proof.
  revert found. induction scopes as [|scope scopes IH]; intros found H.
  - injection H as <-. intros s Hs. apply elem_of_nil in Hs. contradiction.
  - cbn [Parser.find_scope] in H.
    destruct (_AssignParser.visit (snd scope) (_AssignParser.mk ∅ cutoff))
      as [p|] eqn:Hvisit; [|discriminate].
    destruct (_AssignParser.variables p !! variable) as [nodes|] eqn:Hp.
    + injection H as <-. exists [], scopes. split; [reflexivity|].
      split; [exact Hvisit|]. split; [eexists; exact Hp|].
      intros s Hs. apply elem_of_nil in Hs. contradiction.
    + destruct (visit_extends _ _ _ Hvisit) as [Hcut _]. simpl in Hcut.
      rewrite Hcut in H. specialize (IH found H).
      destruct found as [[scope' parser]|].
      * destruct IH as (inner & outer & -> & Hv & Hsome & Hinner).
        exists (scope :: inner), outer. split; [reflexivity|].
        split; [exact Hv|]. split; [exact Hsome|].
        intros s Hs. apply elem_of_cons in Hs. destruct Hs as [->|Hs].
        -- exists p. auto.
        -- auto.
      * intros s Hs. apply elem_of_cons in Hs. destruct Hs as [->|Hs].
        -- exists p. auto.
        -- auto.
Qed.

Lemma find_scope_innermost_witness :
  exists scope parser inner outer,
    Parser.find_scope "outer"
      [([2%nat], py.FunctionDef 3 0 "func" (py.arguments [] None None [])
                   [py.Pass 4 4] []);
       ([], simple_tree)]
      (_AssignParser.mk ∅ Inf) = Ok (Some (scope, parser))
    /\ [([2%nat], py.FunctionDef 3 0 "func" (py.arguments [] None None [])
                    [py.Pass 4 4] []);
        ([], simple_tree)] = inner ++ scope :: outer
    /\ length inner = 1%nat.
Proof.
  destruct (Parser.find_scope "outer"
              [([2%nat], py.FunctionDef 3 0 "func"
                           (py.arguments [] None None []) [py.Pass 4 4] []);
               ([], simple_tree)]
              (_AssignParser.mk ∅ Inf)) as [[[scope parser]|]|] eqn:H;
    try (vm_compute in H; discriminate).
  destruct (find_scope_innermost _ _ _ _ H)
    as (inner & outer & Heq & _ & _ & _).
  exists scope, parser, inner, outer. split; [reflexivity|].
  split; [exact Heq|].
  vm_compute in H. injection H as <- _.
  destruct inner as [|i1 [|i2 inner]]; try reflexivity;
    injection Heq; intros; subst; try discriminate.
  destruct inner; discriminate.
Defined.

(** ** What the name visitor does to the tree *)

Lemma name_visit_unfold (n : node) (self : _NameParser.t) :
  _NameParser.visit n self
  = if isinstance n ["Name"] then _NameParser.visit_Name n self
    else if isinstance n ["FunctionDef"; "ClassDef"]
      then _NameParser._visit_def _NameParser.visit n self
    else _NameParser.generic_visit _NameParser.visit n self.
Proof. destruct n; reflexivity. Qed.

Lemma name_add_node_name (self self' : _NameParser.t) (n : node)
    (name : string) :
  _NameParser._add_node self n name = Ok self' ->
  _NameParser.name self' = _NameParser.name self.
Proof.
  unfold _NameParser._add_node. intros H.
  destruct (String.eqb name (_NameParser.name self)).
  - bind_inv H. injection H as <-. reflexivity.
  - injection H as <-. reflexivity.
Qed.

Lemma name_visit_children (fs : list (string * field node)) :
  children_all
    (fun m => forall s s' m',
         _NameParser.visit m s = Ok (s', m') ->
         m' = shift_definitions m
         /\ _NameParser.name s' = _NameParser.name s) fs ->
  forall s s' fs',
    _NameParser.visit_children _NameParser.visit fs s = Ok (s', fs') ->
    fs' = map (fun nf =>
                 (fst nf,
                  match snd nf with
                  | FNode m => FNode (shift_definitions m)
                  | FList ns => FList (map shift_definitions ns)
                  | FAtom x => FAtom x
                  end)) fs
    /\ _NameParser.name s' = _NameParser.name s.
Proof.
  intros Hall. induction Hall as [|[k f] fs Hf _ IH]; intros s s' fs' H.
  - injection H as <- <-. auto.
  - cbn [_NameParser.visit_children] in H. cbn [map fst snd].
    destruct f as [m|ns|x]; cbn [snd field_nodes] in Hf.
    + destruct (_NameParser.visit m s) as [[s1 m']|] eqn:Hm; [|discriminate].
      inversion Hf as [|? ? Hm0 _]; subst.
      destruct (Hm0 _ _ _ Hm) as [-> Hn1].
      fold (_NameParser.visit_children _NameParser.visit) in H.
      destruct (_NameParser.visit_children _NameParser.visit fs s1)
        as [[s2 fs2]|] eqn:Hrest; [|discriminate].
      injection H as <- <-. destruct (IH _ _ _ Hrest) as [-> Hn2].
      split; [reflexivity|congruence].
    + fold (_NameParser.visit_children _NameParser.visit) in H.
      match type of H with
      | match ?r with Ok _ => _ | Raise _ => _ end = _ =>
          destruct r as [[s1 f']|] eqn:Hlist; [|discriminate]
      end.
      assert (Hns : f' = FList (map shift_definitions ns)
                    /\ _NameParser.name s1 = _NameParser.name s).
      { clear H IH. revert s s1 f' Hlist.
        induction Hf as [|n ns Hn _ IHns]; intros s s1 f' Hlist.
        - injection Hlist as <- <-. auto.
        - destruct (_NameParser.visit n s) as [[s0 n']|] eqn:Hv;
            [|discriminate].
          match type of Hlist with
          | match ?r with Ok _ => _ | Raise _ => _ end = _ =>
              destruct r as [[s2 f2]|] eqn:Hrec; [|discriminate]
          end.
          injection Hlist as <- <-.
          destruct (Hn _ _ _ Hv) as [-> Hn1].
          destruct (IHns _ _ _ Hrec) as [-> Hn2].
          split; [reflexivity|congruence]. }
      destruct Hns as [-> Hn1].
      destruct (_NameParser.visit_children _NameParser.visit fs s1)
        as [[s2 fs2]|] eqn:Hrest; [|discriminate].
      injection H as <- <-. destruct (IH _ _ _ Hrest) as [-> Hn2].
      split; [reflexivity|congruence].
    + fold (_NameParser.visit_children _NameParser.visit) in H.
      destruct (_NameParser.visit_children _NameParser.visit fs s)
        as [[s2 fs2]|] eqn:Hrest; [|discriminate].
      injection H as <- <-. destruct (IH _ _ _ Hrest) as [-> Hn2].
      split; [reflexivity|congruence].
Qed.

(** A visit of [_NameParser] that returns leaves the tree with the column of
    every function definition it reached moved by 4 and that of every class
    definition by 6, and with nothing else changed; the name looked for
    stays the same. *)
Lemma name_visit_shifts_definitions (n : node) :
  forall s s' n',
    _NameParser.visit n s = Ok (s', n') ->
    n' = shift_definitions n /\ _NameParser.name s' = _NameParser.name s.
Proof.
  induction n as [c fs a IH] using node_induction. intros s s' n' H.
  rewrite name_visit_unfold in H. unfold isinstance in H.
  cbn [cls existsb] in H. cbn [shift_definitions].
  destruct (String.eqb c "Name") eqn:Ename; cbn [orb] in H.
  - unfold _NameParser.visit_Name in H. bind_inv H. injection H as <- <-.
    split; [reflexivity|]. eapply name_add_node_name; eauto.
  - destruct (String.eqb c "FunctionDef") eqn:Efun; cbn [orb] in H.
    + unfold _NameParser._visit_def, isinstance in H.
      cbn [cls existsb] in H. rewrite Efun in H. cbn [orb] in H.
      unfold _NameParser.bump in H. cbn [attributes cls fields] in H.
      destruct a as [[l col]|]; [|discriminate].
      bind_inv H. destruct a1 as [s2 fs2].
      injection H as <- <-. cbn [cls attributes].
      destruct (name_visit_children fs IH _ _ _ E1) as [-> Hn].
      split; [reflexivity|].
      rewrite Hn. eapply name_add_node_name; eauto.
    + destruct (String.eqb c "ClassDef") eqn:Ecls; cbn [orb] in H.
      * unfold _NameParser._visit_def, isinstance in H.
        cbn [cls existsb] in H. rewrite Efun, Ecls in H. cbn [orb] in H.
        unfold _NameParser.bump in H. cbn [attributes cls fields] in H.
        destruct a as [[l col]|]; [|discriminate].
        bind_inv H. destruct a1 as [s2 fs2].
        injection H as <- <-. cbn [cls attributes].
        destruct (name_visit_children fs IH _ _ _ E1) as [-> Hn].
        split; [reflexivity|].
        rewrite Hn. eapply name_add_node_name; eauto.
      * unfold _NameParser.generic_visit in H. cbn [fields cls attributes] in H.
        bind_inv H. destruct a0 as [s2 fs2]. injection H as <- <-.
        destruct (name_visit_children fs IH _ _ _ E) as [-> Hn].
        split; [|exact Hn]. destruct a as [[l col]|]; reflexivity.
Qed.

Lemma name_visit_shifts_definitions_witness :
  exists s' n',
    _NameParser.visit simple_tree (_NameParser.__init__ "outer") = Ok (s', n')
    /\ n' = shift_definitions simple_tree.
Proof.
  destruct (_NameParser.visit simple_tree (_NameParser.__init__ "outer"))
    as [[s' n']|] eqn:H; [|vm_compute in H; discriminate].
  exists s', n'. split; [reflexivity|].
  exact (proj1 (name_visit_shifts_definitions simple_tree _ s' n' H)).
Defined.

(** A call of [variable_indices] that returns never changes the text.  When
    it finds no scope it leaves the tree alone; when it finds one, the tree
    it leaves is the stored tree with the columns of the definitions inside
    that scope shifted. *)
Theorem variable_indices_tree (self self' : Parser.t) (index : Z)
    (pairs : list (Z * Z)) :
  Parser.variable_indices self index = Ok (pairs, self') ->
  Parser._source self' = Parser._source self
  /\ match Parser.resolve self index with
     | Ok (Some r) =>
         Parser._tree self'
         = replace_at (fst (Parser.scope_node r))
             (shift_definitions (snd (Parser.scope_node r)))
             (Parser._tree self)
     | _ => self' = self
     end.
Proof.
  unfold Parser.variable_indices. intros H.
  destruct (Parser.resolve self index) as [[r|]|]; cbn [mbind result_bind] in H.
  - destruct (_NameParser.visit _ _) as [[name_parser scope_node']|] eqn:Hv;
      [|discriminate].
    cbn [mbind result_bind] in H. injection H as _ <-.
    split; [reflexivity|]. cbn [Parser._tree].
    rewrite (proj1 (name_visit_shifts_definitions _ _ _ _ Hv)). reflexivity.
  - injection H as _ <-. auto.
  - discriminate.
Qed.

Lemma variable_indices_tree_witness :
  exists pairs self',
    Parser.variable_indices simple_parser 0 = Ok (pairs, self')
    /\ Parser._source self' = Parser._source simple_parser.
Proof.
  destruct (Parser.variable_indices simple_parser 0) as [[pairs self']|]
    eqn:H; [|vm_compute in H; discriminate].
  exists pairs, self'. split; [reflexivity|].
  exact (proj1 (variable_indices_tree simple_parser self' 0 pairs H)).
Defined.

(** ** Folding ranges, once more *)

(** A loop whose every iteration keeps [Inv] and shows [Q] of its element. *)
Lemma for_each_all {A S : Type} (Inv : S -> Prop) (Q : A -> Prop)
    (l : list A) (body : A -> S -> result S) :
  (forall x s s', x ∈ l -> Inv s -> body x s = Ok s' -> Inv s' /\ Q x) ->
  forall s s', Inv s -> for_each l body s = Ok s' -> Inv s' /\ Forall Q l.
Proof.
  induction l as [|x l IH]; intros Hbody s s' Hs H.
  - injection H as <-. split; [exact Hs|constructor].
  - rewrite for_each_cons in H.
    destruct (body x s) as [s1|] eqn:E; [|discriminate].
    destruct (Hbody x s s1 (list_elem_of_here _ _) Hs E) as [Hs1 Hx].
    destruct (IH (fun y s0 s2 Hy => Hbody y s0 s2 (list_elem_of_further _ _ _ Hy))
                 s1 s' Hs1 H) as [Hs' Hl].
    split; [exact Hs'|constructor; assumption].
Qed.

(** Every pair [nestable_lines] returns has its start at or before its
    end. *)
Theorem nestable_lines_ordered (self : Parser.t) (nests : list (Z * Z)) :
  Parser.nestable_lines self = Ok nests ->
  forall start_ end_, (start_, end_) ∈ nests -> start_ <= end_.
Proof.
  unfold Parser.nestable_lines. intros H. bind_inv H. cbv zeta in H.
  set (Inv := fun nests : list (Z * Z) =>
                forall start_ end_, (start_, end_) ∈ nests -> start_ <= end_).
  change (Inv nests).
  refine (for_each_invariant Inv _ _ _ _ _ H _).
  - intros walked s0 s1 _. apply (for_each_invariant Inv).
    intros subnode s2 s3 _ Hstep Hs2.
    destruct (isinstance subnode Parser.nestable);
      [|injection Hstep as <-; exact Hs2].
    cbv zeta in Hstep. unfold lineno in Hstep.
    destruct (attributes subnode) as [[l c]|] eqn:Ha; [|discriminate].
    cbn [mbind result_bind] in Hstep. injection Hstep as <-.
    intros start_ end_ Hin. apply elem_of_app in Hin.
    destruct Hin as [Hin|Hin]; [exact (Hs2 _ _ Hin)|].
    apply list_elem_of_singleton in Hin. injection Hin as -> ->.
    destruct (last_line_largest subnode) as [Hub _].
    apply (Hub subnode l c); [|exact Ha].
    rewrite preorder_unfold. apply list_elem_of_here.
  - intros start_ end_ Hin. apply elem_of_nil in Hin. contradiction.
Qed.

Lemma nestable_lines_ordered_witness :
  exists nests,
    Parser.nestable_lines simple_parser = Ok nests
    /\ forall start_ end_, (start_, end_) ∈ nests -> start_ <= end_.
Proof.
  destruct (Parser.nestable_lines simple_parser) as [nests|] eqn:H;
    [|vm_compute in H; discriminate].
  exists nests. split; [reflexivity|].
  exact (nestable_lines_ordered simple_parser nests H).
Defined.

(** ** Imports, once more *)

Section SourceModules.

Variable _parse_module : string -> result node.
Variable load_dynamic load_package : string -> result (list string).

(** Every module can be found and parsed from source. *)
Hypothesis parsed : forall name, exists tree, _parse_module name = Ok tree.

Lemma modules_visit_source (subnode : node) (st' : Parser.modules_state) :
  Parser.modules_visit _parse_module load_dynamic load_package subnode
    (∅, None) = Ok st' ->
  st' = (∅, None)
  /\ isinstance subnode ["Import"] = false
  /\ isinstance subnode ["ImportFrom"] = false.
Proof.
  unfold Parser.modules_visit. intros H.
  destruct (isinstance subnode ["Import"]).
  - bind_inv H. exfalso. unfold Parser.resolve_import in H.
    destruct (parsed a) as [tree Ht]. rewrite Ht in H. discriminate.
  - destruct (isinstance subnode ["ImportFrom"]).
    + exfalso. destruct (assoc "module" (fields subnode)); [|discriminate].
      bind_inv H. unfold Parser.resolve_import in H.
      destruct f as [?|?|[m| | |]]; try discriminate.
      destruct (parsed m) as [tree Ht]. rewrite Ht in H. discriminate.
    + injection H as <-. auto.
Qed.

(** On a host where every module is found and parsed from source,
    [modules()] returns only for a tree without import statements, and then
    returns the empty mapping: with an import statement anywhere in the tree
    it raises. *)
Theorem modules_of_source_modules (self : Parser.t) (body : list node)
    (m : gmap string (list string)) :
  getattr_list (Parser._tree self) "body" = Ok body ->
  Parser.modules _parse_module load_dynamic load_package self = Ok m ->
  m = ∅
  /\ forall n, n ∈ flat_map preorder body ->
               isinstance n ["Import"] = false
               /\ isinstance n ["ImportFrom"] = false.
Proof.
  intros Hbody Hm. unfold Parser.modules in Hm. bind_inv Hm.
  injection Hbody as ->. injection Hm as <-.
  set (Inv := fun st : Parser.modules_state => st = (∅, None)).
  set (Q := fun n : node => isinstance n ["Import"] = false
                            /\ isinstance n ["ImportFrom"] = false).
  assert (Hall : Inv a0 /\ Forall (fun node => Forall Q (walk node)) body).
  { refine (for_each_all Inv _ body _ _ (∅, None) a0 eq_refl E0).
    intros node s0 s1 _ Hs0 Hrun.
    refine (for_each_all Inv Q (walk node) _ _ s0 s1 Hs0 Hrun).
    intros subnode s2 s3 _ Hs2 Hstep. unfold Inv in Hs2. subst s2.
    destruct (modules_visit_source _ _ Hstep) as (-> & H1 & H2).
    split; [reflexivity|split; assumption]. }
  destruct Hall as [-> Hall]. split; [reflexivity|].
  intros n Hn. apply list_elem_of_In, in_flat_map in Hn.
  destruct Hn as (node & Hnode & Hn).
  rewrite Forall_forall in Hall.
  specialize (Hall node (proj2 (list_elem_of_In _ _) Hnode)).
  rewrite Forall_forall in Hall. apply Hall.
  rewrite walk_perm. apply list_elem_of_In, Hn.
Qed.

End SourceModules.

Lemma modules_of_source_modules_witness :
  Parser.modules (fun _ => Ok simple_tree) extension_dir extension_dir
    simple_parser = Ok ∅
  /\ forall n, n ∈ flat_map preorder
                     (match getattr_list simple_tree "body" with
                      | Ok body => body
                      | Raise _ => []
                      end) ->
               isinstance n ["Import"] = false
               /\ isinstance n ["ImportFrom"] = false.
Proof.
  assert (Hrun : Parser.modules (fun _ => Ok simple_tree) extension_dir
                   extension_dir simple_parser = Ok ∅)
    by (vm_compute; reflexivity).
  split; [exact Hrun|].
  refine (proj2 (modules_of_source_modules (fun _ => Ok simple_tree)
                   extension_dir extension_dir _ simple_parser _ ∅
                   eq_refl Hrun)).
  intros name. exists simple_tree. reflexivity.
Defined.

(** ** When [documentation] raises *)

Lemma enumerate_bound {A : Type} (l : list A) (i : Z) (x : A) :
  (i, x) ∈ Parser.enumerate l -> 0 <= i <= len l - 1 /\ x ∈ l.
Proof.
  unfold Parser.enumerate. intros H. apply elem_of_lookup_imap in H.
  destruct H as (j & y & [= -> ->] & Hj).
  pose proof (lookup_lt_Some _ _ _ Hj). unfold len.
  split; [lia|]. eapply list_elem_of_lookup_2. exact Hj.
Qed.

Lemma enumerate_elem {A : Type} (l : list A) (x : A) :
  x ∈ l -> exists i, (i, x) ∈ Parser.enumerate l.
Proof.
  intros H. apply list_elem_of_lookup_1 in H. destruct H as [j Hj].
  exists (Z.of_nat j). unfold Parser.enumerate.
  apply (elem_of_lookup_imap_2 (fun i x => (Z.of_nat i, x)) l x j Hj).
Qed.

Section Documentation.

Variable cleandoc : string -> string.

(** The loop over the functions leaves a string for each function name and
    for nothing else. *)
Lemma format_functions_loop (N : Z) (L : list (Z * (string * node))) :
  forall acc fs,
    for_each L
      (fun '(i, (name, node)) (functions : gmap string string) =>
         s ← Parser.def_string cleandoc node name;
         if i <=? N
         then Ok (<[name := (s ++ Parser.newline ++ Parser.newline)%string]>
                    functions)
         else Ok (<[name := s]> functions))
      acc = Ok fs ->
    forall name,
      is_Some (fs !! name)
      <-> is_Some (acc !! name) \/ exists i node, (i, (name, node)) ∈ L.
Proof.
  induction L as [|[i [n0 node0]] L IH]; intros acc fs H name.
  - injection H as <-. split; [auto|]. intros [H|(i & node & H)]; [exact H|].
    apply elem_of_nil in H. contradiction.
  - rewrite for_each_cons in H.
    match type of H with
    | match ?r with Ok _ => _ | Raise _ => _ end = _ =>
        destruct r as [acc'|] eqn:Hstep; [|discriminate]
    end.
    rewrite (IH _ _ H name).
    assert (Hacc : is_Some (acc' !! name)
                   <-> n0 = name \/ is_Some (acc !! name)).
    { bind_inv Hstep. destruct (i <=? N); injection Hstep as <-;
        rewrite lookup_insert_is_Some;
        destruct (decide (n0 = name)); tauto. }
    rewrite Hacc. split.
    + intros [[->|Hs]|(j & node & Hin)].
      * right. exists i, node0. apply list_elem_of_here.
      * left. exact Hs.
      * right. exists j, node. apply list_elem_of_further, Hin.
    + intros [Hs|(j & node & Hin)]; [auto|].
      apply elem_of_cons in Hin. destruct Hin as [[= -> -> ->]|Hin]; [auto|].
      right. exists j, node. exact Hin.
Qed.

Lemma format_functions_keys (fn : gmap string node) (fs : gmap string string) :
  Parser.format_functions cleandoc fn = Ok fs ->
  forall name, is_Some (fs !! name) <-> is_Some (fn !! name).
Proof.
  unfold Parser.format_functions. intros H name.
  rewrite (format_functions_loop _ _ _ _ H name). split.
  - intros [[x Hx]|(i & node & Hin)].
    + rewrite lookup_empty in Hx. discriminate.
    + apply enumerate_bound in Hin. destruct Hin as [_ Hin].
      apply elem_of_map_to_list in Hin. eexists. exact Hin.
  - intros [node Hnode]. right.
    apply elem_of_map_to_list in Hnode.
    destruct (enumerate_elem _ _ Hnode) as [i Hi]. exists i, node. exact Hi.
Qed.

(** The loop over the classes raises [KeyError] when some class name has no
    entry in [functions], and returns otherwise. *)
Lemma format_classes_loop (N : Z) (L : list (Z * (string * node))) :
  (forall i name node, (i, (name, node)) ∈ L ->
                       i <= N
                       /\ exists s, Parser.def_string cleandoc node name = Ok s) ->
  forall classes functions,
    match
      for_each L
        (fun '(i, (name, node))
             '((classes, functions) : gmap string string * gmap string string) =>
           s ← Parser.def_string cleandoc node name;
           let classes := <[name := s]> classes in
           if i <=? N then
             match functions !! name with
             | Some f =>
                 Ok (classes,
                     <[name := (f ++ Parser.newline ++ Parser.newline)%string]>
                       functions)
             | None => Raise KeyError
             end
           else Ok (classes, functions))
        (classes, functions)
    with
    | Ok _ =>
        forall i name node, (i, (name, node)) ∈ L -> is_Some (functions !! name)
    | Raise e =>
        e = KeyError
        /\ exists i name node, (i, (name, node)) ∈ L /\ functions !! name = None
    end.
Proof.
  induction L as [|[i [n0 node0]] L IH]; intros Hwf classes functions.
  - simpl. intros i name node H. apply elem_of_nil in H. contradiction.
  - rewrite for_each_cons.
    destruct (Hwf i n0 node0 (list_elem_of_here _ _)) as [Hi [s Hs]].
    rewrite Hs. cbn [mbind result_bind]. cbv zeta.
    destruct (Z.leb_spec i N); [|lia].
    destruct (functions !! n0) as [f|] eqn:Hf.
    + specialize (IH (fun j name node Hin =>
                        Hwf j name node (list_elem_of_further _ _ _ Hin))
                     (<[n0 := s]> classes)
                     (<[n0 := (f ++ Parser.newline ++ Parser.newline)%string]>
                        functions)).
      destruct (for_each L _ _) as [[c' f']|e].
      * intros j name node Hin. apply elem_of_cons in Hin.
        destruct Hin as [[= -> -> ->]|Hin]; [eexists; exact Hf|].
        specialize (IH j name node Hin).
        apply lookup_insert_is_Some in IH.
        destruct IH as [<-|[_ IH]]; [eexists; exact Hf|exact IH].
      * destruct IH as (-> & j & name & node & Hin & Hnone).
        split; [reflexivity|]. exists j, name, node.
        split; [apply list_elem_of_further, Hin|].
        rewrite lookup_insert in Hnone.
        destruct (decide (n0 = name)); [discriminate|exact Hnone].
    + split; [reflexivity|]. exists i, n0, node0.
      split; [apply list_elem_of_here|exact Hf].
Qed.

(** When the first loop has gone through and every class has a title,
    [documentation()] raises [KeyError] if some top-level class has a name
    that no top-level function has, and returns a string otherwise. *)
Theorem documentation_key_error (self : Parser.t) (fn cn : gmap string node)
    (fs : gmap string string) :
  Parser.definitions_named self "FunctionDef" = Ok fn ->
  Parser.format_functions cleandoc fn = Ok fs ->
  Parser.definitions_named self "ClassDef" = Ok cn ->
  (forall name node, cn !! name = Some node ->
                     exists s, Parser.def_string cleandoc node name = Ok s) ->
  ((exists name, is_Some (cn !! name) /\ fn !! name = None) ->
   Parser.documentation cleandoc self = Raise KeyError)
  /\ ((forall name, is_Some (cn !! name) -> is_Some (fn !! name)) ->
      exists s, Parser.documentation cleandoc self = Ok s).
Proof.
  intros Hfn Hfs Hcn Hwf.
  pose proof (format_functions_keys _ _ Hfs) as Hkeys.
  unfold Parser.documentation. rewrite Hfn. cbn [mbind result_bind].
  rewrite Hfs. cbn [mbind result_bind]. rewrite Hcn. cbn [mbind result_bind].
  unfold Parser.format_classes.
  pose proof (format_classes_loop
                (len (map_to_list cn) - 1)
                (Parser.enumerate (map_to_list cn))) as Hloop.
  assert (Hpre : forall i name node,
             (i, (name, node)) ∈ Parser.enumerate (map_to_list cn) ->
             i <= len (map_to_list cn) - 1
             /\ exists s, Parser.def_string cleandoc node name = Ok s).
  { intros i name node Hin. apply enumerate_bound in Hin.
    destruct Hin as [Hi Hin]. split; [lia|].
    apply elem_of_map_to_list in Hin. eauto. }
  specialize (Hloop Hpre ∅ fs).
  match type of Hloop with
  | match ?r with Ok _ => _ | Raise _ => _ end => destruct r as [[c' f']|e]
  end.
  - split.
    + intros (name & [node Hnode] & Hnone). exfalso.
      apply elem_of_map_to_list in Hnode.
      destruct (enumerate_elem _ _ Hnode) as [i Hi].
      specialize (Hloop i name node Hi). apply Hkeys in Hloop.
      rewrite Hnone in Hloop. destruct Hloop; discriminate.
    + intros _. eexists. reflexivity.
  - destruct Hloop as (-> & i & name & node & Hin & Hnone). split.
    + intros _. reflexivity.
    + intros Hall. exfalso.
      apply enumerate_bound in Hin. destruct Hin as [_ Hin].
      apply elem_of_map_to_list in Hin.
      specialize (Hall name (ex_intro _ node Hin)). apply Hkeys in Hall.
      rewrite Hnone in Hall. destruct Hall; discriminate.
Qed.

End Documentation.

Lemma documentation_key_error_witness :
  exists fn fs cn,
    Parser.definitions_named (Parser.mk class_tree class_source) "FunctionDef"
    = Ok fn
    /\ Parser.format_functions (fun s => s) fn = Ok fs
    /\ Parser.definitions_named (Parser.mk class_tree class_source) "ClassDef"
       = Ok cn
    /\ is_Some (cn !! "A") /\ fn !! "A" = None
    /\ Parser.documentation (fun s => s) (Parser.mk class_tree class_source)
       = Raise KeyError.
Proof.
  exists ∅, ∅, {[ "A" := py.ClassDef 1 0 "A" [] [py.Pass 2 4] [] ]}.
  assert (H1 : Parser.definitions_named (Parser.mk class_tree class_source)
                 "FunctionDef" = Ok ∅) by (vm_compute; reflexivity).
  assert (H2 : Parser.format_functions (fun s => s) ∅
               = Ok (∅ : gmap string string)) by reflexivity.
  assert (H3 : Parser.definitions_named (Parser.mk class_tree class_source)
                 "ClassDef"
               = Ok {[ "A" := py.ClassDef 1 0 "A" [] [py.Pass 2 4] [] ]})
    by (vm_compute; reflexivity).
  assert (H4 : is_Some (({[ "A" := py.ClassDef 1 0 "A" [] [py.Pass 2 4] [] ]}
                         : gmap string node) !! "A"))
    by (eexists; reflexivity).
  assert (H5 : (∅ : gmap string node) !! "A" = None) by reflexivity.
  repeat (split; [assumption|]).
  refine (proj1 (documentation_key_error (fun s => s) _ _ _ _ H1 H2 H3 _)
            (ex_intro _ "A" (conj H4 H5))).
  intros name node Hl.
  destruct (decide (name = "A")) as [->|Hne].
  - rewrite lookup_singleton_eq in Hl. injection Hl as <-.
    eexists. vm_compute. reflexivity.
  - rewrite lookup_singleton_ne in Hl by congruence. discriminate.
Defined.

(** ** The end and the title of a definition *)

Lemma nth_error_list_lookup {A : Type} (l : list A) (i : nat) :
  nth_error l i = l !! i.
Proof.
  revert i. induction l as [|x l IH]; intros [|i]; try reflexivity.
  simpl. apply IH.
Qed.

(** [_node_end] returns the largest line of the subtree of the node, which
    some node of the subtree has; for a node whose line is not negative this
    is the end that [nestable_lines] computes for it. *)
Theorem node_end_largest (n : node) (e : Z) :
  _DefinitionParser._node_end n = Ok e ->
  (forall m l c, m ∈ preorder n -> attributes m = Some (l, c) -> l <= e)
  /\ (exists m c, m ∈ preorder n /\ attributes m = Some (e, c))
  /\ (0 <= line_of n -> e = Parser.last_line n).
Proof.
  unfold _DefinitionParser._node_end, lineno, line_of. intros H.
  destruct (attributes n) as [[l0 c0]|] eqn:Ha; [|discriminate].
  cbn [mbind result_bind] in H. injection H as <-.
  destruct (last_line_fold (walk n) l0) as (Hle & Hub & Hat).
  cbv zeta in Hle, Hub, Hat.
  set (e := fold_left _ (walk n) l0) in *.
  assert (Hroot : n ∈ preorder n)
    by (rewrite preorder_unfold; apply list_elem_of_here).
  assert (Hub' : forall m l c, m ∈ preorder n ->
                               attributes m = Some (l, c) -> l <= e).
  { intros m l c Hm. apply (Hub m l c). rewrite walk_perm. exact Hm. }
  assert (Hat' : exists m c, m ∈ preorder n /\ attributes m = Some (e, c)).
  { destruct Hat as [Hr|(m & c & Hm & Hc)].
    - exists n, c0. split; [exact Hroot|]. rewrite Hr. exact Ha.
    - exists m, c. split; [|exact Hc]. rewrite <- walk_perm. exact Hm. }
  split; [exact Hub'|]. split; [exact Hat'|].
  intros Hl0. destruct (last_line_largest n) as [Lub Lat].
  destruct Hat' as (m & c & Hm & Hc).
  pose proof (Lub m e c Hm Hc). pose proof (Lub n l0 c0 Hroot Ha).
  destruct Lat as [Hz|(m' & c' & Hm' & Hc')].
  - lia.
  - pose proof (Hub' m' _ c' Hm' Hc'). lia.
Qed.

Lemma node_end_largest_witness :
  _DefinitionParser._node_end param_function = Ok 2
  /\ 2 = Parser.last_line param_function.
Proof.
  assert (H : _DefinitionParser._node_end param_function = Ok 2)
    by (vm_compute; reflexivity).
  split; [exact H|].
  apply (proj2 (proj2 (node_end_largest param_function 2 H))).
  vm_compute. discriminate.
Defined.

Lemma find_title_first (prefix : text) (lines : list text) :
  forall lineno,
    let r := _DefinitionParser.find_title lines prefix lineno in
    lineno <= r <= lineno + len lines
    /\ (forall k line, (Z.of_nat k < r - lineno) ->
                       lines !! k = Some line ->
                       startswith (strip line) prefix = false)
    /\ (r < lineno + len lines ->
        exists line, lines !! Z.to_nat (r - lineno) = Some line
                     /\ startswith (strip line) prefix = true).
Proof.
  induction lines as [|line rest IH]; intros lineno; cbn [_DefinitionParser.find_title].
  - cbv zeta. unfold len. cbn [length]. split; [lia|]. split; [|lia].
    intros k line _ Hk. discriminate.
  - replace (len (line :: rest)) with (len rest + 1)
      by (unfold len; cbn [length]; lia).
    pose proof (len_nonneg rest).
    destruct (startswith (strip line) prefix) eqn:Hs; cbv zeta.
    + split; [lia|]. split; [intros k l Hk; lia|].
      intros _. exists line. rewrite Z.sub_diag. split; [reflexivity|exact Hs].
    + specialize (IH (lineno + 1)). cbv zeta in IH.
      destruct IH as (Hr & Hbefore & Hfound).
      split; [lia|]. split.
      * intros [|k] l Hk Hl.
        -- injection Hl as <-. exact Hs.
        -- apply (Hbefore k l); [lia|exact Hl].
      * intros Hlt. destruct (Hfound ltac:(lia)) as (l & Hl & Hp).
        exists l. split; [|exact Hp].
        replace (Z.to_nat (_DefinitionParser.find_title rest prefix (lineno + 1)
                           - lineno))
          with (S (Z.to_nat (_DefinitionParser.find_title rest prefix
                               (lineno + 1) - (lineno + 1)))) by lia.
        exact Hl.
Qed.

(** The range [_visit_def] gives a definition starts at the first line, from
    the line of the node on, that begins with the keyword once stripped, and
    ends at the largest line of the node's subtree; the type is the one
    asked for. *)
Theorem visit_def_range (cleandoc : string -> string)
    (self : _DefinitionParser.t) (n : node) (def_type : string)
    (d : _Definition) :
  1 <= line_of n ->
  _DefinitionParser._visit_def cleandoc self n def_type = Ok d ->
  let lines := splitlines false (_DefinitionParser._source self) in
  let prefix :=
    if isinstance n ["FunctionDef"] then u "def " else u "class " in
  line_of n <= fst (range d)
  /\ (exists line, lines !! Z.to_nat (fst (range d) - 1) = Some line
                   /\ startswith (strip line) prefix = true)
  /\ (forall l line, line_of n <= l < fst (range d) ->
                     lines !! Z.to_nat (l - 1) = Some line ->
                     startswith (strip line) prefix = false)
  /\ _DefinitionParser._node_end n
     = Ok (fst (range d) + snd (range d) - 1)
  /\ type d = def_type.
Proof.
  intros Hline H lines prefix. unfold _DefinitionParser._visit_def in H.
  assert (Hprefix : exists p, (if isinstance n ["FunctionDef"] then Ok (u "def ")
                               else if isinstance n ["ClassDef"]
                                    then Ok (u "class ")
                                    else Raise ValueError) = Ok p
                              /\ p = prefix).
  { unfold prefix. destruct (isinstance n ["FunctionDef"]); [eauto|].
    destruct (isinstance n ["ClassDef"]); [eauto|].
    cbn [mbind result_bind] in H. discriminate. }
  destruct Hprefix as (p & Hp & ->). rewrite Hp in H.
  cbn [mbind result_bind] in H.
  unfold lineno, line_of in *.
  destruct (attributes n) as [[l0 c0]|] eqn:Ha; [|discriminate].
  cbn [mbind result_bind] in H. cbv zeta in H. fold lines in H.
  pose proof (find_title_first prefix (slice_from lines (l0 - 1)) l0) as Hft.
  cbv zeta in Hft.
  set (r := _DefinitionParser.find_title (slice_from lines (l0 - 1)) prefix l0)
    in *.
  destruct (getitem lines (r - 1)) as [line|] eqn:Hget; [|discriminate].
  bind_inv H. bind_inv H. injection H as <-. cbn [range type fst snd].
  destruct Hft as (Hr & Hbefore & Hfound).
  unfold slice_from in Hr, Hbefore, Hfound.
  destruct (Z.ltb_spec (l0 - 1) 0); [lia|].
  unfold getitem in Hget. destruct (Z.ltb_spec (r - 1) 0); [lia|].
  rewrite nth_error_list_lookup in Hget.
  pose proof (lookup_lt_Some _ _ _ Hget) as Hlen.
  unfold len in Hr, Hfound. rewrite length_skipn in Hr, Hfound.
  split; [lia|]. split; [|split; [|split]].
  - destruct (Hfound ltac:(lia)) as (l & Hl & Hs).
    exists l. split; [|exact Hs].
    rewrite lookup_drop in Hl.
    replace (Z.to_nat (r - 1)) with (Z.to_nat (l0 - 1) + Z.to_nat (r - l0))%nat
      by lia.
    exact Hl.
  - intros l ln Hl Hln.
    apply (Hbefore (Z.to_nat (l - l0)) ln); [lia|].
    rewrite lookup_drop.
    replace (Z.to_nat (l0 - 1) + Z.to_nat (l - l0))%nat with (Z.to_nat (l - 1))
      by lia.
    exact Hln.
  - f_equal. lia.
  - reflexivity.
Qed.

Lemma visit_def_range_witness :
  exists d,
    1 <= line_of param_function
    /\ _DefinitionParser._visit_def (fun s => s)
         (_DefinitionParser.__init__ (Parser._source param_parser))
         param_function "function" = Ok d
    /\ line_of param_function <= fst (range d)
    /\ type d = "function".
Proof.
  destruct (_DefinitionParser._visit_def (fun s => s)
              (_DefinitionParser.__init__ (Parser._source param_parser))
              param_function "function") as [d|] eqn:H;
    [|vm_compute in H; discriminate].
  exists d.
  assert (Hl : 1 <= line_of param_function) by (vm_compute; discriminate).
  pose proof (visit_def_range (fun s => s) _ _ _ _ Hl H) as Hrange.
  cbv zeta in Hrange.
  split; [exact Hl|]. split; [reflexivity|].
  split; [exact (proj1 Hrange)|].
  exact (proj2 (proj2 (proj2 (proj2 Hrange)))).
Defined.

(** ** The targets of assignments and loops *)

Lemma children_all_forall (P : node -> Prop) (fs : list (string * field node)) :
  (forall m, P m) -> children_all P fs.
Proof.
  intros H. unfold children_all. apply Forall_forall. intros nf _.
  apply Forall_forall. intros m _. apply H.
Qed.

Lemma generic_visit_keeps (n : node) (s s' : _AssignParser.t) :
  _AssignParser.generic_visit _AssignParser.visit n s = Ok s' -> extends s s'.
Proof.
  apply generic_visit_extends, children_all_forall.
  intros m s0 s1. apply visit_extends.
Qed.

Lemma target_bound_extends (target : node) (s s' : _AssignParser.t) :
  extends s s' -> target_bound target s -> target_bound target s'.
Proof.
  intros [_ Hext] [Hname Htuple]. split.
  - intros name l c Hid Ha. apply Hext. eauto.
  - intros elts elt name l c Hno Ht Helts Helt Hid Ha. apply Hext. eauto.
Qed.

Lemma visit_assign_target_bound (target : node) (s s' : _AssignParser.t) :
  _AssignParser._visit_assign_target target s = Ok s' ->
  target_bound target s'.
Proof.
  unfold _AssignParser._visit_assign_target. intros H. split.
  - intros name l c Hid Ha. rewrite Hid in H.
    eapply add_node_bound; eauto.
  - intros elts elt name l c Hno Ht Helts Helt Hid Ha.
    destruct (getattr_str target "id") as [name0|e];
      [exfalso; exact (Hno name0 eq_refl)|].
    rewrite Ht, Helts in H. cbn [mbind result_bind] in H.
    apply list_elem_of_split in Helt. destruct Helt as (e1 & e2 & ->).
    eapply add_ids_bound; eauto.
Qed.

(** When the collector visits an assignment, or a [for] statement, whose
    line is not after the cutoff, and the visit returns, every target of the
    statement is bound: a name at its position, the names of a tuple at the
    positions of its elements. *)
Theorem targets_bound (n target : node) (s s' : _AssignParser.t) :
  _AssignParser.guard n s = true ->
  (cls n = "Assign"
   /\ exists targets, getattr_list n "targets" = Ok targets /\ target ∈ targets)
  \/ (cls n = "For" /\ getattr_node n "target" = Ok target) ->
  _AssignParser.visit n s = Ok s' ->
  target_bound target s'.
Proof.
  intros Hguard Hn H. rewrite visit_unfold, Hguard in H.
  unfold _AssignParser.dispatch in H.
  destruct Hn as [(Hc & targets & Htargets & Htarget)|(Hc & Htarget)];
    rewrite !(isinstance_cls n _ Hc) in H;
    cbn [existsb String.eqb Ascii.eqb Bool.eqb orb andb] in H.
  - unfold _AssignParser.visit_Assign in H. rewrite Htargets in H.
    cbn [mbind result_bind] in H. bind_inv H.
    apply (target_bound_extends target a s' (generic_visit_keeps _ _ _ H)).
    apply list_elem_of_split in Htarget. destruct Htarget as (t1 & t2 & ->).
    rewrite for_each_app in E. bind_inv E. rewrite for_each_cons in E.
    bind_inv E.
    apply (target_bound_extends target a1 a).
    + revert E. apply for_each_extends.
      intros x s0 s1. apply visit_assign_target_extends.
    + eapply visit_assign_target_bound; eauto.
  - unfold _AssignParser.visit_For in H. rewrite Htarget in H.
    cbn [mbind result_bind] in H. bind_inv H.
    apply (target_bound_extends target a s' (generic_visit_keeps _ _ _ H)).
    eapply visit_assign_target_bound; eauto.
Qed.

Lemma targets_bound_witness :
  exists s',
    _AssignParser.visit
      (py.Assign 1 0 [py.Name 1 0 "outer" "Store"] (py.Num 1 8 1))
      (_AssignParser.__init__ (Fin 1)) = Ok s'
    /\ (1, 0) ∈ bindings s' "outer".
Proof.
  destruct (_AssignParser.visit
              (py.Assign 1 0 [py.Name 1 0 "outer" "Store"] (py.Num 1 8 1))
              (_AssignParser.__init__ (Fin 1))) as [s'|] eqn:H;
    [|vm_compute in H; discriminate].
  exists s'. split; [reflexivity|].
  refine (proj1 (targets_bound _ (py.Name 1 0 "outer" "Store") _ s' _ _ H)
            "outer" 1 0 eq_refl eq_refl).
  - reflexivity.
  - left. split; [reflexivity|].
    exists [py.Name 1 0 "outer" "Store"].
    split; [reflexivity|apply list_elem_of_here].
Defined.

(** ** The occurrences the name visitor records *)

Lemma elem_of_set_add {A : Type} `{EqDecision A} (x y : A) (l : list A) :
  y ∈ set_add x l <-> y = x \/ y ∈ l.
Proof.
  unfold set_add. destruct (decide (x ∈ l)) as [Hin|Hout].
  - split; [auto|]. intros [->|H]; assumption.
  - rewrite elem_of_app, list_elem_of_singleton. tauto.
Qed.

Lemma children_all_intro (P : node -> Prop) (n : node) :
  (forall child, child ∈ iter_child_nodes n -> P child) ->
  children_all P (fields n).
Proof.
  intros H. unfold children_all. apply Forall_forall. intros nf Hnf.
  apply Forall_forall. intros m Hm. apply H. unfold iter_child_nodes.
  apply list_elem_of_In, in_flat_map. exists nf.
  split; apply list_elem_of_In; assumption.
Qed.

Section NameChildren.

Variable R : _NameParser.t -> _NameParser.t -> Prop.
Hypothesis R_refl : forall s, R s s.
Hypothesis R_trans : forall s1 s2 s3, R s1 s2 -> R s2 s3 -> R s1 s3.

(** What holds of the visit of each child holds of the visit of all of
    them. *)
Lemma name_visit_children_rel (fs : list (string * field node)) :
  children_all
    (fun m => forall s s' m', _NameParser.visit m s = Ok (s', m') -> R s s')
    fs ->
  forall s s' fs',
    _NameParser.visit_children _NameParser.visit fs s = Ok (s', fs') ->
    R s s'.
Proof.
  intros Hall. induction Hall as [|[k f] fs Hf _ IH]; intros s s' fs' H.
  - injection H as <- _. apply R_refl.
  - cbn [_NameParser.visit_children] in H.
    fold (_NameParser.visit_children _NameParser.visit) in H.
    destruct f as [m|ns|x]; cbn [snd field_nodes] in Hf.
    + destruct (_NameParser.visit m s) as [[s1 m']|] eqn:Hm; [|discriminate].
      inversion Hf as [|? ? Hm0 _]; subst.
      destruct (_NameParser.visit_children _NameParser.visit fs s1)
        as [[s2 fs2]|] eqn:Hrest; [|discriminate].
      injection H as <- _. eauto.
    + match type of H with
      | match ?r with Ok _ => _ | Raise _ => _ end = _ =>
          destruct r as [[s1 f']|] eqn:Hlist; [|discriminate]
      end.
      assert (Hns : R s s1).
      { clear H IH. revert s s1 f' Hlist.
        induction Hf as [|n ns Hn _ IHns]; intros s s1 f' Hlist.
        - injection Hlist as <- _. apply R_refl.
        - destruct (_NameParser.visit n s) as [[s0 n']|] eqn:Hv;
            [|discriminate].
          match type of Hlist with
          | match ?r with Ok _ => _ | Raise _ => _ end = _ =>
              destruct r as [[s2 f2]|] eqn:Hrec; [|discriminate]
          end.
          injection Hlist as <- _. eauto. }
      destruct (_NameParser.visit_children _NameParser.visit fs s1)
        as [[s2 fs2]|] eqn:Hrest; [|discriminate].
      injection H as <- _. eauto.
    + destruct (_NameParser.visit_children _NameParser.visit fs s)
        as [[s2 fs2]|] eqn:Hrest; [|discriminate].
      injection H as <- _. eauto.
Qed.

End NameChildren.

Lemma occurs_child (name : string) (n child : node) (p : _VariableNode) :
  child ∈ iter_child_nodes n -> occurs name child p -> occurs name n p.
Proof.
  intros Hc (m & l & c & Hm & Ha & Hkind). exists m, l, c.
  split; [|split; assumption].
  rewrite preorder_unfold. apply list_elem_of_further.
  apply list_elem_of_In, in_flat_map. exists child.
  split; apply list_elem_of_In; assumption.
Qed.

Lemma name_add_node_names (self self' : _NameParser.t) (n : node)
    (name' : string) :
  _NameParser._add_node self n name' = Ok self' ->
  _NameParser.name self' = _NameParser.name self
  /\ (forall p, p ∈ _NameParser.names self -> p ∈ _NameParser.names self')
  /\ (forall p, p ∈ _NameParser.names self' ->
                p ∈ _NameParser.names self
                \/ (name' = _NameParser.name self
                    /\ attributes n = Some p)).
Proof.
  unfold _NameParser._add_node, lineno, col_offset. intros H.
  destruct (String.eqb_spec name' (_NameParser.name self)) as [Heq|Hne].
  - destruct (attributes n) as [[l c]|]; [|discriminate].
    cbn [mbind result_bind] in H. injection H as <-.
    cbn [_NameParser.name _NameParser.names].
    split; [reflexivity|]. split.
    + intros p Hp. apply elem_of_set_add. auto.
    + intros p Hp. apply elem_of_set_add in Hp.
      destruct Hp as [->|Hp]; auto.
  - injection H as <-. auto.
Qed.

(** A visit of [_NameParser] that returns keeps the positions it held, and
    every position it adds is that of an occurrence of its name in the
    visited subtree: of a [Name] node with this [id], or of a function or
    class definition with this name, moved past the keyword. *)
Lemma name_visit_occurrences (n : node) :
  forall s s' n',
    _NameParser.visit n s = Ok (s', n') ->
    _NameParser.name s' = _NameParser.name s
    /\ (forall p, p ∈ _NameParser.names s -> p ∈ _NameParser.names s')
    /\ (forall p, p ∈ _NameParser.names s' ->
                  p ∈ _NameParser.names s
                  \/ occurs (_NameParser.name s) n p).
Proof.
  induction n as [c fs a IH] using node_induction. intros s s' n' H.
  set (N := Node c fs a) in *.
  set (R := fun s0 s1 : _NameParser.t =>
              _NameParser.name s1 = _NameParser.name s0
              /\ (forall p, p ∈ _NameParser.names s0 ->
                            p ∈ _NameParser.names s1)
              /\ (forall p, p ∈ _NameParser.names s1 ->
                            p ∈ _NameParser.names s0
                            \/ exists child,
                                 child ∈ iter_child_nodes N
                                 /\ occurs (_NameParser.name s0) child p)).
  assert (Hroot : N ∈ preorder N)
    by (rewrite preorder_unfold; apply list_elem_of_here).
  assert (Hchildren : forall s0 s1 fs',
             _NameParser.visit_children _NameParser.visit fs s0 = Ok (s1, fs') ->
             R s0 s1).
  { apply (name_visit_children_rel R).
    - intros s0. split; [reflexivity|]. split; auto.
    - intros s1 s2 s3 (Hn1 & Hk1 & Ha1) (Hn2 & Hk2 & Ha2).
      split; [congruence|]. split; [auto|].
      intros p Hp. destruct (Ha2 p Hp) as [Hp2|(child & Hc & Ho)].
      + auto.
      + right. exists child. split; [exact Hc|]. rewrite <- Hn1. exact Ho.
    - apply (children_all_intro _ N). intros child Hchild s0 s1 m' Hv.
      destruct (children_all_elem _ N child IH Hchild _ _ _ Hv)
        as (Hn & Hk & Ha).
      split; [exact Hn|]. split; [exact Hk|].
      intros p Hp. destruct (Ha p Hp) as [Hp0|Ho]; [auto|].
      right. exists child. auto. }
  assert (Hdef : forall k, (cls N = "FunctionDef" /\ k = 4)
                           \/ (cls N = "ClassDef" /\ k = 6) ->
             forall l col s1 s2 fs' name,
               attributes N = Some (l, col) ->
               getattr_str N "name" = Ok name ->
               _NameParser._add_node s (Node c fs (Some (l, col + k))) name
               = Ok s1 ->
               _NameParser.visit_children _NameParser.visit fs s1
               = Ok (s2, fs') ->
               _NameParser.name s2 = _NameParser.name s
               /\ (forall p, p ∈ _NameParser.names s ->
                             p ∈ _NameParser.names s2)
               /\ (forall p, p ∈ _NameParser.names s2 ->
                             p ∈ _NameParser.names s
                             \/ occurs (_NameParser.name s) N p)).
  { intros k Hk l col s1 s2 fs' name Hattr Hname Hadd Hrest.
    destruct (name_add_node_names _ _ _ _ Hadd) as (Hn1 & Hk1 & Ha1).
    destruct (Hchildren _ _ _ Hrest) as (Hn2 & Hk2 & Ha2).
    split; [congruence|]. split; [auto|].
    intros p Hp. destruct (Ha2 p Hp) as [Hp1|(child & Hc & Ho)].
    - destruct (Ha1 p Hp1) as [Hp0|[-> Hpos]]; [auto|].
      right. cbn [attributes] in Hpos. injection Hpos as <-.
      exists N, l, col. split; [exact Hroot|]. split; [exact Hattr|].
      right. destruct Hk as [[Hc ->]|[Hc ->]]; [left|right]; auto.
    - right. rewrite Hn1 in Ho. eapply occurs_child; eauto. }
  subst N. rewrite name_visit_unfold in H. unfold isinstance in H.
  cbn [cls existsb] in H.
  destruct (String.eqb_spec c "Name") as [Ename|Ename]; cbn [orb] in H.
  - unfold _NameParser.visit_Name in H. bind_inv H. injection H as <- _.
    destruct (name_add_node_names _ _ _ _ E0) as (Hn1 & Hk1 & Ha1).
    split; [exact Hn1|]. split; [exact Hk1|].
    intros p Hp. destruct (Ha1 p Hp) as [Hp0|[-> Hpos]]; [auto|].
    right. destruct p as [l col]. exists (Node c fs a), l, col.
    split; [exact Hroot|]. split; [exact Hpos|]. left. auto.
  - destruct (String.eqb_spec c "FunctionDef") as [Efun|Efun]; cbn [orb] in H.
    + unfold _NameParser._visit_def, isinstance in H.
      cbn [cls existsb] in H. rewrite Efun in H.
      cbn [String.eqb Ascii.eqb Bool.eqb orb andb] in H.
      unfold _NameParser.bump in H. cbn [attributes cls fields] in H.
      destruct a as [[l col]|]; [|discriminate].
      bind_inv H. destruct a1 as [s2 fs2]. injection H as <- _.
      apply (Hdef (len (u "def ")) (or_introl (conj Efun eq_refl))
                  l col a0 s2 fs2 a); auto.
    + destruct (String.eqb_spec c "ClassDef") as [Ecls|Ecls]; cbn [orb] in H.
      * unfold _NameParser._visit_def, isinstance in H.
        cbn [cls existsb] in H. rewrite Ecls in H.
        cbn [String.eqb Ascii.eqb Bool.eqb orb andb] in H.
        unfold _NameParser.bump in H. cbn [attributes cls fields] in H.
        destruct a as [[l col]|]; [|discriminate].
        bind_inv H. destruct a1 as [s2 fs2]. injection H as <- _.
        apply (Hdef (len (u "class ")) (or_intror (conj Ecls eq_refl))
                    l col a0 s2 fs2 a); auto.
      * unfold _NameParser.generic_visit in H. cbn [fields] in H.
        bind_inv H. destruct a0 as [s2 fs2]. injection H as <- _.
        destruct (Hchildren _ _ _ E) as (Hn2 & Hk2 & Ha2).
        split; [exact Hn2|]. split; [exact Hk2|].
        intros p Hp. destruct (Ha2 p Hp) as [Hp0|(child & Hc & Ho)]; [auto|].
        right. eapply occurs_child; eauto.
Qed.

Lemma name_visit_occurrences_witness :
  exists s' n',
    _NameParser.visit simple_tree (_NameParser.__init__ "outer") = Ok (s', n')
    /\ forall p, p ∈ _NameParser.names s' -> occurs "outer" simple_tree p.
Proof.
  destruct (_NameParser.visit simple_tree (_NameParser.__init__ "outer"))
    as [[s' n']|] eqn:H; [|vm_compute in H; discriminate].
  exists s', n'. split; [reflexivity|]. intros p Hp.
  destruct (proj2 (proj2 (name_visit_occurrences simple_tree _ s' n' H)) p Hp)
    as [Hnil|Ho]; [|exact Ho].
  apply elem_of_nil in Hnil. contradiction.
Defined.

(** ** The window of [variable_indices] *)




